(** * ClassPrefixer: the text-rewriting core of src/extension.ts

    A shallow embedding of the functions that add or strip a class prefix in
    JSX-like source text, and the properties the specification states about
    them.

    JavaScript strings are sequences of 16-bit code units and every operation
    of the program (indexing, [startsWith], regular expressions without the
    [u] flag) works code unit by code unit, so a string is a list of code
    units here. *)

From Stdlib Require Import List NArith ZArith Bool Arith Lia.
From Stdlib Require String Ascii.
Import ListNotations.
Import String.StringSyntax.

(** ** Strings *)

Definition char := N.
Definition str := list char.

(** A Rocq string literal as a list of code units (ASCII text only). *)
Definition u (s : String.string) : str :=
  map Ascii.N_of_ascii (String.list_ascii_of_string s).
Arguments u s%_string_scope.

Definition c_tab   : char := 9%N.
Definition c_sp    : char := 32%N.
Definition c_dq    : char := 34%N.   (* the double quote *)
Definition c_dollar : char := 36%N.
Definition c_amp   : char := 38%N.
Definition c_sq    : char := 39%N.   (* the single quote *)
Definition c_minus : char := 45%N.
Definition c_eq    : char := 61%N.
Definition c_bsl   : char := 92%N.   (* the backslash *)
Definition c_under : char := 95%N.
Definition c_bt    : char := 96%N.   (* the backtick *)
Definition c_lbrace : char := 123%N.
Definition c_rbrace : char := 125%N.

Definition ceq (a b : char) : bool := N.eqb a b.

Fixpoint str_eqb (a b : str) : bool :=
  match a, b with
  | [], [] => true
  | x :: a', y :: b' => ceq x y && str_eqb a' b'
  | _, _ => false
  end.

(** [\s] of an ECMAScript regular expression: WhiteSpace and LineTerminator. *)
Definition is_space (c : char) : bool :=
  ((9 <=? c) && (c <=? 13) || (c =? 32) || (c =? 160) || (c =? 5760)
   || (8192 <=? c) && (c <=? 8202) || (c =? 8232) || (c =? 8233)
   || (c =? 8239) || (c =? 8287) || (c =? 12288) || (c =? 65279))%N.

(** [\w]: ASCII letters, digits and the underscore. *)
Definition is_word (c : char) : bool :=
  ((48 <=? c) && (c <=? 57) || (65 <=? c) && (c <=? 90)
   || (97 <=? c) && (c <=? 122) || (c =? 95))%N.

(** The class [[\w$-]] of the wildcard translation. *)
Definition is_name_char (c : char) : bool :=
  is_word c || ceq c c_dollar || ceq c c_minus.

(** The three quote characters of the direct-value patterns: the double
    quote, the single quote and the backtick. *)
Definition is_quote (c : char) : bool :=
  ceq c c_dq || ceq c c_sq || ceq c c_bt.

(** [String.prototype.startsWith]. *)
Fixpoint startsWith (s p : str) {struct p} : bool :=
  match p, s with
  | [], _ => true
  | x :: p', y :: s' => ceq y x && startsWith s' p'
  | _ :: _, [] => false
  end.

(** [String.prototype.substring(n)], with [n] within the string's length. *)
Definition substring (s : str) (n : nat) : str := skipn n s.

(** [Array.prototype.includes] on an array of strings. *)
Definition includes (l : list str) (x : str) : bool := existsb (str_eqb x) l.

(** [Array.prototype.join(sep)]. *)
Fixpoint join (sep : str) (l : list str) : str :=
  match l with
  | [] => []
  | [x] => x
  | x :: l' => x ++ sep ++ join sep l'
  end.

(** [String.prototype.split(/\s+/)]: the pieces between maximal runs of
    white space, an empty piece at either end when the string starts or ends
    with white space, and the empty string itself giving one empty piece.
    [in_ws] says that the previous character was white space, [cur] holds the
    current piece in reverse. *)
Fixpoint split_ws_go (in_ws : bool) (cur : str) (s : str) : list str :=
  match s with
  | [] => [rev cur]
  | c :: r =>
      if is_space c then
        if in_ws then split_ws_go true [] r
        else rev cur :: split_ws_go true [] r
      else split_ws_go false (c :: cur) r
  end.

Definition split_ws (s : str) : list str := split_ws_go false [] s.

(** ** The Token Processor: [processClasses] *)

Definition non_empty (c : str) : bool := (0 <? length c)%nat.

Definition processClasses (classString prefix : str) (skipClasses : list str)
    (addPrefix : bool) : str :=
  let classes := filter non_empty (split_ws classString) in
  let processedClasses :=
    map (fun className =>
           if negb (non_empty className) then className
           else if addPrefix then
             if startsWith className prefix then className
             else if includes skipClasses className then className
             else prefix ++ className
           else
             if startsWith className prefix
             then substring className (length prefix)
             else className)
        classes in
  join [c_sp] processedClasses.

(** *** The reference definition of the specification

    Split on runs of white space and drop empty tokens; when adding, keep a
    token that starts with the prefix or is a member of the skip set, else
    prepend the prefix; when removing, strip the leading prefix when it is
    there; join with single spaces. *)

(** The tokens: the maximal runs of characters that are not white space. *)
Fixpoint tokens_go (cur : str) (s : str) : list str :=
  match s with
  | [] => match cur with [] => [] | _ => [rev cur] end
  | c :: r =>
      if is_space c then
        match cur with
        | [] => tokens_go [] r
        | _ => rev cur :: tokens_go [] r
        end
      else tokens_go (c :: cur) r
  end.

Definition tokens (s : str) : list str := tokens_go [] s.

(** The rest of [t] after a leading [p], when [t] starts with [p]. *)
Fixpoint strip_prefix (p t : str) : option str :=
  match p with
  | [] => Some t
  | x :: p' =>
      match t with
      | [] => None
      | y :: t' => if ceq x y then strip_prefix p' t' else None
      end
  end.

Definition rewrite_token (prefix : str) (skipSet : list str) (adding : bool)
    (t : str) : str :=
  if adding then
    match strip_prefix prefix t with
    | Some _ => t
    | None => if in_dec (list_eq_dec N.eq_dec) t skipSet then t else prefix ++ t
    end
  else
    match strip_prefix prefix t with
    | Some rest => rest
    | None => t
    end.

Definition rewrite_spec (classString prefix : str) (skipSet : list str)
    (adding : bool) : str :=
  join [c_sp] (map (rewrite_token prefix skipSet adding) (tokens classString)).

(** ** The Brace Matcher: [findMatchingBrace]

    The [for] loop of the source runs over the indices [i] from [openIndex];
    here it runs over the rest of the text from index [i], with the depth and
    the three flags as they stand. The [i++; continue] of an escape skips the
    character after the backslash. The result is the index found, or [-1]. *)

Fixpoint findMatchingBrace_loop (s : str) (i : nat) (depth : Z)
    (inSingle inDouble inBacktick : bool) {struct s} : Z :=
  match s with
  | [] => (-1)%Z
  | ch :: r =>
      if inSingle then
        if ceq ch c_bsl then
          match r with
          | [] => (-1)%Z
          | _ :: r' =>
              findMatchingBrace_loop r' (i + 2) depth inSingle inDouble inBacktick
          end
        else if ceq ch c_sq then
          findMatchingBrace_loop r (i + 1) depth false inDouble inBacktick
        else findMatchingBrace_loop r (i + 1) depth inSingle inDouble inBacktick
      else if inDouble then
        if ceq ch c_bsl then
          match r with
          | [] => (-1)%Z
          | _ :: r' =>
              findMatchingBrace_loop r' (i + 2) depth inSingle inDouble inBacktick
          end
        else if ceq ch c_dq then
          findMatchingBrace_loop r (i + 1) depth inSingle false inBacktick
        else findMatchingBrace_loop r (i + 1) depth inSingle inDouble inBacktick
      else if inBacktick then
        if ceq ch c_bsl then
          match r with
          | [] => (-1)%Z
          | _ :: r' =>
              findMatchingBrace_loop r' (i + 2) depth inSingle inDouble inBacktick
          end
        else if ceq ch c_bt then
          findMatchingBrace_loop r (i + 1) depth inSingle inDouble false
        else findMatchingBrace_loop r (i + 1) depth inSingle inDouble inBacktick
      else if ceq ch c_sq then
        findMatchingBrace_loop r (i + 1) depth true inDouble inBacktick
      else if ceq ch c_dq then
        findMatchingBrace_loop r (i + 1) depth inSingle true inBacktick
      else if ceq ch c_bt then
        findMatchingBrace_loop r (i + 1) depth inSingle inDouble true
      else if ceq ch c_lbrace then
        findMatchingBrace_loop r (i + 1) (depth + 1) inSingle inDouble inBacktick
      else if ceq ch c_rbrace then
        if (depth - 1 =? 0)%Z then Z.of_nat i
        else findMatchingBrace_loop r (i + 1) (depth - 1) inSingle inDouble inBacktick
      else findMatchingBrace_loop r (i + 1) depth inSingle inDouble inBacktick
  end.

Definition findMatchingBrace (source : str) (openIndex : nat) : Z :=
  findMatchingBrace_loop (skipn openIndex source) openIndex 0 false false false.

(** *** The matching brace as the specification describes it

    A lexer first tells which braces count: it is in one of four modes, a
    quote or a backtick met in normal mode opens a span that the same
    character closes, a backslash inside a span takes the next character
    with it, and only the braces met in normal mode are kept, with their
    index and their effect on the depth. The matching brace is then the first
    of these at which the running depth, from 0, is back at 0. *)

Inductive lex_mode := Normal | InSingle | InDouble | InTemplate.

Definition closer (m : lex_mode) : char :=
  match m with
  | InSingle => c_sq
  | InDouble => c_dq
  | _ => c_bt
  end.

Fixpoint brace_events (m : lex_mode) (i : nat) (s : str) {struct s}
    : list (nat * Z) :=
  match s with
  | [] => []
  | ch :: r =>
      match m with
      | Normal =>
          if ceq ch c_sq then brace_events InSingle (S i) r
          else if ceq ch c_dq then brace_events InDouble (S i) r
          else if ceq ch c_bt then brace_events InTemplate (S i) r
          else if ceq ch c_lbrace then (i, 1%Z) :: brace_events Normal (S i) r
          else if ceq ch c_rbrace then (i, (-1)%Z) :: brace_events Normal (S i) r
          else brace_events Normal (S i) r
      | _ =>
          if ceq ch c_bsl then
            match r with
            | [] => []
            | _ :: r' => brace_events m (S (S i)) r'
            end
          else if ceq ch (closer m) then brace_events Normal (S i) r
          else brace_events m (S i) r
      end
  end.

Fixpoint depth_returns (depth : Z) (evs : list (nat * Z)) : option nat :=
  match evs with
  | [] => None
  | (i, d) :: evs' =>
      if (depth + d =? 0)%Z then Some i else depth_returns (depth + d) evs'
  end.

Definition matchingClose (text : str) (openIndex : nat) : option nat :=
  depth_returns 0 (brace_events Normal openIndex (skipn openIndex text)).

(** ** The Quoted-String Scanner: [replaceQuotedStringsIgnoringTemplates] *)

(** The inner loop, from the character after an opening quote: the content
    up to the closing quote and the text after it, or nothing when the input
    ends first. A backslash and the character after it go to the content
    together. *)
Fixpoint scan_quoted (quote : char) (s : str) {struct s} : option (str * str) :=
  match s with
  | [] => None
  | c :: r =>
      if ceq c c_bsl then
        match r with
        | [] => None
        | c2 :: r' =>
            match scan_quoted quote r' with
            | Some (content, rest) => Some (c :: c2 :: content, rest)
            | None => None
            end
        end
      else if ceq c quote then Some ([], r)
      else
        match scan_quoted quote r with
        | Some (content, rest) => Some (c :: content, rest)
        | None => None
        end
  end.

(** The outer loop on the text from index [i] on; what it returns is what the
    source appends to [out] from there. Every turn takes at least one
    character, so as many turns as the text has characters are enough. *)
Fixpoint rq_loop (fuel : nat) (replacer : str -> char -> str)
    (inBacktick : bool) (s : str) : str :=
  match fuel with
  | O => []
  | S fuel' =>
      match s with
      | [] => []
      | ch :: r =>
          if inBacktick then
            if ceq ch c_bsl then
              match r with
              | c2 :: r' => ch :: c2 :: rq_loop fuel' replacer true r'
              | [] => ch :: rq_loop fuel' replacer true r
              end
            else if ceq ch c_bt then ch :: rq_loop fuel' replacer false r
            else ch :: rq_loop fuel' replacer true r
          else if ceq ch c_bt then ch :: rq_loop fuel' replacer true r
          else if ceq ch c_dq || ceq ch c_sq then
            match scan_quoted ch r with
            | Some (content, rest) =>
                ch :: replacer content ch ++ ch :: rq_loop fuel' replacer false rest
            | None => ch :: rq_loop fuel' replacer false r
            end
          else ch :: rq_loop fuel' replacer false r
      end
  end.

Definition replaceQuotedStringsIgnoringTemplates (input : str)
    (replacer : str -> char -> str) : str :=
  rq_loop (length input) replacer false input.

(** The scanner from a given state of its [inBacktick] flag. *)
Definition rq (replacer : str -> char -> str) (inBacktick : bool) (s : str)
    : str :=
  rq_loop (length s) replacer inBacktick s.

(** The text of a template span after its opening backtick: the span's
    interior up to the closing backtick and the text after it, when the span
    is closed. *)
Fixpoint template_span (s : str) {struct s} : option (str * str) :=
  match s with
  | [] => None
  | c :: r =>
      if ceq c c_bsl then
        match r with
        | [] => None
        | c2 :: r' =>
            match template_span r' with
            | Some (t, rest) => Some (c :: c2 :: t, rest)
            | None => None
            end
        end
      else if ceq c c_bt then Some ([], r)
      else
        match template_span r with
        | Some (t, rest) => Some (c :: t, rest)
        | None => None
        end
  end.

(** Texts in which the scanner ends where it started, outside every span:
    plain characters, closed quoted strings and closed template spans. *)
Inductive closed_text : str -> Prop :=
| closed_nil : closed_text []
| closed_plain c s :
    ceq c c_bt = false -> ceq c c_dq = false -> ceq c c_sq = false ->
    closed_text s -> closed_text (c :: s)
| closed_quoted q content s :
    (q = c_dq \/ q = c_sq) ->
    scan_quoted q (content ++ [q]) = Some (content, []) ->
    closed_text s -> closed_text (q :: content ++ q :: s)
| closed_template t s :
    template_span (t ++ [c_bt]) = Some (t, []) ->
    closed_text s -> closed_text (c_bt :: t ++ c_bt :: s).


(** The three flags of the source in each mode of the lexer. *)
Definition in_single (m : lex_mode) : bool :=
  match m with InSingle => true | _ => false end.
Definition in_double (m : lex_mode) : bool :=
  match m with InDouble => true | _ => false end.
Definition in_backtick (m : lex_mode) : bool :=
  match m with InTemplate => true | _ => false end.

(** An index as the source returns it: [-1] for not found. *)
Definition index_or_minus_one (o : option nat) : Z :=
  match o with Some k => Z.of_nat k | None => (-1)%Z end.
(** ** Configuration and results *)

Record ClassPrefixerConfig := {
  prefix : str;
  skipClasses : list str;
  autoFormat : bool;
  customPatterns : list str;
  useRegex : bool;
  customRegexPatterns : list str
}.

(** What a run ends in: the text it returns, an exception it throws, or a
    loop that was still running when the turns allotted to it were used up. *)
Inductive error := SyntaxError | TypeError.

Inductive outcome :=
| Ok (s : str)
| Throw (e : error)
| Unfinished.

(** ** Regular expressions

    The program builds its regular expressions from text and hands them to
    the host's engine. The expressions it builds for the default name and for
    wildcard names have a fixed shape, and are modelled by what they match.
    The expressions it builds around a user's raw fragments ([useRegex]) can
    be anything: for these the host's engine is a parameter, which says
    whether the constructor accepts a source text (it throws a [SyntaxError]
    otherwise) and, for a text and an index to search from, how far from that
    index the leftmost match starts, how long it is and what its first group
    captured. *)

Record RegExpHost := {
  host_compiles : str -> bool;
  host_find : str -> str -> nat -> option (nat * nat * option str)
}.

Definition c_star : char := 42%N.
Definition c_bar : char := 124%N.

(** [escapeRegExp]: a backslash before each character of the class that the
    source's regular expression lists (the backslash, the caret, the dollar
    sign, the dot, the star, the plus sign, the question mark, the two
    parentheses, the opening bracket, the backtick, the two braces and the
    bar). In the expression compiled from the result, each of these after
    its backslash, and every character left alone, stands for itself: a
    segment of a wildcard matches its own text and nothing else. *)
Definition is_escaped_meta (c : char) : bool :=
  existsb (ceq c) (u "\^$.*+?()[`{}|").

Definition escapeRegExp (s : str) : str :=
  flat_map (fun c => if is_escaped_meta c then [c_bsl; c] else [c]) s.

(** [wild.split('*')]. *)
Fixpoint split_star_go (cur : str) (s : str) : list str :=
  match s with
  | [] => [rev cur]
  | c :: r =>
      if ceq c c_star then rev cur :: split_star_go [] r
      else split_star_go (c :: cur) r
  end.

Definition split_star (wild : str) : list str := split_star_go [] wild.

(** [toNameRegex]: the source text of the name expression of a wildcard. *)
Definition toNameRegex (wild : str) : str :=
  join (u "[\w$-]*") (map escapeRegExp (split_star wild)).

(** [Array.from(new Set(...))]: the first occurrence of each string, in
    order. *)
Fixpoint unique_go (seen : list str) (l : list str) : list str :=
  match l with
  | [] => []
  | x :: r =>
      if includes seen x then unique_go seen r
      else x :: unique_go (x :: seen) r
  end.

Definition unique (l : list str) : list str := unique_go [] l.

(** The same on entries that carry their source text: one entry for each
    source text, the first. *)
Fixpoint unique_by_source (seen : list str) (l : list (str * list str))
    : list (str * list str) :=
  match l with
  | [] => []
  | (src, segs) :: r =>
      if includes seen src then unique_by_source seen r
      else (src, segs) :: unique_by_source (src :: seen) r
  end.

(** *** Matching

    A match is tried at the start of a text [s]; what follows the part
    matched so far is handed to a continuation, and a failure of the
    continuation makes the matcher try its next choice, as the backtracking
    engine does. The result is the first group and the text after the
    match. *)

Definition found := option (option str * str).

Fixpoint drop_spaces (s : str) : str :=
  match s with
  | c :: r => if is_space c then drop_spaces r else s
  | [] => []
  end.

(** A run of characters that are not quotes, then a quote: the run and the
    text after the quote. *)
Fixpoint take_value (s : str) : option (str * str) :=
  match s with
  | [] => None
  | c :: r =>
      if is_quote c then Some ([], r)
      else
        match take_value r with
        | Some (v, rest) => Some (c :: v, rest)
        | None => None
        end
  end.

(** After the name of a direct value: white space, the equals sign, white
    space, a quote, the value (the group) and a quote. No choice here ever
    needs to be revised: a run of white space cannot give back a character to
    the equals sign or to a quote, nor the value to the closing quote. *)
Definition direct_tail (s : str) : found :=
  match drop_spaces s with
  | c :: s1 =>
      if ceq c c_eq then
        match drop_spaces s1 with
        | q :: s2 =>
            if is_quote q then
              match take_value s2 with
              | Some (v, rest) => Some (Some v, rest)
              | None => None
              end
            else None
        | [] => None
        end
      else None
  | [] => None
  end.

(** After the name of an expression value: white space, the equals sign,
    white space and the opening brace. *)
Definition open_tail (s : str) : found :=
  match drop_spaces s with
  | c :: s1 =>
      if ceq c c_eq then
        match drop_spaces s1 with
        | b :: s2 => if ceq b c_lbrace then Some (None, s2) else None
        | [] => None
        end
      else None
  | [] => None
  end.

(** The wildcard's run of name characters, longest first. *)
Fixpoint star_name (s : str) (k : str -> found) : found :=
  match s with
  | c :: r =>
      if is_name_char c then
        match star_name r k with
        | Some x => Some x
        | None => k s
        end
      else k s
  | [] => k s
  end.

(** A name expression, given by the literal segments between its
    wildcards. *)
Fixpoint match_segs (segs : list str) (s : str) (k : str -> found) : found :=
  match segs with
  | [] => k s
  | seg :: segs' =>
      match strip_prefix seg s with
      | None => None
      | Some r =>
          match segs' with
          | [] => k r
          | _ => star_name r (fun r' => match_segs segs' r' k)
          end
      end
  end.

(** An alternation of name expressions, the first alternative first. *)
Fixpoint match_alts (alts : list (list str)) (s : str) (k : str -> found)
    : found :=
  match alts with
  | [] => None
  | a :: alts' =>
      match match_segs a s k with
      | Some x => Some x
      | None => match_alts alts' s k
      end
  end.

(** The regular expressions of the program, all with the [g] flag: the
    direct value of [className]; the direct value of a wildcard name, by the
    segments of the wildcard; the opening of an expression value after one of
    several names; and an expression that the host compiled from a source
    text. *)
Inductive RegExp :=
| ReDefault
| ReWild (segs : list str)
| ReOpen (alts : list (list str))
| ReHost (source : str).

Definition match_here (re : RegExp) (s : str) : found :=
  match re with
  | ReDefault => match_segs [u "className"] s direct_tail
  | ReWild segs => match_segs segs s direct_tail
  | ReOpen alts => match_alts alts s open_tail
  | ReHost _ => None
  end.

(** The leftmost match in [s], the text from index [i] on: where it starts,
    where it ends and its first group. *)
Fixpoint find_from (re : RegExp) (s : str) (i : nat)
    : option (nat * nat * option str) :=
  match match_here re s with
  | Some (g, rest) => Some (i, i + (length s - length rest), g)
  | None =>
      match s with
      | [] => None
      | _ :: r => find_from re r (S i)
      end
  end.

(** [RegExp.prototype.exec] of a global expression whose [lastIndex] is
    [lastIndex]. *)
Definition exec (host : RegExpHost) (re : RegExp) (text : str)
    (lastIndex : nat) : option (nat * nat * option str) :=
  if (length text <? lastIndex)%nat then None
  else
    match re with
    | ReHost source =>
        match host_find host source text lastIndex with
        | Some (d, l, g) => Some (lastIndex + d, lastIndex + d + l, g)
        | None => None
        end
    | _ => find_from re (skipn lastIndex text) lastIndex
    end.

(** [String.prototype.slice(a, b)] for indices that are not negative. *)
Definition slice (text : str) (a b : nat) : str := firstn (b - a) (skipn a text).

(** [String.prototype.replace] with a global expression and a function: the
    matches are searched one after the other, each from the end of the one
    before (one further after an empty match), and the text between them is
    kept. *)
Fixpoint replace_loop (fuel : nat) (host : RegExpHost) (re : RegExp)
    (replacer : str -> option str -> outcome) (text : str)
    (lastIndex nextSourcePosition : nat) : outcome :=
  match fuel with
  | O => Unfinished
  | S fuel' =>
      match exec host re text lastIndex with
      | None => Ok (skipn nextSourcePosition text)
      | Some (index, e, g) =>
          match replacer (slice text index e) g with
          | Ok replacement =>
              match replace_loop fuel' host re replacer text
                      (if (e =? index)%nat then e + 1 else e) e with
              | Ok rest =>
                  Ok (slice text nextSourcePosition index ++ replacement ++ rest)
              | o => o
              end
          | o => o
          end
      end
  end.

Definition String_replace (host : RegExpHost) (text : str) (re : RegExp)
    (replacer : str -> option str -> outcome) : outcome :=
  replace_loop (length text + 2) host re replacer text 0 0.

(** [String.prototype.replace] with a string to search and a string to put
    in its place: the first occurrence only, and in the new text a dollar
    sign followed by a dollar sign, an ampersand, a backtick or a single
    quote stands for a dollar sign, the text found, the text before it or
    the text after it. *)
Fixpoint index_split (needle hay : str) : option (str * str) :=
  match strip_prefix needle hay with
  | Some after => Some ([], after)
  | None =>
      match hay with
      | [] => None
      | c :: r =>
          match index_split needle r with
          | Some (before, after) => Some (c :: before, after)
          | None => None
          end
      end
  end.

Fixpoint getSubstitution (matched before after : str) (template : str) : str :=
  match template with
  | [] => []
  | c :: r =>
      if ceq c c_dollar then
        match r with
        | d :: r' =>
            if ceq d c_dollar then
              c_dollar :: getSubstitution matched before after r'
            else if ceq d c_amp then
              matched ++ getSubstitution matched before after r'
            else if ceq d c_bt then
              before ++ getSubstitution matched before after r'
            else if ceq d c_sq then
              after ++ getSubstitution matched before after r'
            else c :: getSubstitution matched before after r
        | [] => [c]
        end
      else c :: getSubstitution matched before after r
  end.

Definition replace_first (s needle replacement : str) : str :=
  match index_split needle s with
  | None => s
  | Some (before, after) =>
      before ++ getSubstitution needle before after replacement ++ after
  end.

(** ** The Attribute Pattern Builder *)

Definition custom_names (customPatterns : list str) : list str :=
  match customPatterns with
  | [] => [u "*ClassName"]
  | _ => customPatterns
  end.

Definition buildPatternsFromCustom (customPatterns : list str) : list RegExp :=
  map (fun wild => ReWild (split_star wild)) (unique (custom_names customPatterns)).

(** The three quote characters as they stand in a character class. *)
Definition quotes_class : str := [c_dq; c_sq; c_bt].

(** The source text of the direct-value expression around a raw fragment. *)
Definition direct_source (pattern : str) : str :=
  u "(?:" ++ pattern ++ u ")\s*=\s*[" ++ quotes_class ++ u "]([^"
    ++ quotes_class ++ u "]*)[" ++ quotes_class ++ u "]".

(** [buildPatterns]: the expressions of the direct-value pass, and the
    warnings shown for the fragments that the constructor refused. *)
Definition buildPatterns (host : RegExpHost) (config : ClassPrefixerConfig)
    : list RegExp * list str :=
  if useRegex config then
    fold_left
      (fun (acc : list RegExp * list str) (pattern : str) =>
         if host_compiles host (direct_source pattern)
         then (fst acc ++ [ReHost (direct_source pattern)], snd acc)
         else (fst acc, snd acc ++ [pattern]))
      (customRegexPatterns config) ([ReDefault], [])
  else (ReDefault :: buildPatternsFromCustom (customPatterns config), []).

(** [buildAttrNameAlternation]: the names of the expression pass, as the
    alternatives of the wildcard names or as the source text around the raw
    fragments. *)
Inductive AttrAlternation :=
| AltWild (alts : list (list str))
| AltHost (source : str).

Definition buildAttrNameAlternation (config : ClassPrefixerConfig)
    : AttrAlternation :=
  if useRegex config then
    AltHost (u "(?:"
             ++ join [c_bar]
                  (unique (u "className"
                           :: filter non_empty (customRegexPatterns config)))
             ++ u ")")
  else
    AltWild
      (map snd
         (unique_by_source []
            ((u "className", [u "className"])
             :: map (fun wild => (toNameRegex wild, split_star wild))
                  (custom_names (customPatterns config))))).

(** [new RegExp] of the alternation followed by the rest of the opening of
    an expression value; nothing when the constructor throws. *)
Definition startRe (host : RegExpHost) (attrAlt : AttrAlternation)
    : option RegExp :=
  match attrAlt with
  | AltWild alts => Some (ReOpen alts)
  | AltHost source =>
      if host_compiles host (source ++ u "\s*=\s*\{")
      then Some (ReHost (source ++ u "\s*=\s*\{"))
      else None
  end.

(** ** The Rewrite Engine *)

(** The [while] loop of [processExpressionAttributeLiterals]: [reIndex] is
    the [lastIndex] of the expression, [lastIndex] the variable of that name;
    what the loop returns is what the source appends to [result] from
    there. The index of the opening brace is one before the end of the
    match. *)
Fixpoint expression_loop (fuel : nat) (host : RegExpHost) (re : RegExp)
    (transform : str -> str) (text : str) (reIndex lastIndex : nat) : outcome :=
  match fuel with
  | O => Unfinished
  | S fuel' =>
      match exec host re text reIndex with
      | None => Ok (skipn lastIndex text)
      | Some (_, e, _) =>
          let openBraceIndex := (Z.of_nat e - 1)%Z in
          let closeIndex := findMatchingBrace text (Z.to_nat openBraceIndex) in
          if (closeIndex =? -1)%Z then
            expression_loop fuel' host re transform text e lastIndex
          else
            let before := slice text lastIndex (Z.to_nat (openBraceIndex + 1)) in
            let body :=
              slice text (Z.to_nat (openBraceIndex + 1)) (Z.to_nat closeIndex) in
            let afterClose := Z.to_nat (closeIndex + 1) in
            match expression_loop fuel' host re transform text
                    afterClose afterClose with
            | Ok rest => Ok (before ++ transform body ++ [c_rbrace] ++ rest)
            | o => o
            end
      end
  end.

Definition processExpressionAttributeLiterals (host : RegExpHost) (text : str)
    (config : ClassPrefixerConfig) (addPrefix : bool) : outcome :=
  match startRe host (buildAttrNameAlternation config) with
  | None => Throw SyntaxError
  | Some re =>
      expression_loop (length text + 2) host re
        (fun body =>
           replaceQuotedStringsIgnoringTemplates body
             (fun content _ =>
                processClasses content (prefix config)
                  (if addPrefix then skipClasses config else []) addPrefix))
        text 0 0
  end.

(** The function handed to [replace] in the direct-value pass: the class
    list found is processed and put back in place of its first occurrence in
    the match. A group that took no part in the match is [undefined], and
    [processClasses] throws on it. *)
Definition direct_replacer (prefix : str) (skipClasses : list str)
    (addPrefix : bool) (m : str) (classes : option str) : outcome :=
  match classes with
  | None => Throw TypeError
  | Some cl =>
      Ok (replace_first m cl (processClasses cl prefix skipClasses addPrefix))
  end.

(** The [forEach] over the patterns, each on the result of the one before. *)
Definition direct_pass (host : RegExpHost) (patterns : list RegExp)
    (replacer : str -> option str -> outcome) (text : str) : outcome :=
  fold_left
    (fun (acc : outcome) (pattern : RegExp) =>
       match acc with
       | Ok result => String_replace host result pattern replacer
       | o => o
       end)
    patterns (Ok text).

Definition addPrefixToClasses (host : RegExpHost) (text : str)
    (config : ClassPrefixerConfig) : outcome :=
  let patterns := fst (buildPatterns host config) in
  match direct_pass host patterns
          (direct_replacer (prefix config) (skipClasses config) true) text with
  | Ok result => processExpressionAttributeLiterals host result config true
  | o => o
  end.

Definition removePrefixFromClasses (host : RegExpHost) (text : str)
    (config : ClassPrefixerConfig) : outcome :=
  let patterns := fst (buildPatterns host config) in
  match direct_pass host patterns
          (direct_replacer (prefix config) [] false) text with
  | Ok result => processExpressionAttributeLiterals host result config false
  | o => o
  end.

(** A host whose constructor refuses every source text. The configurations
    without [useRegex] never consult the host. *)
Definition strict_host : RegExpHost :=
  {| host_compiles := fun _ => false; host_find := fun _ _ _ => None |}.

(** The configuration of the test suite: prefix [app-], the wildcard
    [*ClassName], no skip list. *)
Definition test_config : ClassPrefixerConfig :=
  {| prefix := u "app-"; skipClasses := []; autoFormat := false;
     customPatterns := [u "*ClassName"]; useRegex := false;
     customRegexPatterns := [] |}.

(** The source text that the expression pass compiles when [useRegex] is
    set. *)
Definition expression_source (config : ClassPrefixerConfig) : str :=
  match buildAttrNameAlternation config with
  | AltHost source => source ++ u "\s*=\s*\{"
  | AltWild _ => []
  end.

(** The configuration with the one raw fragment [(], which no engine
    accepts. *)
Definition bad_regex_config : ClassPrefixerConfig :=
  {| prefix := u "app-"; skipClasses := []; autoFormat := false;
     customPatterns := []; useRegex := true;
     customRegexPatterns := [u "("] |}.


(** ** What the name expressions match

    The texts that a name expression matches in full: its segments in
    order, with a run of name characters for each wildcard between them. *)
Fixpoint name_lang (segs : list str) (n : str) : Prop :=
  match segs with
  | [] => n = []
  | seg :: segs' =>
      match segs' with
      | [] => n = seg
      | _ =>
          exists w n',
            n = seg ++ w ++ n'
            /\ forallb is_name_char w = true
            /\ name_lang segs' n'
      end
  end.


(** The segments of the name of a direct-value expression. *)
Definition segs_of (re : RegExp) : option (list str) :=
  match re with
  | ReDefault => Some [u "className"]
  | ReWild segs => Some segs
  | _ => None
  end.

(** ** Buffers with a single attribute

    The characters that a class name or a prefix is made of in the buffers
    below: no white space, no quote, no equals sign and no dollar sign. *)
Definition class_char (c : char) : bool :=
  negb (is_space c) && negb (is_quote c) && negb (ceq c c_eq)
  && negb (ceq c c_dollar).

Definition class_token (t : str) : bool := non_empty t && forallb class_char t.

Definition no_equals (s : str) : bool := forallb (fun c => negb (ceq c c_eq)) s.

(** A buffer with one equals sign: the text [before] it, a quote, a value,
    a quote and the text [after]. *)
Definition attribute_buffer (before : str) (q : char) (value : str)
    (q2 : char) (after : str) : str :=
  before ++ c_eq :: q :: value ++ q2 :: after.

(** The characters of a value in such a buffer. *)
Definition value_char (c : char) : bool :=
  negb (is_quote c) && negb (ceq c c_eq) && negb (ceq c c_dollar).

(** [s] does not contain [needle]. *)
Definition lacks (s needle : str) : bool :=
  match index_split needle s with
  | Some _ => false
  | None => true
  end.

(** Whether a name expression matches at the start of [a] and is followed
    by nothing but white space to the end of [a]; and the first index of [a]
    from which it does. *)
Definition hits_here (segs : list str) (a : str) : bool :=
  match match_segs segs a
          (fun r => if forallb is_space r then Some (None, []) else None) with
  | Some _ => true
  | None => false
  end.

Fixpoint first_hit (segs : list str) (a : str) : option nat :=
  if hits_here segs a then Some 0
  else
    match a with
    | [] => None
    | _ :: a' =>
        match first_hit segs a' with
        | Some j => Some (S j)
        | None => None
        end
    end.

(** Whether the name of a direct-value expression is found before the
    equals sign. *)
Definition pattern_hits (before : str) (re : RegExp) : bool :=
  match segs_of re with
  | Some segs =>
      match first_hit segs before with
      | Some _ => true
      | None => false
      end
  | None => false
  end.

(** The configuration of the test suite with a skip list. *)
Definition test_config_skipping (skip : list str) : ClassPrefixerConfig :=
  {| prefix := u "app-"; skipClasses := skip; autoFormat := false;
     customPatterns := [u "*ClassName"]; useRegex := false;
     customRegexPatterns := [] |}.

(** A text between double quotes. *)
Definition dquoted (s : str) : str := c_dq :: s ++ [c_dq].

(** ** Words

    A word is what [split] leaves between runs of white space: not empty,
    and free of white space. *)
Definition no_space (s : str) : bool := forallb (fun c => negb (is_space c)) s.

Definition wordlike (t : str) : bool := non_empty t && no_space t.

(** ** Expression bodies

    The texts made of plain characters (those that [plain] accepts), closed
    quoted strings whose content and quote satisfy [P], closed template
    spans, and such texts between a pair of braces. *)
Inductive body_text (plain : char -> bool) (P : str -> char -> Prop)
    : str -> Prop :=
| body_nil : body_text plain P []
| body_plain c s :
    ceq c c_bt = false -> ceq c c_dq = false -> ceq c c_sq = false ->
    plain c = true ->
    body_text plain P s -> body_text plain P (c :: s)
| body_quoted q content s :
    (q = c_dq \/ q = c_sq) ->
    scan_quoted q (content ++ [q]) = Some (content, []) ->
    P content q ->
    body_text plain P s -> body_text plain P (q :: content ++ q :: s)
| body_template t s :
    template_span (t ++ [c_bt]) = Some (t, []) ->
    body_text plain P s -> body_text plain P (c_bt :: t ++ c_bt :: s)
| body_braced inner s :
    body_text plain P inner -> body_text plain P s ->
    body_text plain P (c_lbrace :: inner ++ c_rbrace :: s).

(** The characters that leave a quoted string as it is read: no single or
    double quote and no backslash. *)
Definition string_char (c : char) : bool :=
  negb (ceq c c_dq) && negb (ceq c c_sq) && negb (ceq c c_bsl).

(** The class lists that come back from adding and removing a prefix [p]:
    made of such characters, with single spaces between the class names and
    none around them, and no class name starting with [p]. *)
Definition plain_class_list (p : str) (content : str) : bool :=
  forallb string_char content
  && str_eqb content (join [c_sp] (filter non_empty (split_ws content)))
  && forallb (fun t => negb (startsWith t p))
       (filter non_empty (split_ws content)).

(** The replacer that [processExpressionAttributeLiterals] hands to the
    scanner. *)
Definition expression_replacer (config : ClassPrefixerConfig)
    (addPrefix : bool) : str -> char -> str :=
  fun content _ =>
    processClasses content (prefix config)
      (if addPrefix then skipClasses config else []) addPrefix.

Definition is_brace (c : char) : bool := ceq c c_lbrace || ceq c c_rbrace.

(** The plain characters of the body of an expression value: every brace
    of the body that is outside a string and a template span belongs to a
    pair. *)
Definition not_brace (c : char) : bool := negb (is_brace c).

(** A buffer with one equals sign, followed by an expression value: the
    text [before], the equals sign, the body between braces and the text
    [after]. *)
Definition expression_buffer (before body after : str) : str :=
  before ++ c_eq :: c_lbrace :: body ++ c_rbrace :: after.

(** The names of the expression pass when [useRegex] is off. *)
Definition expression_names (config : ClassPrefixerConfig)
    : list (list str) :=
  match buildAttrNameAlternation config with
  | AltWild alts => alts
  | AltHost _ => []
  end.

(** Whether one of several name expressions matches at the start of [a]
    and is followed by nothing but white space to the end of [a]; the first
    index of [a] from which one does; and whether there is one. *)
Definition hits_any (alts : list (list str)) (a : str) : bool :=
  existsb (fun segs => hits_here segs a) alts.

Fixpoint first_hit_any (alts : list (list str)) (a : str) : option nat :=
  if hits_any alts a then Some 0
  else
    match a with
    | [] => None
    | _ :: a' =>
        match first_hit_any alts a' with
        | Some j => Some (S j)
        | None => None
        end
    end.

Definition name_found (alts : list (list str)) (a : str) : bool :=
  match first_hit_any alts a with
  | Some _ => true
  | None => false
  end.

(** ** The command: [getConfig], [isFileSupported] and [processDocument]

    The settings as [config.get] returns them: a value, or [undefined]. *)
Record Settings := {
  setting_prefix : option str;
  setting_skipClasses : option (list str);
  setting_autoFormat : option bool;
  setting_customPatterns : option (list str);
  setting_useRegex : option bool;
  setting_customRegexPatterns : option (list str)
}.

(** [x || d] of the source: [d] stands in for [undefined], for the empty
    string and for [false]; an array, empty or not, stays. *)
Definition or_string (x : option str) (d : str) : str :=
  match x with
  | Some s => if non_empty s then s else d
  | None => d
  end.

Definition or_array (x : option (list str)) (d : list str) : list str :=
  match x with
  | Some l => l
  | None => d
  end.

Definition or_boolean (x : option bool) (d : bool) : bool :=
  match x with
  | Some true => true
  | _ => d
  end.

Definition getConfig (settings : Settings) : ClassPrefixerConfig :=
  {| prefix := or_string (setting_prefix settings) (u "app-");
     skipClasses := or_array (setting_skipClasses settings) [];
     autoFormat := or_boolean (setting_autoFormat settings) true;
     customPatterns := or_array (setting_customPatterns settings) [];
     useRegex := or_boolean (setting_useRegex settings) false;
     customRegexPatterns :=
       or_array (setting_customRegexPatterns settings) [] |}.

(** What the editor's host does with text and with an exception: the lower
    case of a string, and the text that an exception turns into inside a
    message. *)
Record EditorHost := {
  toLowerCase : str -> str;
  error_text : error -> str
}.

Definition SUPPORTED_EXTENSIONS : list str :=
  [u ".js"; u ".jsx"; u ".ts"; u ".tsx"].

(** [String.prototype.endsWith]. *)
Definition endsWith (s ext : str) : bool :=
  (length ext <=? length s)%nat
  && str_eqb (skipn (length s - length ext) s) ext.

Definition isFileSupported (editorHost : EditorHost) (fileName : str) : bool :=
  existsb (fun ext => endsWith (toLowerCase editorHost fileName) ext)
    SUPPORTED_EXTENSIONS.

(** What a run of the command does to the editor, in order: the messages it
    shows, the replacement of the whole text of the document, and the
    format command. *)
Inductive action :=
| ShowErrorMessage (message : str)
| ShowWarningMessage (message : str)
| ShowInformationMessage (message : str)
| ReplaceDocument (processedText : str)
| FormatDocument.

(** [processDocument]: [editor] is the file name and the text of the active
    editor, when there is one. The warnings are those that [buildPatterns]
    shows at the start of the run. The calls to the editor are taken to
    succeed. Nothing is returned when the turns allotted to a loop of the
    run were used up. *)
Definition processDocument (editorHost : EditorHost) (host : RegExpHost)
    (editor : option (str * str)) (settings : Settings) (addPrefix : bool)
    : option (list action) :=
  match editor with
  | None => Some [ShowErrorMessage (u "ClassPrefixer: open file first")]
  | Some (fileName, fullText) =>
      if negb (isFileSupported editorHost fileName) then
        Some [ShowWarningMessage
                (u "ClassPrefixer: This file type is not supported. Supported file types: .js, .jsx, .ts, .tsx")]
      else
        let config := getConfig settings in
        let warnings :=
          map (fun pattern =>
                 ShowWarningMessage
                   (u "ClassPrefixer: Invalid regex pattern: " ++ pattern))
              (snd (buildPatterns host config)) in
        match (if addPrefix then addPrefixToClasses host fullText config
               else removePrefixFromClasses host fullText config) with
        | Ok processedText =>
            if str_eqb fullText processedText then
              Some (warnings
                    ++ [ShowInformationMessage
                          (if addPrefix
                           then u "ClassPrefixer: Did not find any classes to prefix"
                           else u "ClassPrefixer: Did not find any prefixes to remove")])
            else
              Some (warnings
                    ++ [ReplaceDocument processedText]
                    ++ (if autoFormat config then [FormatDocument] else [])
                    ++ [ShowInformationMessage
                          (if addPrefix
                           then u "ClassPrefixer: Prefix " ++ c_dq :: prefix config
                                  ++ c_dq :: u " added"
                           else u "ClassPrefixer: Prefix " ++ c_dq :: prefix config
                                  ++ c_dq :: u " removed")])
        | Throw e =>
            Some (warnings
                  ++ [ShowErrorMessage
                        (u "ClassPrefixer Error: " ++ error_text editorHost e)])
        | Unfinished => None
        end
  end.

(** An editor host for texts in lower case already. *)
Definition plain_editor_host : EditorHost :=
  {| toLowerCase := fun s => s;
     error_text := fun e =>
       match e with
       | SyntaxError => u "SyntaxError"
       | TypeError => u "TypeError"
       end |}.

(** Settings with an empty prefix and with [autoFormat] and [useRegex]
    off. *)
Definition quiet_settings : Settings :=
  {| setting_prefix := Some [];
     setting_skipClasses := None;
     setting_autoFormat := Some false;
     setting_customPatterns := None;
     setting_useRegex := Some false;
     setting_customRegexPatterns := None |}.

(** ** Reading a name expression back

    The segments that the source text of a name expression stands for: a
    backslash gives the character after it, and an opening bracket that no
    backslash precedes opens the class of a wildcard, which with its star
    is seven characters long. *)
Definition c_lbracket : char := 91%N.

Fixpoint source_segments (cur : str) (s : str) : list str :=
  match s with
  | [] => [rev cur]
  | c :: r =>
      if ceq c c_bsl then
        match r with
        | d :: r' => source_segments (d :: cur) r'
        | [] => [rev cur]
        end
      else if ceq c c_lbracket then
        match r with
        | _ :: _ :: _ :: _ :: _ :: _ :: r' => rev cur :: source_segments [] r'
        | _ => [rev cur]
        end
      else source_segments (c :: cur) r
  end.

(** The name expressions of the direct-value pass. *)
Definition direct_names (host : RegExpHost) (config : ClassPrefixerConfig)
    : list (list str) :=
  flat_map (fun re => match segs_of re with Some segs => [segs] | None => [] end)
    (fst (buildPatterns host config)).

(** Settings with [useRegex] on and one fragment, an opening parenthesis
    alone. *)
Definition regex_settings : Settings :=
  {| setting_prefix := None;
     setting_skipClasses := None;
     setting_autoFormat := None;
     setting_customPatterns := None;
     setting_useRegex := Some true;
     setting_customRegexPatterns := Some [u "("] |}.
(** ** Basic facts about strings *)

Lemma ceq_eq (a b : char) : ceq a b = true <-> a = b.
Proof. apply N.eqb_eq. Qed.

Lemma ceq_refl (a : char) : ceq a a = true.
Proof. apply N.eqb_refl. Qed.

Lemma str_eqb_eq (a b : str) : str_eqb a b = true <-> a = b.
Proof.
  revert b; induction a as [|x a IH]; intros [|y b]; simpl;
    try (split; [discriminate | congruence]); try tauto.
  rewrite andb_true_iff, ceq_eq, IH. split; [intros []|intros [=]]; subst; auto.
Qed.

Lemma str_eqb_refl (a : str) : str_eqb a a = true.
Proof. now apply str_eqb_eq. Qed.

Lemma includes_In (l : list str) (x : str) : includes l x = true <-> In x l.
Proof.
  unfold includes. rewrite existsb_exists. split.
  - intros (y & Hy & E). apply str_eqb_eq in E. now subst.
  - intros H. exists x. split; [assumption | apply str_eqb_refl].
Qed.

Lemma startsWith_app (p r : str) : startsWith (p ++ r) p = true.
Proof. induction p; simpl; [reflexivity | now rewrite ceq_refl]. Qed.

Lemma startsWith_strip (p t : str) :
  startsWith t p = true <-> exists r, strip_prefix p t = Some r.
Proof.
  revert t; induction p as [|x p IH]; intros t; simpl.
  - split; eauto.
  - destruct t as [|y t].
    + split; [discriminate | intros [r Hr]; discriminate].
    + rewrite andb_true_iff, N.eqb_sym. fold (ceq x y).
      destruct (ceq x y); [rewrite <- IH; tauto|].
      split; [intros []; discriminate | intros [r Hr]; discriminate].
Qed.

Lemma strip_prefix_spec (p t r : str) :
  strip_prefix p t = Some r <-> t = p ++ r.
Proof.
  revert t; induction p as [|x p IH]; intros t; simpl.
  - split; [intros [=] | intros ->]; auto.
  - destruct t as [|y t]; [split; discriminate|].
    destruct (ceq x y) eqn:E.
    + apply ceq_eq in E; subst y. rewrite IH. split; [intros -> | intros [=]]; auto.
    + split; [discriminate | intros [= -> _]]. now rewrite ceq_refl in E.
Qed.

Lemma strip_prefix_skipn (p t r : str) :
  strip_prefix p t = Some r -> skipn (length p) t = r.
Proof.
  intros H. apply strip_prefix_spec in H. subst t.
  now rewrite skipn_app, skipn_all, Nat.sub_diag.
Qed.

(** ** The Token Processor against its reference definition *)

Lemma split_tokens_go (b : bool) (cur : str) (s : str) :
  (cur <> [] -> b = false) ->
  filter non_empty (split_ws_go b cur s)
  = tokens_go cur s.
Proof.
  revert b cur; induction s as [|c r IH]; intros b cur Hb; simpl.
  - destruct cur as [|x cur]; [reflexivity|].
    unfold non_empty. rewrite length_rev. reflexivity.
  - destruct (is_space c).
    + destruct b.
      * destruct cur as [|x cur]; [|now specialize (Hb ltac:(discriminate))].
        apply IH. congruence.
      * simpl. destruct cur as [|x cur].
        -- simpl. apply IH. congruence.
        -- unfold non_empty at 1. rewrite length_rev. simpl.
           f_equal. apply IH. congruence.
    + apply IH. reflexivity.
Qed.

Lemma split_tokens (s : str) : filter non_empty (split_ws s) = tokens s.
Proof. apply split_tokens_go. reflexivity. Qed.

Lemma tokens_go_non_empty (cur s : str) :
  Forall (fun t => t <> []) (tokens_go cur s).
Proof.
  revert cur; induction s as [|c r IH]; intros cur; simpl.
  - destruct cur as [|x cur]; constructor; [|constructor].
    intros E. apply (f_equal (@length _)) in E. rewrite length_rev in E. discriminate.
  - destruct (is_space c); [|apply IH].
    destruct cur as [|x cur]; [apply IH|]. constructor; [|apply IH].
    intros E. apply (f_equal (@length _)) in E. rewrite length_rev in E. discriminate.
Qed.

Lemma process_token_rewrite (p : str) (skip : list str) (a : bool) (t : str) :
  t <> [] ->
  (if negb (non_empty t) then t
   else if a then
     if startsWith t p then t
     else if includes skip t then t else p ++ t
   else if startsWith t p then substring t (length p) else t)
  = rewrite_token p skip a t.
Proof.
  intros Ht. destruct t as [|x t]; [congruence|]. cbn [non_empty length negb Nat.ltb Nat.leb].
  unfold rewrite_token.
  destruct (startsWith (x :: t) p) eqn:E.
  - apply startsWith_strip in E as [r Hr]. rewrite Hr.
    destruct a; [reflexivity|]. now apply strip_prefix_skipn.
  - destruct (strip_prefix p (x :: t)) eqn:E'.
    + assert (startsWith (x :: t) p = true) by (apply startsWith_strip; eauto). congruence.
    + destruct a; [|reflexivity].
      destruct (in_dec (list_eq_dec N.eq_dec) (x :: t) skip) as [i|n].
      * apply includes_In in i. now rewrite i.
      * destruct (includes skip (x :: t)) eqn:I; [|reflexivity].
        apply includes_In in I. contradiction.
Qed.

Lemma processClasses_rewrite_spec (s p : str) (skip : list str) (a : bool) :
  processClasses s p skip a = rewrite_spec s p skip a.
Proof.
  unfold processClasses, rewrite_spec. rewrite split_tokens. f_equal.
  pose proof (tokens_go_non_empty [] s) as H. fold (tokens s) in H.
  induction H as [|t l Ht _ IH]; simpl; [reflexivity|].
  f_equal; [now apply process_token_rewrite | exact IH].
Qed.

Lemma rewrite_token_skip_member (p : str) (skip : list str) (t : str) :
  In t skip -> rewrite_token p skip true t = t.
Proof.
  intros H. unfold rewrite_token.
  destruct (strip_prefix p t); [reflexivity|].
  destruct (in_dec (list_eq_dec N.eq_dec) t skip); [reflexivity | contradiction].
Qed.

Lemma rewrite_token_not_member (p : str) (skip : list str) (t : str) :
  ~ In t skip -> rewrite_token p skip true t = rewrite_token p [] true t.
Proof.
  intros H. unfold rewrite_token.
  destruct (strip_prefix p t); [reflexivity|].
  destruct (in_dec (list_eq_dec N.eq_dec) t skip); [contradiction|].
  destruct (in_dec (list_eq_dec N.eq_dec) t []) as [[]|]; reflexivity.
Qed.

(** C3. The Token Processor is the reference definition of the
    specification: the tokens are the maximal runs without white space, in
    order; when adding, a token that starts with the prefix or is a member of
    the skip set stays and any other gets the prefix; when removing, a
    leading prefix is stripped and the skip set plays no part; the results
    are joined by single spaces. A member of the skip set is never changed
    when adding, and a token that is not a member is treated as if there
    were no skip set, whatever entries it contains or is contained in. *)
Theorem processClasses_reference (classString prefix : str)
    (skipSet : list str) (adding : bool) :
  processClasses classString prefix skipSet adding
  = rewrite_spec classString prefix skipSet adding
  /\ (forall t, In t skipSet -> rewrite_token prefix skipSet true t = t)
  /\ (forall t, ~ In t skipSet ->
        rewrite_token prefix skipSet true t = rewrite_token prefix [] true t)
  /\ processClasses classString prefix skipSet false
     = processClasses classString prefix [] false.
Proof.
  split; [apply processClasses_rewrite_spec|].
  split; [intros t; apply rewrite_token_skip_member|].
  split; [intros t; apply rewrite_token_not_member|].
  now rewrite !processClasses_rewrite_spec.
Qed.

(** ** Class lists made of class names and single spaces *)

Lemma tokens_go_app (t : str) :
  forallb (fun c => negb (is_space c)) t = true ->
  forall cur s, tokens_go cur (t ++ s) = tokens_go (rev t ++ cur) s.
Proof.
  induction t as [|c t IH]; intros Ht cur s; [reflexivity|].
  simpl in Ht. apply andb_true_iff in Ht as [Hc Ht].
  cbn [app tokens_go]. destruct (is_space c); [discriminate|].
  rewrite IH by assumption. cbn [rev]. now rewrite <- app_assoc.
Qed.

Lemma class_char_not_space (c : char) :
  class_char c = true -> is_space c = false.
Proof. unfold class_char. now destruct (is_space c). Qed.

Lemma class_char_value_char (c : char) :
  class_char c = true -> value_char c = true.
Proof.
  unfold class_char, value_char.
  now destruct (is_space c), (is_quote c), (ceq c c_eq), (ceq c c_dollar).
Qed.

Lemma class_token_facts (t : str) :
  class_token t = true -> t <> [] /\ forallb class_char t = true.
Proof.
  unfold class_token. intros H. apply andb_true_iff in H as [Hn Hc].
  split; [|assumption]. now destruct t.
Qed.

Lemma class_token_no_space (t : str) :
  class_token t = true -> forallb (fun c => negb (is_space c)) t = true.
Proof.
  intros H. apply class_token_facts in H as [_ H].
  induction t as [|c t IH]; [reflexivity|]. simpl in *.
  apply andb_true_iff in H as [Hc H].
  now rewrite (class_char_not_space c Hc), IH.
Qed.

Lemma tokens_join (toks : list str) :
  forallb class_token toks = true -> tokens (join [c_sp] toks) = toks.
Proof.
  unfold tokens. induction toks as [|t toks IH]; [reflexivity|].
  intros H. simpl in H. apply andb_true_iff in H as [Ht H].
  pose proof (class_token_no_space t Ht) as Hs.
  destruct (class_token_facts t Ht) as [Hne _].
  assert (Hrev : rev t <> []).
  { intros E. apply (f_equal (@rev char)) in E. rewrite rev_involutive in E.
    now apply Hne. }
  destruct toks as [|t2 toks].
  - cbn [join]. rewrite <- (app_nil_r t) at 1.
    rewrite tokens_go_app by assumption. rewrite app_nil_r. cbn [tokens_go].
    destruct (rev t) eqn:E; [congruence|]. rewrite <- E.
    now rewrite rev_involutive.
  - change (join [c_sp] (t :: t2 :: toks))
      with (t ++ c_sp :: join [c_sp] (t2 :: toks)).
    rewrite tokens_go_app by assumption. rewrite app_nil_r. cbn [tokens_go].
    change (is_space c_sp) with true. cbn iota.
    destruct (rev t) eqn:E; [congruence|]. rewrite <- E.
    rewrite rev_involutive. f_equal. now apply IH.
Qed.

Lemma processClasses_join (toks : list str) (p : str) (skip : list str)
    (a : bool) :
  forallb class_token toks = true ->
  processClasses (join [c_sp] toks) p skip a
  = join [c_sp] (map (rewrite_token p skip a) toks).
Proof.
  intros H. rewrite processClasses_rewrite_spec. unfold rewrite_spec.
  now rewrite tokens_join.
Qed.

Lemma join_value_char (toks : list str) :
  forallb class_token toks = true ->
  forallb value_char (join [c_sp] toks) = true.
Proof.
  induction toks as [|t toks IH]; [reflexivity|].
  intros H. simpl in H. apply andb_true_iff in H as [Ht H].
  assert (Hv : forallb value_char t = true).
  { apply class_token_facts in Ht as [_ Ht]. apply forallb_forall.
    intros c Hc. apply class_char_value_char.
    rewrite forallb_forall in Ht. now apply Ht. }
  destruct toks as [|t2 toks]; [exact Hv|].
  change (join [c_sp] (t :: t2 :: toks))
    with (t ++ c_sp :: join [c_sp] (t2 :: toks)).
  rewrite forallb_app, Hv. cbn [forallb andb].
  change (value_char c_sp) with true. now rewrite IH.
Qed.

Lemma rewrite_token_class_token (p : str) (skip : list str) (t : str) :
  forallb class_char p = true -> class_token t = true ->
  class_token (rewrite_token p skip true t) = true.
Proof.
  intros Hp Ht. unfold rewrite_token.
  destruct (strip_prefix p t); [assumption|].
  destruct (in_dec (list_eq_dec N.eq_dec) t skip); [assumption|].
  destruct (class_token_facts t Ht) as [Hne Hc].
  unfold class_token. rewrite forallb_app, Hp, Hc.
  destruct t; [congruence|]. destruct p; reflexivity.
Qed.

Lemma strip_prefix_not_startsWith (p t : str) :
  startsWith t p = false -> strip_prefix p t = None.
Proof.
  intros H. destruct (strip_prefix p t) as [r|] eqn:E; [|reflexivity].
  assert (startsWith t p = true) by (apply startsWith_strip; eauto). congruence.
Qed.

Lemma strip_prefix_app (p t : str) : strip_prefix p (p ++ t) = Some t.
Proof. now apply strip_prefix_spec. Qed.

Lemma rewrite_token_add_twice (p : str) (skip : list str) (t : str) :
  rewrite_token p skip true (rewrite_token p skip true t)
  = rewrite_token p skip true t.
Proof.
  destruct (strip_prefix p t) as [r|] eqn:E.
  - assert (R : rewrite_token p skip true t = t)
      by (unfold rewrite_token; now rewrite E).
    now rewrite !R.
  - destruct (in_dec (list_eq_dec N.eq_dec) t skip) as [i|n].
    + now rewrite !(rewrite_token_skip_member p skip t i).
    + assert (R : rewrite_token p skip true t = p ++ t).
      { unfold rewrite_token. rewrite E.
        now destruct (in_dec (list_eq_dec N.eq_dec) t skip). }
      rewrite R. unfold rewrite_token. now rewrite strip_prefix_app.
Qed.

Lemma rewrite_token_remove_added (p : str) (skip skip' : list str) (t : str) :
  startsWith t p = false ->
  rewrite_token p skip' false (rewrite_token p skip true t) = t.
Proof.
  intros H. apply strip_prefix_not_startsWith in H.
  unfold rewrite_token. rewrite H.
  destruct (in_dec (list_eq_dec N.eq_dec) t skip).
  - now rewrite H.
  - now rewrite strip_prefix_app.
Qed.


(** The class lists of the buffers below: class names that do not start
    with the prefix, joined by single spaces. *)
Lemma added_tokens (p : str) (skip : list str) (toks : list str) :
  forallb class_char p = true -> forallb class_token toks = true ->
  forallb class_token (map (rewrite_token p skip true) toks) = true.
Proof.
  intros Hp. induction toks as [|t l IH]; [reflexivity|].
  intros H. cbn [forallb] in H. apply andb_true_iff in H as [Ht Hl].
  cbn [map forallb]. now rewrite rewrite_token_class_token, IH.
Qed.

Lemma add_added_list (p : str) (skip : list str) (toks : list str) :
  forallb class_char p = true -> forallb class_token toks = true ->
  processClasses (join [c_sp] (map (rewrite_token p skip true) toks))
    p skip true
  = join [c_sp] (map (rewrite_token p skip true) toks).
Proof.
  intros Hp Htoks.
  rewrite processClasses_join by now apply added_tokens.
  rewrite map_map. f_equal. apply map_ext.
  intros t. apply rewrite_token_add_twice.
Qed.



(** ** The Brace Matcher against the matching brace of the specification *)

Lemma skipn_nth_error_cons (A : Type) (l : list A) (n : nat) (x : A) :
  nth_error l n = Some x -> skipn n l = x :: skipn (S n) l.
Proof.
  revert n; induction l as [|y l IH]; intros [|n]; simpl; try discriminate.
  - now intros [= ->].
  - intros H. now rewrite (IH _ H).
Qed.

Lemma findMatchingBrace_loop_events (n : nat) :
  forall (s : str) (i : nat) (d : Z) (m : lex_mode),
    length s <= n -> (1 <= d)%Z ->
    findMatchingBrace_loop s i d (in_single m) (in_double m) (in_backtick m)
    = index_or_minus_one (depth_returns d (brace_events m i s)).
Proof.
  induction n as [|n IH]; intros s i d m Hn Hd.
  - destruct s; [reflexivity | simpl in Hn; lia].
  - destruct s as [|ch r]; [reflexivity|]. simpl in Hn.
    assert (Hr : length r <= n) by lia.
    replace (S i) with (i + 1) by lia.
    destruct m; cbn [findMatchingBrace_loop brace_events in_single in_double
                       in_backtick closer].
    + (* normal mode *)
      replace (S i) with (i + 1) by lia.
      destruct (ceq ch c_sq); [apply (IH r (i + 1) d InSingle); assumption|].
      destruct (ceq ch c_dq); [apply (IH r (i + 1) d InDouble); assumption|].
      destruct (ceq ch c_bt); [apply (IH r (i + 1) d InTemplate); assumption|].
      destruct (ceq ch c_lbrace).
      * cbn [depth_returns]. destruct (Z.eqb_spec (d + 1) 0); [lia|].
        apply (IH r (i + 1) (d + 1)%Z Normal); [assumption | lia].
      * destruct (ceq ch c_rbrace); [|apply (IH r (i + 1) d Normal); assumption].
        cbn [depth_returns]. replace (d + -1)%Z with (d - 1)%Z by lia.
        destruct (Z.eqb_spec (d - 1) 0); [reflexivity|].
        apply (IH r (i + 1) (d - 1)%Z Normal); [assumption | lia].
    + destruct (ceq ch c_bsl).
      * destruct r as [|c2 r']; [reflexivity|]. simpl in Hr.
        replace (S (S i)) with (i + 2) by lia.
        apply (IH r' (i + 2) d InSingle); [lia | assumption].
      * replace (S i) with (i + 1) by lia.
        destruct (ceq ch c_sq);
          [apply (IH r (i + 1) d Normal) | apply (IH r (i + 1) d InSingle)];
          assumption.
    + destruct (ceq ch c_bsl).
      * destruct r as [|c2 r']; [reflexivity|]. simpl in Hr.
        replace (S (S i)) with (i + 2) by lia.
        apply (IH r' (i + 2) d InDouble); [lia | assumption].
      * replace (S i) with (i + 1) by lia.
        destruct (ceq ch c_dq);
          [apply (IH r (i + 1) d Normal) | apply (IH r (i + 1) d InDouble)];
          assumption.
    + destruct (ceq ch c_bsl).
      * destruct r as [|c2 r']; [reflexivity|]. simpl in Hr.
        replace (S (S i)) with (i + 2) by lia.
        apply (IH r' (i + 2) d InTemplate); [lia | assumption].
      * replace (S i) with (i + 1) by lia.
        destruct (ceq ch c_bt);
          [apply (IH r (i + 1) d Normal) | apply (IH r (i + 1) d InTemplate)];
          assumption.
Qed.

(** Every brace the lexer keeps is a brace of the text, at or after the
    index the lexer started from, and an opening one exactly when it adds to
    the depth. *)
Lemma brace_events_sound (n : nat) :
  forall (s : str) (i : nat) (m : lex_mode) (k : nat) (d : Z),
    length s <= n ->
    In (k, d) (brace_events m i s) ->
    i <= k /\
    ((d = 1%Z /\ nth_error s (k - i) = Some c_lbrace) \/
     (d = (-1)%Z /\ nth_error s (k - i) = Some c_rbrace)).
Proof.
  induction n as [|n IH]; intros s i m k d Hn Hin.
  - destruct s; [contradiction | simpl in Hn; lia].
  - destruct s as [|ch r]; [contradiction|]. simpl in Hn.
    assert (Hr : length r <= n) by lia.
    assert (Step : forall m', In (k, d) (brace_events m' (S i) r) ->
              i <= k /\
              ((d = 1%Z /\ nth_error (ch :: r) (k - i) = Some c_lbrace) \/
               (d = (-1)%Z /\ nth_error (ch :: r) (k - i) = Some c_rbrace))).
    { intros m' H. destruct (IH r (S i) m' k d Hr H) as [Hle Hc].
      split; [lia|]. replace (k - i) with (S (k - S i)) by lia. exact Hc. }
    assert (Step2 : forall c2 r' m', r = c2 :: r' ->
              In (k, d) (brace_events m' (S (S i)) r') ->
              i <= k /\
              ((d = 1%Z /\ nth_error (ch :: r) (k - i) = Some c_lbrace) \/
               (d = (-1)%Z /\ nth_error (ch :: r) (k - i) = Some c_rbrace))).
    { intros c2 r' m' -> H. simpl in Hr.
      destruct (IH r' (S (S i)) m' k d ltac:(lia) H) as [Hle Hc].
      split; [lia|]. replace (k - i) with (S (S (k - S (S i)))) by lia. exact Hc. }
    destruct m; cbn [brace_events closer] in Hin.
    + destruct (ceq ch c_sq); [eauto|].
      destruct (ceq ch c_dq); [eauto|].
      destruct (ceq ch c_bt); [eauto|].
      destruct (ceq ch c_lbrace) eqn:El.
      * destruct Hin as [[= <- <-]|Hin]; [|eauto].
        apply ceq_eq in El; subst ch. split; [lia|]. left. split; [reflexivity|].
        now rewrite Nat.sub_diag.
      * destruct (ceq ch c_rbrace) eqn:Er; [|eauto].
        destruct Hin as [[= <- <-]|Hin]; [|eauto].
        apply ceq_eq in Er; subst ch. split; [lia|]. right. split; [reflexivity|].
        now rewrite Nat.sub_diag.
    + destruct (ceq ch c_bsl).
      * destruct r as [|c2 r']; [contradiction | eauto].
      * destruct (ceq ch c_sq); eauto.
    + destruct (ceq ch c_bsl).
      * destruct r as [|c2 r']; [contradiction | eauto].
      * destruct (ceq ch c_dq); eauto.
    + destruct (ceq ch c_bsl).
      * destruct r as [|c2 r']; [contradiction | eauto].
      * destruct (ceq ch c_bt); eauto.
Qed.

(** From a depth of at least 1 the depth is back at 0 only at a closing
    brace. *)
Lemma depth_returns_closing (s : str) (i : nat) (m : lex_mode) :
  forall (d : Z) (k : nat),
    (1 <= d)%Z ->
    depth_returns d (brace_events m i s) = Some k ->
    i <= k /\ nth_error s (k - i) = Some c_rbrace.
Proof.
  intros d k Hd H.
  assert (G : forall evs d,
             (forall j e, In (j, e) evs ->
                i <= j /\ ((e = 1%Z /\ nth_error s (j - i) = Some c_lbrace) \/
                           (e = (-1)%Z /\ nth_error s (j - i) = Some c_rbrace))) ->
             (1 <= d)%Z -> depth_returns d evs = Some k ->
             i <= k /\ nth_error s (k - i) = Some c_rbrace).
  { clear. induction evs as [|[j e] evs IH]; intros d Hs Hd; simpl; [discriminate|].
    destruct (Hs j e (or_introl eq_refl)) as [Hle [[-> Hc]|[-> Hc]]].
    - destruct (Z.eqb_spec (d + 1) 0); [lia|].
      apply IH; [intros; apply Hs; now right | lia].
    - destruct (Z.eqb_spec (d + -1) 0).
      + intros [= <-]. auto.
      + apply IH; [intros; apply Hs; now right | lia]. }
  apply (G (brace_events m i s) d); [|assumption|assumption].
  intros j e Hin. apply (brace_events_sound (length s)) with (m := m); auto.
Qed.

(** C6. For every text and every index of an opening brace in it,
    [findMatchingBrace] returns the index of the matching closing brace as
    the specification defines it (quote, double-quote and template spans
    skipped, a backslash inside a span taking the next character with it),
    and [-1] exactly when the text ends before the depth is back at 0; the
    index returned is beyond the opening brace and holds a closing brace. *)
Theorem findMatchingBrace_matchingClose (text : str) (openIndex : nat) :
  nth_error text openIndex = Some c_lbrace ->
  findMatchingBrace text openIndex
  = index_or_minus_one (matchingClose text openIndex)
  /\ (findMatchingBrace text openIndex = (-1)%Z
      <-> matchingClose text openIndex = None)
  /\ (forall k, matchingClose text openIndex = Some k ->
        openIndex < k /\ nth_error text k = Some c_rbrace).
Proof.
  intros Hopen.
  assert (E : findMatchingBrace text openIndex
              = index_or_minus_one (matchingClose text openIndex)).
  { unfold findMatchingBrace, matchingClose.
    rewrite (skipn_nth_error_cons _ _ _ _ Hopen).
    cbn [findMatchingBrace_loop brace_events depth_returns].
    change (ceq c_lbrace c_sq) with false. change (ceq c_lbrace c_dq) with false.
    change (ceq c_lbrace c_bt) with false. change (ceq c_lbrace c_lbrace) with true.
    cbn iota. change (0 + 1 =? 0)%Z with false. cbn iota.
    replace (openIndex + 1) with (S openIndex) by lia.
    apply (findMatchingBrace_loop_events (length (skipn (S openIndex) text))
             _ (S openIndex) 1%Z Normal); [reflexivity | lia]. }
  split; [exact E|]. split.
  - rewrite E. destruct (matchingClose text openIndex) as [k|]; simpl.
    + split; [lia | discriminate].
    + split; reflexivity.
  - intros k Hk. unfold matchingClose in Hk.
    rewrite (skipn_nth_error_cons _ _ _ _ Hopen) in Hk.
    cbn [brace_events depth_returns] in Hk.
    change (ceq c_lbrace c_sq) with false in Hk.
    change (ceq c_lbrace c_dq) with false in Hk.
    change (ceq c_lbrace c_bt) with false in Hk.
    change (ceq c_lbrace c_lbrace) with true in Hk.
    cbn iota in Hk. change (0 + 1 =? 0)%Z with false in Hk. cbn iota in Hk.
    apply depth_returns_closing in Hk as [Hle Hc]; [|lia].
    split; [lia|].
    rewrite nth_error_skipn in Hc.
    now replace (S openIndex + (k - S openIndex)) with k in Hc by lia.
Qed.

(** The hypothesis of C6 holds of an opening brace with its closing one. *)
Lemma findMatchingBrace_matchingClose_witness :
  findMatchingBrace (u "a={x{'}'}y}z") 2
  = index_or_minus_one (matchingClose (u "a={x{'}'}y}z") 2)
  /\ (findMatchingBrace (u "a={x{'}'}y}z") 2 = (-1)%Z
      <-> matchingClose (u "a={x{'}'}y}z") 2 = None)
  /\ (forall k, matchingClose (u "a={x{'}'}y}z") 2 = Some k ->
        2 < k /\ nth_error (u "a={x{'}'}y}z") k = Some c_rbrace).
Proof.
  apply (findMatchingBrace_matchingClose (u "a={x{'}'}y}z") 2). reflexivity.
Defined.

(** ** The Quoted-String Scanner *)

Lemma scan_quoted_split (q : char) (n : nat) :
  forall s content rest,
    length s <= n ->
    scan_quoted q s = Some (content, rest) -> s = content ++ q :: rest.
Proof.
  induction n as [|n IH]; intros s content rest Hn H.
  - destruct s; [discriminate | simpl in Hn; lia].
  - destruct s as [|c r]; [discriminate|]. simpl in Hn, H.
    destruct (ceq c c_bsl).
    + destruct r as [|c2 r']; [discriminate|]. simpl in Hn.
      destruct (scan_quoted q r') as [[c' r'']|] eqn:E; [|discriminate].
      injection H as <- <-. simpl. do 2 f_equal. apply IH; [lia | assumption].
    + destruct (ceq c q) eqn:Eq.
      * injection H as <- <-. apply ceq_eq in Eq. now subst.
      * destruct (scan_quoted q r) as [[c' r'']|] eqn:E; [|discriminate].
        injection H as <- <-. simpl. f_equal. apply IH; [lia | assumption].
Qed.

Lemma scan_quoted_rest_shorter (q : char) (s content rest : str) :
  scan_quoted q s = Some (content, rest) -> length rest < length s.
Proof.
  intros H. apply (scan_quoted_split q (length s)) in H; [|reflexivity].
  subst s. rewrite length_app. simpl. lia.
Qed.

Lemma scan_quoted_more (q : char) (n : nat) :
  forall s content rest tail,
    length s <= n ->
    scan_quoted q s = Some (content, rest) ->
    scan_quoted q (s ++ tail) = Some (content, rest ++ tail).
Proof.
  induction n as [|n IH]; intros s content rest tail Hn H.
  - destruct s; [discriminate | simpl in Hn; lia].
  - destruct s as [|c r]; [discriminate|]. simpl in Hn, H |- *.
    destruct (ceq c c_bsl).
    + destruct r as [|c2 r']; [discriminate|]. simpl in Hn |- *.
      destruct (scan_quoted q r') as [[c' r'']|] eqn:E; [|discriminate].
      injection H as <- <-. now rewrite (IH r' c' r'' tail ltac:(lia) E).
    + destruct (ceq c q); [now injection H as <- <-|].
      destruct (scan_quoted q r) as [[c' r'']|] eqn:E; [|discriminate].
      injection H as <- <-. now rewrite (IH r c' r'' tail ltac:(lia) E).
Qed.

Lemma template_span_more (n : nat) :
  forall s t rest tail,
    length s <= n ->
    template_span s = Some (t, rest) ->
    template_span (s ++ tail) = Some (t, rest ++ tail).
Proof.
  induction n as [|n IH]; intros s t rest tail Hn H.
  - destruct s; [discriminate | simpl in Hn; lia].
  - destruct s as [|c r]; [discriminate|]. simpl in Hn, H |- *.
    destruct (ceq c c_bsl).
    + destruct r as [|c2 r']; [discriminate|]. simpl in Hn |- *.
      destruct (template_span r') as [[c' r'']|] eqn:E; [|discriminate].
      injection H as <- <-. now rewrite (IH r' c' r'' tail ltac:(lia) E).
    + destruct (ceq c c_bt); [now injection H as <- <-|].
      destruct (template_span r) as [[c' r'']|] eqn:E; [|discriminate].
      injection H as <- <-. now rewrite (IH r c' r'' tail ltac:(lia) E).
Qed.

(** More turns than the text has characters change nothing. *)
Lemma rq_loop_fuel (f : str -> char -> str) (n : nat) :
  forall (fuel1 fuel2 : nat) (b : bool) (s : str),
    length s <= n -> length s <= fuel1 -> length s <= fuel2 ->
    rq_loop fuel1 f b s = rq_loop fuel2 f b s.
Proof.
  induction n as [|n IH]; intros fuel1 fuel2 b s Hn H1 H2.
  - destruct s; [|simpl in Hn; lia]. now destruct fuel1, fuel2.
  - destruct s as [|ch r]; [now destruct fuel1, fuel2|].
    simpl in Hn, H1, H2.
    destruct fuel1 as [|g1]; [lia|]. destruct fuel2 as [|g2]; [lia|].
    cbn [rq_loop].
    assert (R : forall b', rq_loop g1 f b' r = rq_loop g2 f b' r)
      by (intros; apply IH; lia).
    destruct b.
    + destruct (ceq ch c_bsl).
      * destruct r as [|c2 r']; [now rewrite R|]. simpl in Hn, H1, H2.
        do 2 f_equal. apply IH; lia.
      * destruct (ceq ch c_bt); now rewrite R.
    + destruct (ceq ch c_bt); [now rewrite R|].
      destruct (ceq ch c_dq || ceq ch c_sq); [|now rewrite R].
      destruct (scan_quoted ch r) as [[content rest]|] eqn:E; [|now rewrite R].
      apply scan_quoted_rest_shorter in E.
      do 3 f_equal. apply IH; lia.
Qed.

Lemma rq_fuel (f : str -> char -> str) (fuel : nat) (b : bool) (s : str) :
  length s <= fuel -> rq_loop fuel f b s = rq f b s.
Proof. intros H. apply (rq_loop_fuel f (length s)); auto. Qed.

(** The turns of the scanner, one equation for each state of the flag. *)
Lemma rq_nil (f : str -> char -> str) (b : bool) : rq f b [] = [].
Proof. reflexivity. Qed.

Lemma rq_template (f : str -> char -> str) (ch : char) (r : str) :
  rq f true (ch :: r)
  = if ceq ch c_bsl then
      match r with
      | c2 :: r' => ch :: c2 :: rq f true r'
      | [] => [ch]
      end
    else if ceq ch c_bt then ch :: rq f false r
    else ch :: rq f true r.
Proof.
  unfold rq at 1. cbn [length rq_loop].
  destruct (ceq ch c_bsl).
  - destruct r as [|c2 r']; [reflexivity|]. rewrite rq_fuel; [reflexivity | simpl; lia].
  - destruct (ceq ch c_bt); reflexivity.
Qed.

Lemma rq_normal (f : str -> char -> str) (ch : char) (r : str) :
  rq f false (ch :: r)
  = if ceq ch c_bt then ch :: rq f true r
    else if ceq ch c_dq || ceq ch c_sq then
      match scan_quoted ch r with
      | Some (content, rest) => ch :: f content ch ++ ch :: rq f false rest
      | None => ch :: rq f false r
      end
    else ch :: rq f false r.
Proof.
  unfold rq at 1. cbn [length rq_loop].
  destruct (ceq ch c_bt); [reflexivity|].
  destruct (ceq ch c_dq || ceq ch c_sq); [|reflexivity].
  destruct (scan_quoted ch r) as [[content rest]|] eqn:E; [|reflexivity].
  apply scan_quoted_rest_shorter in E.
  rewrite rq_fuel; [reflexivity | lia].
Qed.

(** A closed template span is copied as it is. *)
Lemma rq_template_span (f : str -> char -> str) (n : nat) :
  forall s t rest,
    length s <= n ->
    template_span s = Some (t, rest) ->
    rq f true s = t ++ c_bt :: rq f false rest.
Proof.
  induction n as [|n IH]; intros s t rest Hn H.
  - destruct s; [discriminate | simpl in Hn; lia].
  - destruct s as [|c r]; [discriminate|]. simpl in Hn, H.
    rewrite rq_template.
    destruct (ceq c c_bsl).
    + destruct r as [|c2 r']; [discriminate|]. simpl in Hn.
      destruct (template_span r') as [[t' r'']|] eqn:E; [|discriminate].
      injection H as <- <-. simpl. do 2 f_equal. apply IH; [lia | assumption].
    + destruct (ceq c c_bt) eqn:Eb.
      * injection H as <- <-. apply ceq_eq in Eb. now subst.
      * destruct (template_span r) as [[t' r'']|] eqn:E; [|discriminate].
        injection H as <- <-. simpl. f_equal. apply IH; [lia | assumption].
Qed.

(** A template span that is never closed is copied as it is, to the end. *)
Lemma rq_template_open (f : str -> char -> str) (n : nat) :
  forall s, length s <= n -> template_span s = None -> rq f true s = s.
Proof.
  induction n as [|n IH]; intros s Hn H.
  - destruct s; [reflexivity | simpl in Hn; lia].
  - destruct s as [|c r]; [reflexivity|]. simpl in Hn, H.
    rewrite rq_template.
    destruct (ceq c c_bsl).
    + destruct r as [|c2 r']; [reflexivity|]. simpl in Hn.
      destruct (template_span r') as [[t' r'']|] eqn:E; [discriminate|].
      do 2 f_equal. apply IH; [lia | assumption].
    + destruct (ceq c c_bt); [discriminate|].
      destruct (template_span r) as [[t' r'']|] eqn:E; [discriminate|].
      f_equal. apply IH; [lia | assumption].
Qed.

(** After a closed text the scanner goes on as from the start. *)
Lemma rq_closed_app (f : str -> char -> str) (pre s : str) :
  closed_text pre -> rq f false (pre ++ s) = rq f false pre ++ rq f false s.
Proof.
  induction 1 as [|c p Hb Hd Hs _ IH|q content p Hq Hscan _ IH|t p Hspan _ IH].
  - reflexivity.
  - cbn [app]. rewrite !rq_normal, Hb, Hd, Hs. cbn [orb app]. now rewrite IH.
  - cbn [app]. rewrite <- !app_assoc. cbn [app]. rewrite !rq_normal.
    assert (Eb : ceq q c_bt = false) by (destruct Hq; subst; reflexivity).
    assert (Eq : ceq q c_dq || ceq q c_sq = true) by (destruct Hq; subst; reflexivity).
    rewrite Eb, Eq.
    pose proof (scan_quoted_more q (length (content ++ [q])) _ _ _ (p ++ s)
                  (le_n _) Hscan) as E1.
    pose proof (scan_quoted_more q (length (content ++ [q])) _ _ _ p
                  (le_n _) Hscan) as E2.
    rewrite <- app_assoc in E1, E2. cbn [app] in E1, E2.
    rewrite E1, E2, IH. cbn [app]. rewrite <- app_assoc. reflexivity.
  - cbn [app]. rewrite <- !app_assoc. cbn [app]. rewrite !rq_normal.
    change (ceq c_bt c_bt) with true. cbn iota.
    pose proof (template_span_more (length (t ++ [c_bt])) _ _ _ (p ++ s)
                  (le_n _) Hspan) as E1.
    pose proof (template_span_more (length (t ++ [c_bt])) _ _ _ p
                  (le_n _) Hspan) as E2.
    rewrite <- app_assoc in E1, E2. cbn [app] in E1, E2.
    rewrite (rq_template_span f _ _ _ _ (le_n _) E1).
    rewrite (rq_template_span f _ _ _ _ (le_n _) E2).
    rewrite IH. cbn [app]. rewrite <- app_assoc. reflexivity.
Qed.







(** C5, as amended. In the scan of an expression value, a template span
    that opens after a text whose strings and spans are all closed is copied
    to the output as it is, from its opening backtick to its closing one,
    with every quote, quoted string and interpolation in it, whatever the
    replacer; the text before it and the text after it are scanned as if
    each stood alone. *)
Theorem template_span_copied (replacer : str -> char -> str)
    (before span after : str) :
  closed_text before ->
  template_span (span ++ [c_bt]) = Some (span, []) ->
  replaceQuotedStringsIgnoringTemplates
    (before ++ c_bt :: span ++ c_bt :: after) replacer
  = replaceQuotedStringsIgnoringTemplates before replacer
    ++ c_bt :: span ++ c_bt
    :: replaceQuotedStringsIgnoringTemplates after replacer.
Proof.
  intros Hc Hspan.
  change (rq replacer false (before ++ c_bt :: span ++ c_bt :: after)
          = rq replacer false before
            ++ c_bt :: span ++ c_bt :: rq replacer false after).
  rewrite rq_closed_app by assumption. f_equal.
  rewrite rq_normal. change (ceq c_bt c_bt) with true. cbn iota. f_equal.
  pose proof (template_span_more (length (span ++ [c_bt])) _ _ _ after
                (le_n _) Hspan) as E.
  rewrite <- app_assoc in E. cbn [app] in E.
  apply (rq_template_span replacer _ _ _ _ (le_n _) E).
Qed.

Lemma template_span_copied_witness :
  replaceQuotedStringsIgnoringTemplates
    (u "f('a', " ++ c_bt :: u "btn-${size} 'x'" ++ c_bt :: u ", 'b')")
    (fun content _ => processClasses content (u "app-") [] true)
  = replaceQuotedStringsIgnoringTemplates (u "f('a', ")
      (fun content _ => processClasses content (u "app-") [] true)
    ++ c_bt :: u "btn-${size} 'x'" ++ c_bt
    :: replaceQuotedStringsIgnoringTemplates (u ", 'b')")
         (fun content _ => processClasses content (u "app-") [] true).
Proof.
  apply (template_span_copied
           (fun content _ => processClasses content (u "app-") [] true)
           (u "f('a', ") (u "btn-${size} 'x'") (u ", 'b')")).
  - do 2 (apply closed_plain; [reflexivity | reflexivity | reflexivity |]).
    apply (closed_quoted c_sq (u "a") (u ", "));
      [right; reflexivity | reflexivity |].
    do 2 (apply closed_plain; [reflexivity | reflexivity | reflexivity |]).
    apply closed_nil.
  - reflexivity.
Defined.

(** ** The Rewrite Engine on whole buffers *)

(** *** The searches of [replace] come to an end *)

Lemma find_from_bounds (re : RegExp) (s : str) :
  forall i index e g,
    find_from re s i = Some (index, e, g) -> i <= index /\ index <= e.
Proof.
  induction s as [|c r IH]; intros i index e g; simpl.
  - destruct (match_here re []) as [[g' rest]|]; [|discriminate].
    intros [= <- <- <-]. lia.
  - destruct (match_here re (c :: r)) as [[g' rest]|].
    + intros [= <- <- <-]. lia.
    + intros H. apply IH in H. lia.
Qed.

Lemma exec_bounds (host : RegExpHost) (re : RegExp) (text : str)
    (lastIndex index e : nat) (g : option str) :
  exec host re text lastIndex = Some (index, e, g) ->
  lastIndex <= length text /\ lastIndex <= index /\ index <= e.
Proof.
  unfold exec. destruct (Nat.ltb_spec (length text) lastIndex) as [|Hl]; [discriminate|].
  intros H. split; [assumption|].
  destruct re; try (apply find_from_bounds in H; assumption).
  destruct (host_find host source text lastIndex) as [[[d l] g']|]; [|discriminate].
  injection H as <- <- <-. lia.
Qed.

Lemma replace_loop_ends (host : RegExpHost) (re : RegExp)
    (replacer : str -> option str -> outcome) (text : str) :
  (forall m g, replacer m g <> Unfinished) ->
  forall fuel lastIndex next,
    1 <= fuel -> length text + 2 <= fuel + lastIndex ->
    replace_loop fuel host re replacer text lastIndex next <> Unfinished.
Proof.
  intros Hrep.
  induction fuel as [|fuel IH]; intros lastIndex next H1 H2; [lia|].
  cbn [replace_loop].
  destruct (exec host re text lastIndex) as [[[index e] g]|] eqn:E; [|discriminate].
  apply exec_bounds in E as (Hl & Hi & He).
  specialize (Hrep (slice text index e) g).
  destruct (replacer (slice text index e) g); [|discriminate|contradiction].
  assert (Hn : replace_loop fuel host re replacer text
                 (if (e =? index)%nat then e + 1 else e) e <> Unfinished).
  { apply IH; [lia|]. destruct (Nat.eqb_spec e index); lia. }
  destruct (replace_loop fuel host re replacer text
              (if (e =? index)%nat then e + 1 else e) e);
    [discriminate | discriminate | contradiction].
Qed.

Lemma String_replace_ends (host : RegExpHost) (text : str) (re : RegExp)
    (replacer : str -> option str -> outcome) :
  (forall m g, replacer m g <> Unfinished) ->
  String_replace host text re replacer <> Unfinished.
Proof. intros Hrep. apply replace_loop_ends; [assumption | lia | lia]. Qed.

Lemma direct_replacer_ends (p : str) (skip : list str) (a : bool)
    (m : str) (g : option str) :
  direct_replacer p skip a m g <> Unfinished.
Proof. destruct g; discriminate. Qed.

Lemma direct_pass_ends (host : RegExpHost) (patterns : list RegExp)
    (replacer : str -> option str -> outcome) :
  (forall m g, replacer m g <> Unfinished) ->
  forall (start : outcome),
    start <> Unfinished ->
    fold_left
      (fun (acc : outcome) (pattern : RegExp) =>
         match acc with
         | Ok result => String_replace host result pattern replacer
         | o => o
         end)
      patterns start <> Unfinished.
Proof.
  intros Hrep.
  induction patterns as [|p ps IH]; intros start Hs; simpl; [assumption|].
  apply IH. destruct start;
    [now apply String_replace_ends | discriminate | assumption].
Qed.

(** *** An invalid fragment *)

Lemma buildPatterns_warns (host : RegExpHost) (patterns : list str) :
  forall (acc : list RegExp * list str) (p : str),
    In p patterns -> host_compiles host (direct_source p) = false ->
    In p (snd (fold_left
                 (fun (acc : list RegExp * list str) (pattern : str) =>
                    if host_compiles host (direct_source pattern)
                    then (fst acc ++ [ReHost (direct_source pattern)], snd acc)
                    else (fst acc, snd acc ++ [pattern]))
                 patterns acc)).
Proof.
  assert (Keep : forall l (acc : list RegExp * list str) (p : str),
             In p (snd acc) ->
             In p (snd (fold_left
                 (fun (acc : list RegExp * list str) (pattern : str) =>
                    if host_compiles host (direct_source pattern)
                    then (fst acc ++ [ReHost (direct_source pattern)], snd acc)
                    else (fst acc, snd acc ++ [pattern]))
                 l acc))).
  { induction l as [|x l IH]; intros acc p Hin; simpl; [assumption|].
    apply IH. destruct (host_compiles host (direct_source x)); simpl;
      [assumption | apply in_or_app; now left]. }
  induction patterns as [|x l IH]; intros acc p Hin Hc; [contradiction|].
  simpl. destruct Hin as [->|Hin]; [|now apply IH].
  rewrite Hc. apply Keep. simpl. apply in_or_app. right. now left.
Qed.

(** C9, on the code. With [useRegex], a fragment that the constructor
    refuses is dropped from the direct-value pass with a warning, as the
    claim says; but the expression pass compiles all the fragments into one
    alternation with no guard, so when the constructor refuses that one the
    run throws, for adding and for removing, whatever the buffer. *)
Theorem invalid_fragment_aborts (host : RegExpHost)
    (config : ClassPrefixerConfig) (text : str) :
  useRegex config = true ->
  host_compiles host (expression_source config) = false ->
  (forall p, In p (customRegexPatterns config) ->
     host_compiles host (direct_source p) = false ->
     In p (snd (buildPatterns host config)))
  /\ (exists e, addPrefixToClasses host text config = Throw e)
  /\ (exists e, removePrefixFromClasses host text config = Throw e).
Proof.
  intros Hre Hbad.
  assert (Hx : forall r add,
             processExpressionAttributeLiterals host r config add
             = Throw SyntaxError).
  { intros r add. unfold processExpressionAttributeLiterals.
    unfold expression_source in Hbad.
    unfold buildAttrNameAlternation in *. rewrite Hre in *.
    cbn [startRe]. now rewrite Hbad. }
  split.
  { intros p Hin Hc. unfold buildPatterns. rewrite Hre.
    now apply buildPatterns_warns. }
  split.
  - unfold addPrefixToClasses.
    pose proof (direct_pass_ends host (fst (buildPatterns host config))
                  (direct_replacer (prefix config) (skipClasses config) true)
                  (direct_replacer_ends _ _ _)
                  (Ok text) ltac:(discriminate)) as Hd.
    unfold direct_pass.
    destruct (fold_left _ _ _) as [r|e|]; [|eauto|contradiction].
    rewrite Hx. eauto.
  - unfold removePrefixFromClasses.
    pose proof (direct_pass_ends host (fst (buildPatterns host config))
                  (direct_replacer (prefix config) [] false)
                  (direct_replacer_ends _ _ _)
                  (Ok text) ltac:(discriminate)) as Hd.
    unfold direct_pass.
    destruct (fold_left _ _ _) as [r|e|]; [|eauto|contradiction].
    rewrite Hx. eauto.
Qed.

Lemma invalid_fragment_aborts_witness :
  (forall p, In p (customRegexPatterns bad_regex_config) ->
     host_compiles strict_host (direct_source p) = false ->
     In p (snd (buildPatterns strict_host bad_regex_config)))
  /\ (exists e, addPrefixToClasses strict_host
                  (u "<div className='a b'></div>") bad_regex_config = Throw e)
  /\ (exists e, removePrefixFromClasses strict_host
                  (u "<div className='a b'></div>") bad_regex_config = Throw e).
Proof.
  apply (invalid_fragment_aborts strict_host bad_regex_config
           (u "<div className='a b'></div>")); reflexivity.
Defined.

(** *** Empty values *)



(** *** The claims that whole buffers refute *)


(** C2, on the code: the class list [className] is first found in the name
    of its own attribute, which gets the prefix, again at every run. *)
Theorem add_twice_differs :
  addPrefixToClasses strict_host (u "<div className='className'></div>") test_config
  = Ok (u "<div app-className='className'></div>")
  /\ addPrefixToClasses strict_host
       (u "<div app-className='className'></div>") test_config
     = Ok (u "<div app-app-className='className'></div>")
  /\ u "<div app-app-className='className'></div>"
     <> u "<div app-className='className'></div>".
Proof. repeat split; vm_compute; first [reflexivity | discriminate]. Qed.

(** C4, on the code: the function of the direct-value pass puts the new
    class list in place of the first occurrence of the old one in the match.
    The class list [a] is first found inside the attribute name, so the name
    is rewritten and the value is not; and a value of one space is first
    found before the equals sign, so that space is removed (here when
    removing) and the value is kept. *)
Theorem attribute_name_rewritten :
  addPrefixToClasses strict_host (u "<div className='a'></div>") test_config
  = Ok (u "<div clapp-assName='a'></div>")
  /\ removePrefixFromClasses strict_host
       (u "<div className = ' '></div>") test_config
     = Ok (u "<div className= ' '></div>").
Proof. split; vm_compute; reflexivity. Qed.

(** C5, as stated, fails: the direct-value pass is a plain replacement over
    the whole buffer, and rewrites a direct value that stands inside a
    template span of an expression value. *)
Lemma template_span_counterexample :
  addPrefixToClasses strict_host
    (u "<div className={" ++ c_bt :: u "className='x'" ++ c_bt :: u "}></div>")
    test_config
  = Ok (u "<div className={" ++ c_bt :: u "className='app-x'" ++ c_bt
          :: u "}></div>")
  /\ u "className='app-x'" <> u "className='x'".
Proof. split; vm_compute; first [reflexivity | discriminate]. Qed.


(** ** The matchers against what the name expressions match *)

Lemma star_name_sound (s : str) (k : str -> found) (x : option str * str) :
  star_name s k = Some x ->
  exists w r, s = w ++ r /\ forallb is_name_char w = true /\ k r = Some x.
Proof.
  induction s as [|c s IH]; simpl.
  - intros H. exists [], []. auto.
  - destruct (is_name_char c) eqn:Ec.
    + destruct (star_name s k) as [y|] eqn:E.
      * intros [= ->]. destruct (IH eq_refl) as (w & r & -> & Hw & Hk).
        exists (c :: w), r. simpl. rewrite Ec, Hw. auto.
      * intros H. exists [], (c :: s). auto.
    + intros H. exists [], (c :: s). auto.
Qed.

Lemma star_name_complete (w r : str) (k : str -> found) :
  forallb is_name_char w = true ->
  (exists x, k r = Some x) ->
  exists x, star_name (w ++ r) k = Some x.
Proof.
  induction w as [|c w IH]; simpl.
  - intros _ [x Hx]. destruct r as [|c r]; simpl; [eauto|].
    destruct (is_name_char c); [|eauto].
    destruct (star_name r k); eauto.
  - intros Hw Hk. apply andb_true_iff in Hw as [Hc Hw]. rewrite Hc.
    destruct (IH Hw Hk) as [x ->]. eauto.
Qed.

Lemma match_segs_sound (segs : list str) :
  forall (s : str) (k : str -> found) (x : option str * str),
    match_segs segs s k = Some x ->
    exists n r, s = n ++ r /\ name_lang segs n /\ k r = Some x.
Proof.
  induction segs as [|seg segs IH]; intros s k x; simpl.
  - intros H. exists [], s. auto.
  - destruct (strip_prefix seg s) as [r|] eqn:E; [|discriminate].
    apply strip_prefix_spec in E. subst s.
    destruct segs as [|seg2 segs].
    + intros H. exists seg, r. auto.
    + intros H. apply star_name_sound in H as (w & r1 & -> & Hw & Hk).
      apply IH in Hk as (n' & r2 & -> & Hn & Hk).
      exists (seg ++ w ++ n'), r2. rewrite <- !app_assoc.
      split; [reflexivity|]. split; [|assumption].
      exists w, n'. auto.
Qed.

Lemma match_segs_complete (segs : list str) :
  forall (n r : str) (k : str -> found),
    name_lang segs n ->
    (exists x, k r = Some x) ->
    exists x, match_segs segs (n ++ r) k = Some x.
Proof.
  induction segs as [|seg segs IH]; intros n r k; simpl.
  - intros -> Hk. exact Hk.
  - destruct segs as [|seg2 segs].
    + intros -> Hk.
      assert (E : strip_prefix seg (seg ++ r) = Some r)
        by now apply strip_prefix_spec.
      now rewrite E.
    + intros (w & n' & -> & Hw & Hn) Hk.
      rewrite <- app_assoc.
      assert (E : strip_prefix seg (seg ++ (w ++ n') ++ r) = Some ((w ++ n') ++ r))
        by now apply strip_prefix_spec.
      rewrite E. rewrite <- app_assoc.
      apply star_name_complete; [assumption|].
      now apply IH.
Qed.

Lemma match_alts_sound (alts : list (list str)) :
  forall (s : str) (k : str -> found) (x : option str * str),
    match_alts alts s k = Some x ->
    exists n r, s = n ++ r /\ k r = Some x.
Proof.
  induction alts as [|a alts IH]; intros s k x; simpl; [discriminate|].
  destruct (match_segs a s k) as [y|] eqn:E.
  - intros [= ->]. apply match_segs_sound in E as (n & r & -> & _ & Hk). eauto.
  - apply IH.
Qed.


(** ** Texts without an equals sign, and the text around the only one *)

Lemma no_equals_app (a b : str) :
  no_equals (a ++ b) = no_equals a && no_equals b.
Proof. apply forallb_app. Qed.

Lemma drop_spaces_no_equals (s : str) :
  no_equals s = true -> no_equals (drop_spaces s) = true.
Proof.
  induction s as [|c s IH]; simpl; [reflexivity|].
  intros H. destruct (is_space c); [|exact H].
  apply andb_true_iff in H as [_ H]. now apply IH.
Qed.

Lemma direct_tail_no_equals (s : str) :
  no_equals s = true -> direct_tail s = None.
Proof.
  intros H. apply drop_spaces_no_equals in H. unfold direct_tail.
  destruct (drop_spaces s) as [|c r]; [reflexivity|].
  simpl in H. apply andb_true_iff in H as [H _].
  now destruct (ceq c c_eq).
Qed.

Lemma open_tail_no_equals (s : str) :
  no_equals s = true -> open_tail s = None.
Proof.
  intros H. apply drop_spaces_no_equals in H. unfold open_tail.
  destruct (drop_spaces s) as [|c r]; [reflexivity|].
  simpl in H. apply andb_true_iff in H as [H _].
  now destruct (ceq c c_eq).
Qed.

Lemma is_quote_not_space (q : char) : is_quote q = true -> is_space q = false.
Proof.
  unfold is_quote. intros H.
  apply orb_true_iff in H as [H|H]; [apply orb_true_iff in H as [H|H]|];
    apply ceq_eq in H; subst q; reflexivity.
Qed.

Lemma is_quote_not_brace (q : char) : is_quote q = true -> ceq q c_lbrace = false.
Proof.
  unfold is_quote. intros H.
  apply orb_true_iff in H as [H|H]; [apply orb_true_iff in H as [H|H]|];
    apply ceq_eq in H; subst q; reflexivity.
Qed.

Lemma drop_spaces_all (ws r : str) :
  forallb is_space ws = true -> drop_spaces (ws ++ r) = drop_spaces r.
Proof.
  induction ws as [|c ws IH]; simpl; [reflexivity|].
  intros H. apply andb_true_iff in H as [Hc H]. rewrite Hc. now apply IH.
Qed.

Lemma drop_spaces_stops (ws r : str) :
  no_equals ws = true -> forallb is_space ws = false ->
  exists c r', drop_spaces (ws ++ r) = c :: r' /\ ceq c c_eq = false.
Proof.
  induction ws as [|c ws IH]; simpl; [discriminate|].
  intros H1 H2. apply andb_true_iff in H1 as [Hc H1].
  destruct (is_space c); [now apply IH|].
  exists c, (ws ++ r). split; [reflexivity|]. now destruct (ceq c c_eq).
Qed.

Lemma take_value_value (v : str) (q2 : char) (rest : str) :
  forallb value_char v = true -> is_quote q2 = true ->
  take_value (v ++ q2 :: rest) = Some (v, rest).
Proof.
  intros Hv Hq. induction v as [|c v IH]; simpl; [now rewrite Hq|].
  simpl in Hv. apply andb_true_iff in Hv as [Hc Hv].
  unfold value_char in Hc.
  destruct (is_quote c); [discriminate|]. now rewrite IH.
Qed.

(** After a part [a] of the text before the only equals sign, the direct
    value is found exactly when [a] is white space, and it is the value. *)
Lemma direct_tail_attribute (a : str) (q : char) (v : str) (q2 : char)
    (after : str) :
  no_equals a = true -> is_quote q = true -> is_quote q2 = true ->
  forallb value_char v = true ->
  direct_tail (attribute_buffer a q v q2 after)
  = if forallb is_space a then Some (Some v, after) else None.
Proof.
  intros Ha Hq Hq2 Hv. unfold attribute_buffer, direct_tail.
  destruct (forallb is_space a) eqn:Ea.
  - rewrite drop_spaces_all by assumption. cbn [drop_spaces].
    change (is_space c_eq) with false. cbn iota. rewrite ceq_refl.
    cbn [drop_spaces]. rewrite (is_quote_not_space _ Hq), Hq.
    now rewrite take_value_value.
  - destruct (drop_spaces_stops a (c_eq :: q :: v ++ q2 :: after) Ha Ea)
      as (c & r' & -> & Hc).
    now rewrite Hc.
Qed.

Lemma open_tail_attribute (a : str) (q : char) (v : str) (q2 : char)
    (after : str) :
  no_equals a = true -> is_quote q = true ->
  open_tail (attribute_buffer a q v q2 after) = None.
Proof.
  intros Ha Hq. unfold attribute_buffer, open_tail.
  destruct (forallb is_space a) eqn:Ea.
  - rewrite drop_spaces_all by assumption. cbn [drop_spaces].
    change (is_space c_eq) with false. cbn iota. rewrite ceq_refl.
    cbn [drop_spaces]. rewrite (is_quote_not_space _ Hq).
    now rewrite (is_quote_not_brace _ Hq).
  - destruct (drop_spaces_stops a (c_eq :: q :: v ++ q2 :: after) Ha Ea)
      as (c & r' & -> & Hc).
    now rewrite Hc.
Qed.

Lemma hits_here_iff (segs : list str) (a : str) :
  hits_here segs a = true
  <-> exists n a3, a = n ++ a3 /\ name_lang segs n /\ forallb is_space a3 = true.
Proof.
  unfold hits_here. split.
  - destruct (match_segs segs a _) as [x|] eqn:E; [|discriminate].
    intros _. apply match_segs_sound in E as (n & r & -> & Hn & Hk).
    exists n, r. split; [reflexivity|]. split; [assumption|].
    now destruct (forallb is_space r).
  - intros (n & a3 & -> & Hn & Hs).
    destruct (match_segs_complete segs n a3
                (fun r => if forallb is_space r then Some (None, []) else None)
                Hn) as [x ->]; [|reflexivity].
    rewrite Hs. eauto.
Qed.

Lemma first_hit_le (segs : list str) (a : str) (j : nat) :
  first_hit segs a = Some j -> j <= length a.
Proof.
  revert j; induction a as [|c a IH]; intros j; simpl.
  - destruct (hits_here segs []); [intros [= <-]; lia | discriminate].
  - destruct (hits_here segs (c :: a)); [intros [= <-]; lia|].
    destruct (first_hit segs a) as [j'|]; [|discriminate].
    intros [= <-]. specialize (IH j' eq_refl). lia.
Qed.

Section SingleAttribute.

Variables (q q2 : char) (after : str).
Hypothesis Hq : is_quote q = true.
Hypothesis Hq2 : is_quote q2 = true.
Hypothesis Hafter : no_equals after = true.

Lemma is_quote_not_equals (c : char) : is_quote c = true -> ceq c c_eq = false.
Proof.
  unfold is_quote. intros H.
  apply orb_true_iff in H as [H|H]; [apply orb_true_iff in H as [H|H]|];
    apply ceq_eq in H; subst c; reflexivity.
Qed.

Lemma value_no_equals (v : str) :
  forallb value_char v = true -> no_equals v = true.
Proof.
  induction v as [|c v IH]; simpl; [reflexivity|].
  intros H. apply andb_true_iff in H as [Hc H]. rewrite IH by assumption.
  unfold value_char in Hc. now destruct (ceq c c_eq); destruct (is_quote c).
Qed.

(** The text from the opening quote on has no equals sign. *)
Lemma value_part_no_equals (v : str) :
  forallb value_char v = true -> no_equals (q :: v ++ q2 :: after) = true.
Proof.
  intros Hv. cbn [no_equals forallb]. fold (no_equals (v ++ q2 :: after)).
  rewrite no_equals_app, (value_no_equals v Hv).
  cbn [no_equals forallb]. fold (no_equals after).
  now rewrite (is_quote_not_equals _ Hq), (is_quote_not_equals _ Hq2), Hafter.
Qed.

Lemma no_equals_suffix (r1 r : str) :
  no_equals (r1 ++ r) = true -> no_equals r = true.
Proof. rewrite no_equals_app. intros H. now apply andb_true_iff in H. Qed.

(** A match of a direct-value expression in the text from a point before
    the equals sign: it is there exactly when the name is found before
    the equals sign, and then its group is the value. *)
Lemma match_segs_attribute (segs : list str) (a v : str) :
  no_equals a = true -> forallb value_char v = true ->
  match_segs segs (attribute_buffer a q v q2 after) direct_tail
  = if hits_here segs a then Some (Some v, after) else None.
Proof.
  intros Ha Hv.
  pose proof (value_part_no_equals v Hv) as HR.
  assert (Sound : forall x,
             match_segs segs (attribute_buffer a q v q2 after) direct_tail
             = Some x ->
             x = (Some v, after) /\ hits_here segs a = true).
  { intros x H. apply match_segs_sound in H as (n & r & E & Hn & Hk).
    unfold attribute_buffer in E. apply app_eq_app in E as [l [[E1 E2]|[E1 E2]]].
    - subst a r. rewrite no_equals_app in Ha. apply andb_true_iff in Ha as [_ Hl].
      change (l ++ c_eq :: q :: v ++ q2 :: after)
        with (attribute_buffer l q v q2 after) in Hk.
      rewrite direct_tail_attribute in Hk by assumption.
      destruct (forallb is_space l) eqn:El; [|discriminate].
      injection Hk as <-. split; [reflexivity|].
      apply hits_here_iff. exists n, l. auto.
    - destruct l as [|c l].
      + simpl in E2. subst r. rewrite app_nil_r in E1. subst n.
        change (c_eq :: q :: v ++ q2 :: after)
          with (attribute_buffer [] q v q2 after) in Hk.
        rewrite direct_tail_attribute in Hk by (assumption || reflexivity).
        simpl in Hk. injection Hk as <-. split; [reflexivity|].
        apply hits_here_iff. exists a, []. rewrite app_nil_r. auto.
      + injection E2 as _ E2. rewrite E2 in HR.
        apply no_equals_suffix in HR.
        rewrite (direct_tail_no_equals r HR) in Hk. discriminate. }
  destruct (hits_here segs a) eqn:Eh.
  - apply hits_here_iff in Eh as (n & a3 & -> & Hn & Hs).
    rewrite no_equals_app in Ha. apply andb_true_iff in Ha as [_ Ha3].
    destruct (match_segs_complete segs n (attribute_buffer a3 q v q2 after)
                direct_tail Hn) as [x Hx].
    { rewrite direct_tail_attribute by assumption. rewrite Hs. eauto. }
    unfold attribute_buffer in *. rewrite <- app_assoc.
    rewrite Hx. f_equal.
    apply (Sound x). now rewrite <- app_assoc.
  - destruct (match_segs segs (attribute_buffer a q v q2 after) direct_tail)
      as [x|] eqn:E; [|reflexivity].
    destruct (Sound x eq_refl) as [_ H]. discriminate.
Qed.

Lemma match_here_segs (re : RegExp) (segs : list str) (s : str) :
  segs_of re = Some segs -> match_here re s = match_segs segs s direct_tail.
Proof. destruct re; simpl; intros [= <-]; reflexivity. Qed.

Lemma find_from_no_equals (re : RegExp) (segs : list str) (s : str) :
  segs_of re = Some segs -> no_equals s = true ->
  forall i, find_from re s i = None.
Proof.
  intros Hre. induction s as [|c s IH]; intros Hs i.
  - simpl. rewrite (match_here_segs re segs [] Hre).
    destruct (match_segs segs [] direct_tail) as [x|] eqn:E; [|reflexivity].
    apply match_segs_sound in E as (n & r & E & _ & Hk).
    symmetry in E. apply app_eq_nil in E as [_ ->]. discriminate.
  - cbn [find_from]. rewrite (match_here_segs re segs (c :: s) Hre).
    destruct (match_segs segs (c :: s) direct_tail) as [x|] eqn:E.
    + apply match_segs_sound in E as (n & r & E & _ & Hk).
      rewrite E in Hs. apply no_equals_suffix in Hs.
      rewrite (direct_tail_no_equals r Hs) in Hk. discriminate.
    + apply IH. simpl in Hs. now apply andb_true_iff in Hs.
Qed.

Lemma find_from_attribute (re : RegExp) (segs : list str) (v : str) :
  segs_of re = Some segs -> forallb value_char v = true ->
  forall a i,
    no_equals a = true ->
    find_from re (attribute_buffer a q v q2 after) i
    = match first_hit segs a with
      | Some j => Some (i + j, i + length a + 3 + length v, Some v)
      | None => None
      end.
Proof.
  intros Hre Hv. induction a as [|c a IH]; intros i Ha.
  - cbn [first_hit]. unfold attribute_buffer at 1. cbn [app find_from].
    change (c_eq :: q :: v ++ q2 :: after)
      with (attribute_buffer [] q v q2 after).
    rewrite (match_here_segs re segs _ Hre).
    rewrite match_segs_attribute by (assumption || reflexivity).
    destruct (hits_here segs []).
    + unfold attribute_buffer. cbn [app length].
      rewrite length_app. cbn [length]. do 3 f_equal; lia.
    + exact (find_from_no_equals re segs (q :: v ++ q2 :: after) Hre
               (value_part_no_equals v Hv) (S i)).
  - cbn [first_hit].
    change (attribute_buffer (c :: a) q v q2 after)
      with (c :: attribute_buffer a q v q2 after).
    cbn [find_from].
    change (c :: attribute_buffer a q v q2 after)
      with (attribute_buffer (c :: a) q v q2 after).
    rewrite (match_here_segs re segs _ Hre).
    rewrite match_segs_attribute by assumption.
    destruct (hits_here segs (c :: a)).
    + unfold attribute_buffer. cbn [app length].
      rewrite !length_app. cbn [length]. rewrite length_app. cbn [length].
      do 3 f_equal; lia.
    + simpl in Ha. apply andb_true_iff in Ha as [_ Ha].
      rewrite (IH (S i) Ha).
      destruct (first_hit segs a) as [j|]; [|reflexivity].
      cbn [length]. do 3 f_equal; lia.
Qed.


Lemma exec_direct (host : RegExpHost) (re : RegExp) (segs : list str)
    (text : str) (lastIndex : nat) :
  segs_of re = Some segs ->
  exec host re text lastIndex
  = if (length text <? lastIndex)%nat then None
    else find_from re (skipn lastIndex text) lastIndex.
Proof. destruct re; simpl; intros [= <-]; reflexivity. Qed.

Lemma attribute_buffer_split (a v : str) (j : nat) :
  j <= length a ->
  skipn j (attribute_buffer a q v q2 after)
  = (skipn j a ++ c_eq :: q :: v ++ [q2]) ++ after.
Proof.
  intros Hj. unfold attribute_buffer.
  rewrite skipn_app. replace (j - length a) with 0 by lia.
  cbn [skipn]. rewrite <- !app_assoc. cbn [app]. rewrite <- app_assoc.
  reflexivity.
Qed.

Lemma attribute_buffer_length (a v : str) :
  length (attribute_buffer a q v q2 after)
  = length a + 3 + length v + length after.
Proof.
  unfold attribute_buffer. rewrite length_app. cbn [length].
  rewrite length_app. cbn [length]. lia.
Qed.

Lemma slice_match (a v : str) (j : nat) :
  j <= length a ->
  slice (attribute_buffer a q v q2 after) j (length a + 3 + length v)
  = skipn j a ++ c_eq :: q :: v ++ [q2].
Proof.
  intros Hj. unfold slice. rewrite attribute_buffer_split by assumption.
  rewrite firstn_app.
  replace (length a + 3 + length v - j)
    with (length (skipn j a ++ c_eq :: q :: v ++ [q2])).
  - rewrite firstn_all, Nat.sub_diag. cbn [firstn]. apply app_nil_r.
  - rewrite length_app, length_skipn. cbn [length]. rewrite length_app.
    cbn [length]. lia.
Qed.

Lemma skipn_after (a v : str) :
  skipn (length a + 3 + length v) (attribute_buffer a q v q2 after) = after.
Proof.
  unfold attribute_buffer.
  replace (a ++ c_eq :: q :: v ++ q2 :: after)
    with ((a ++ c_eq :: q :: v ++ [q2]) ++ after)
    by (rewrite <- !app_assoc; cbn [app]; rewrite <- app_assoc; reflexivity).
  rewrite skipn_app.
  replace (length a + 3 + length v)
    with (length (a ++ c_eq :: q :: v ++ [q2]))
    by (rewrite length_app; cbn [length]; rewrite length_app; cbn [length]; lia).
  now rewrite skipn_all, Nat.sub_diag.
Qed.

(** [replace] on a buffer with a single attribute: the one match, if the
    name is found, is handed to the function, and the rest is kept. *)
Lemma String_replace_attribute (host : RegExpHost) (re : RegExp)
    (segs : list str) (replacer : str -> option str -> outcome)
    (a v : str) :
  segs_of re = Some segs ->
  no_equals a = true -> forallb value_char v = true ->
  String_replace host (attribute_buffer a q v q2 after) re replacer
  = match first_hit segs a with
    | None => Ok (attribute_buffer a q v q2 after)
    | Some j =>
        match replacer (skipn j a ++ c_eq :: q :: v ++ [q2]) (Some v) with
        | Ok replacement => Ok (firstn j a ++ replacement ++ after)
        | o => o
        end
    end.
Proof.
  intros Hre Ha Hv. unfold String_replace.
  replace (length (attribute_buffer a q v q2 after) + 2)
    with (S (S (length (attribute_buffer a q v q2 after)))) by lia.
  cbn [replace_loop]. rewrite (exec_direct host re segs _ _ Hre).
  cbn [Nat.ltb Nat.leb skipn].
  rewrite (find_from_attribute re segs v Hre Hv a 0 Ha).
  destruct (first_hit segs a) as [j|] eqn:Ej; [|reflexivity].
  pose proof (first_hit_le segs a j Ej) as Hj.
  cbn [Nat.add]. rewrite (slice_match a v j Hj).
  destruct (replacer (skipn j a ++ c_eq :: q :: v ++ [q2]) (Some v))
    as [replacement|e|]; [|reflexivity|reflexivity].
  destruct (Nat.eqb_spec (length a + 3 + length v) j) as [E|_]; [lia|].
  rewrite (exec_direct host re segs _ _ Hre).
  destruct (Nat.ltb_spec (length (attribute_buffer a q v q2 after))
              (length a + 3 + length v)) as [Hlt|_].
  { rewrite attribute_buffer_length in Hlt. lia. }
  rewrite skipn_after.
  rewrite (find_from_no_equals re segs after Hre Hafter).
  do 2 f_equal. unfold slice. cbn [skipn]. rewrite Nat.sub_0_r.
  unfold attribute_buffer. rewrite firstn_app.
  replace (j - length a) with 0 by lia. cbn [firstn]. apply app_nil_r.
Qed.

(** *** Putting the class list back *)

Lemma getSubstitution_plain (m b a t : str) :
  forallb (fun c => negb (ceq c c_dollar)) t = true ->
  getSubstitution m b a t = t.
Proof.
  induction t as [|c t IH]; simpl; [reflexivity|].
  intros H. apply andb_true_iff in H as [Hc H].
  destruct (ceq c c_dollar); [discriminate|]. now rewrite IH.
Qed.

Lemma value_no_dollar (v : str) :
  forallb value_char v = true ->
  forallb (fun c => negb (ceq c c_dollar)) v = true.
Proof.
  induction v as [|c v IH]; simpl; [reflexivity|].
  intros H. apply andb_true_iff in H as [Hc H]. rewrite IH by assumption.
  unfold value_char in Hc.
  now destruct (ceq c c_dollar); destruct (is_quote c); destruct (ceq c c_eq).
Qed.

Lemma index_split_spec (needle : str) :
  forall hay b a, index_split needle hay = Some (b, a) -> hay = b ++ needle ++ a.
Proof.
  induction hay as [|c hay IH]; intros b a; simpl.
  - destruct (strip_prefix needle []) as [r|] eqn:E; [|discriminate].
    intros [= <- <-]. apply strip_prefix_spec in E. exact E.
  - destruct (strip_prefix needle (c :: hay)) as [r|] eqn:E.
    + intros [= <- <-]. apply strip_prefix_spec in E. exact E.
    + destruct (index_split needle hay) as [[b' a']|]; [|discriminate].
      intros [= <- <-]. simpl. f_equal. now apply IH.
Qed.

Lemma replace_first_self (m v : str) :
  forallb value_char v = true -> replace_first m v v = m.
Proof.
  intros Hv. unfold replace_first.
  destruct (index_split v m) as [[b a]|] eqn:E; [|reflexivity].
  rewrite getSubstitution_plain by now apply value_no_dollar.
  symmetry. now apply index_split_spec.
Qed.

Lemma lacks_cons (c : char) (s v : str) :
  lacks (c :: s) v = true ->
  strip_prefix v (c :: s) = None /\ lacks s v = true.
Proof.
  unfold lacks. simpl.
  destruct (strip_prefix v (c :: s)); [discriminate|].
  destruct (index_split v s) as [[b a]|]; [discriminate|]. auto.
Qed.

Lemma strip_prefix_across (v : str) :
  forall a r x,
    no_equals v = true ->
    strip_prefix v (a ++ c_eq :: r) = Some x ->
    exists x', strip_prefix v a = Some x'.
Proof.
  induction v as [|y v IH]; intros a r x Hv; simpl; [eauto|].
  simpl in Hv. apply andb_true_iff in Hv as [Hy Hv].
  destruct a as [|z a]; simpl.
  - destruct (ceq y c_eq); [discriminate|discriminate].
  - destruct (ceq y z); [|discriminate]. now apply IH.
Qed.

Lemma index_split_value (v : str) :
  v <> [] -> forallb value_char v = true ->
  forall a,
    lacks a v = true ->
    index_split v (a ++ c_eq :: q :: v ++ [q2])
    = Some (a ++ [c_eq; q], [q2]).
Proof.
  intros Hne Hv.
  destruct v as [|y v]; [congruence|].
  pose proof Hv as Hv'. simpl in Hv'. apply andb_true_iff in Hv' as [Hy _].
  unfold value_char in Hy.
  assert (Yq : is_quote y = false) by now destruct (is_quote y).
  assert (Ye : ceq y c_eq = false)
    by now destruct (is_quote y); destruct (ceq y c_eq).
  assert (Yq' : ceq y q = false).
  { destruct (ceq y q) eqn:E; [|reflexivity]. apply ceq_eq in E. congruence. }
  induction a as [|z a IH]; intros Hl.
  - cbn [app index_split strip_prefix]. rewrite Ye, Yq'.
    assert (E : strip_prefix (y :: v) ((y :: v) ++ [q2]) = Some [q2])
      by now apply strip_prefix_spec.
    cbn [app strip_prefix] in E. rewrite E. reflexivity.
  - apply lacks_cons in Hl as [Hs Hl].
    change ((z :: a) ++ c_eq :: q :: (y :: v) ++ [q2])
      with (z :: (a ++ c_eq :: q :: (y :: v) ++ [q2])).
    cbn [index_split].
    destruct (strip_prefix (y :: v) (z :: a ++ c_eq :: q :: (y :: v) ++ [q2]))
      as [x|] eqn:E.
    + change (z :: a ++ c_eq :: q :: (y :: v) ++ [q2])
        with ((z :: a) ++ c_eq :: q :: (y :: v) ++ [q2]) in E.
      apply strip_prefix_across in E as [x' E];
        [congruence | now apply value_no_equals].
    + now rewrite (IH Hl).
Qed.

Lemma lacks_suffix (a1 a2 v : str) :
  lacks (a1 ++ a2) v = true -> lacks a2 v = true.
Proof.
  induction a1 as [|c a1 IH]; [trivial|].
  intros H. apply lacks_cons in H as [_ H]. now apply IH.
Qed.

(** The class list is put back where it was found, when the new one is
    the old one, or when the old one occurs nowhere before the equals
    sign. *)
Lemma replace_first_value (a v v' : str) :
  forallb value_char v = true -> forallb value_char v' = true ->
  v' = v \/ (v <> [] /\ lacks a v = true) ->
  replace_first (a ++ c_eq :: q :: v ++ [q2]) v v'
  = a ++ c_eq :: q :: v' ++ [q2].
Proof.
  intros Hv Hv' [->|[Hne Hl]]; [now apply replace_first_self|].
  unfold replace_first. rewrite index_split_value by assumption.
  rewrite getSubstitution_plain by now apply value_no_dollar.
  rewrite <- !app_assoc. reflexivity.
Qed.

(** The direct-value pass of one pattern on a buffer with a single
    attribute. *)
Lemma String_replace_direct (host : RegExpHost) (re : RegExp)
    (p : str) (skip : list str) (add : bool) (a v : str) :
  segs_of re <> None ->
  no_equals a = true -> forallb value_char v = true ->
  forallb value_char (processClasses v p skip add) = true ->
  processClasses v p skip add = v \/ (v <> [] /\ lacks a v = true) ->
  String_replace host (attribute_buffer a q v q2 after) re
    (direct_replacer p skip add)
  = Ok (attribute_buffer a q
          (if pattern_hits a re then processClasses v p skip add else v)
          q2 after).
Proof.
  intros Hre Ha Hv Hv' Hslip.
  destruct (segs_of re) as [segs|] eqn:Es; [|congruence].
  rewrite (String_replace_attribute host re segs _ a v Es Ha Hv).
  unfold pattern_hits. rewrite Es.
  destruct (first_hit segs a) as [j|] eqn:Ej; [|reflexivity].
  pose proof (first_hit_le segs a j Ej) as Hj.
  cbn [direct_replacer].
  rewrite (replace_first_value (skipn j a) v _ Hv Hv').
  - f_equal. unfold attribute_buffer. rewrite <- !app_assoc. cbn [app].
    rewrite <- app_assoc. cbn [app]. rewrite app_assoc, firstn_skipn.
    reflexivity.
  - destruct Hslip as [E|[Hne Hl]]; [now left | right].
    split; [assumption|].
    apply (lacks_suffix (firstn j a)). now rewrite firstn_skipn.
Qed.

Lemma direct_pass_attribute (host : RegExpHost) (p : str) (skip : list str)
    (add : bool) (a : str) (patterns : list RegExp) :
  Forall (fun re => segs_of re <> None) patterns ->
  no_equals a = true ->
  forall v,
    forallb value_char v = true ->
    forallb value_char (processClasses v p skip add) = true ->
    processClasses (processClasses v p skip add) p skip add
    = processClasses v p skip add ->
    processClasses v p skip add = v \/ (v <> [] /\ lacks a v = true) ->
    direct_pass host patterns (direct_replacer p skip add)
      (attribute_buffer a q v q2 after)
    = Ok (attribute_buffer a q
            (if existsb (pattern_hits a) patterns
             then processClasses v p skip add else v)
            q2 after).
Proof.
  intros Hpats Ha. unfold direct_pass.
  induction Hpats as [|re patterns Hre _ IH]; intros v Hv Hv' Hidem Hslip.
  - reflexivity.
  - cbn [fold_left existsb].
    rewrite (String_replace_direct host re p skip add a v Hre Ha Hv Hv' Hslip).
    destruct (pattern_hits a re).
    + rewrite IH; [| assumption | now rewrite Hidem | now rewrite Hidem
                   | left; assumption].
      rewrite Hidem. cbn [orb]. now destruct (existsb (pattern_hits a) patterns).
    + rewrite IH by assumption. reflexivity.
Qed.

(** *** The expression pass finds nothing *)

Lemma open_tail_suffix_attribute (a v n r : str) :
  no_equals a = true -> forallb value_char v = true ->
  attribute_buffer a q v q2 after = n ++ r -> open_tail r = None.
Proof.
  intros Ha Hv E. unfold attribute_buffer in E.
  apply app_eq_app in E as [l [[E1 E2]|[E1 E2]]].
  - subst a r. rewrite no_equals_app in Ha. apply andb_true_iff in Ha as [_ Hl].
    now apply (open_tail_attribute l q v q2 after).
  - destruct l as [|c l].
    + simpl in E2. subst r.
      now apply (open_tail_attribute [] q v q2 after).
    + injection E2 as _ E2. apply open_tail_no_equals.
      pose proof (value_part_no_equals v Hv) as HR. rewrite E2 in HR.
      now apply no_equals_suffix in HR.
Qed.

Lemma find_from_open_none (alts : list (list str)) (s : str) :
  (forall n r, s = n ++ r -> open_tail r = None) ->
  forall i, find_from (ReOpen alts) s i = None.
Proof.
  induction s as [|c s IH]; intros Hs i; cbn [find_from match_here].
  - destruct (match_alts alts [] open_tail) as [x|] eqn:E; [|reflexivity].
    apply match_alts_sound in E as (n & r & E & Hk).
    now rewrite (Hs n r E) in Hk.
  - destruct (match_alts alts (c :: s) open_tail) as [x|] eqn:E.
    + apply match_alts_sound in E as (n & r & E & Hk).
      now rewrite (Hs n r E) in Hk.
    + apply IH. intros n r E'. apply (Hs (c :: n) r). now rewrite E'.
Qed.

Lemma processExpression_attribute (host : RegExpHost)
    (config : ClassPrefixerConfig) (add : bool) (a v : str) :
  useRegex config = false ->
  no_equals a = true -> forallb value_char v = true ->
  processExpressionAttributeLiterals host (attribute_buffer a q v q2 after)
    config add
  = Ok (attribute_buffer a q v q2 after).
Proof.
  intros Hre Ha Hv. unfold processExpressionAttributeLiterals.
  unfold buildAttrNameAlternation. rewrite Hre. cbn [startRe].
  replace (length (attribute_buffer a q v q2 after) + 2)
    with (S (S (length (attribute_buffer a q v q2 after)))) by lia.
  cbn [expression_loop]. unfold exec. cbn [Nat.ltb Nat.leb skipn].
  rewrite find_from_open_none; [reflexivity|].
  intros n r E. now apply (open_tail_suffix_attribute a v n r).
Qed.
End SingleAttribute.

(** ** The patterns of a configuration without [useRegex] *)

Lemma buildPatterns_wild (host : RegExpHost) (config : ClassPrefixerConfig) :
  useRegex config = false ->
  fst (buildPatterns host config)
  = ReDefault :: buildPatternsFromCustom (customPatterns config).
Proof. intros H. unfold buildPatterns. now rewrite H. Qed.

Lemma buildPatterns_direct (host : RegExpHost) (config : ClassPrefixerConfig) :
  useRegex config = false ->
  Forall (fun re => segs_of re <> None) (fst (buildPatterns host config)).
Proof.
  intros H. rewrite buildPatterns_wild by assumption.
  constructor; [discriminate|]. unfold buildPatternsFromCustom.
  apply Forall_forall. intros re Hin. apply in_map_iff in Hin as (w & <- & _).
  discriminate.
Qed.

Lemma unique_go_In (x : str) (l seen : list str) :
  In x l -> includes seen x = false -> In x (unique_go seen l).
Proof.
  revert seen; induction l as [|y l IH]; intros seen Hin Hs; [contradiction|].
  cbn [unique_go]. destruct (includes seen y) eqn:Ey.
  - destruct Hin as [->|Hin]; [congruence | now apply IH].
  - destruct Hin as [->|Hin]; [now left|].
    destruct (list_eq_dec N.eq_dec x y) as [->|Hne]; [now left | right].
    apply IH; [assumption|]. cbn [includes existsb].
    fold (includes seen x). rewrite Hs, orb_false_r.
    destruct (str_eqb x y) eqn:E; [|reflexivity].
    apply str_eqb_eq in E. contradiction.
Qed.

Lemma unique_In (x : str) (l : list str) : In x l -> In x (unique l).
Proof. intros H. now apply unique_go_In. Qed.


Lemma lacks_non_empty (a v : str) : lacks a v = true -> v <> [].
Proof. intros H ->. unfold lacks in H. now destruct a. Qed.

(** ** The round trip on a buffer with a single attribute *)



(** ** Wildcard attributes in the direct-value pass *)




(** ** Empty values *)



(** ** Adding twice on a buffer with a single attribute *)

(** On a buffer with one equals sign followed by a quoted list of class
    names separated by single spaces, when the list does not occur in the
    text before the equals sign, adding changes nothing but the class list,
    which it leaves or replaces by what the Token Processor makes of it, and
    adding again changes nothing at all. *)
Theorem add_single_attribute (host : RegExpHost)
    (config : ClassPrefixerConfig) (before : str) (q : char)
    (toks : list str) (q2 : char) (after : str) :
  useRegex config = false ->
  forallb class_char (prefix config) = true ->
  forallb class_token toks = true ->
  is_quote q = true -> is_quote q2 = true ->
  no_equals before = true -> no_equals after = true ->
  lacks before (join [c_sp] toks) = true ->
  exists value,
    (value = join [c_sp] toks
     \/ value = processClasses (join [c_sp] toks) (prefix config)
                  (skipClasses config) true)
    /\ addPrefixToClasses host
         (attribute_buffer before q (join [c_sp] toks) q2 after) config
       = Ok (attribute_buffer before q value q2 after)
    /\ addPrefixToClasses host (attribute_buffer before q value q2 after) config
       = Ok (attribute_buffer before q value q2 after).
Proof.
  intros Hre Hp Htoks Hq Hq2 Hb Ha Hl.
  set (p := prefix config) in *. set (skip := skipClasses config) in *.
  set (X := join [c_sp] toks) in *.
  set (X' := join [c_sp] (map (rewrite_token p skip true) toks)).
  assert (EX' : processClasses X p skip true = X')
    by now apply processClasses_join.
  rewrite EX'.
  assert (VX : forallb value_char X = true) by now apply join_value_char.
  assert (VX' : forallb value_char X' = true)
    by (apply join_value_char; now apply added_tokens).
  assert (AX' : processClasses X' p skip true = X') by now apply add_added_list.
  pose proof (buildPatterns_direct host config Hre) as Hpats.
  assert (First :
            addPrefixToClasses host (attribute_buffer before q X q2 after) config
            = Ok (attribute_buffer before q
                    (if existsb (pattern_hits before)
                          (fst (buildPatterns host config))
                     then X' else X) q2 after)).
  { unfold addPrefixToClasses. fold p skip.
    rewrite (direct_pass_attribute q q2 after Hq Hq2 Ha host p skip true before
               _ Hpats Hb X VX).
    - rewrite EX'. apply processExpression_attribute; try assumption.
      now destruct (existsb _ _).
    - now rewrite EX'.
    - now rewrite EX', AX'.
    - right. split; [now apply (lacks_non_empty before) | assumption]. }
  destruct (existsb (pattern_hits before) (fst (buildPatterns host config)))
    eqn:Eh.
  - exists X'. split; [now right|]. split; [exact First|].
    unfold addPrefixToClasses. fold p skip.
    rewrite (direct_pass_attribute q q2 after Hq Hq2 Ha host p skip true before
               _ Hpats Hb X' VX').
    + rewrite Eh, AX'. now apply processExpression_attribute.
    + now rewrite AX'.
    + now rewrite !AX'.
    + now left.
  - exists X. split; [now left|]. split; exact First.
Qed.

Lemma add_single_attribute_witness :
  exists value,
    (value = join [c_sp] [u "app-foo"; u "bar"]
     \/ value = processClasses (join [c_sp] [u "app-foo"; u "bar"])
                  (prefix test_config) (skipClasses test_config) true)
    /\ addPrefixToClasses strict_host
         (attribute_buffer (u "<div className") c_dq
            (join [c_sp] [u "app-foo"; u "bar"]) c_dq (u "></div>"))
         test_config
       = Ok (attribute_buffer (u "<div className") c_dq value c_dq (u "></div>"))
    /\ addPrefixToClasses strict_host
         (attribute_buffer (u "<div className") c_dq value c_dq (u "></div>"))
         test_config
       = Ok (attribute_buffer (u "<div className") c_dq value c_dq (u "></div>")).
Proof.
  apply (add_single_attribute strict_host test_config
           (u "<div className") c_dq [u "app-foo"; u "bar"] c_dq (u "></div>"));
    reflexivity.
Defined.

(** ** The scenarios of the specification *)

(** The six scenarios that the specification lists, which are tests of the
    repository's suite too, run as they say. *)
Theorem specification_scenarios :
  addPrefixToClasses strict_host
    (u "<div className=" ++ dquoted (u "foo bar baz") ++ u "></div>") test_config
  = Ok (u "<div className=" ++ dquoted (u "app-foo app-bar app-baz")
          ++ u "></div>")
  /\ addPrefixToClasses strict_host
       (u "<div className=" ++ dquoted (u "foo bar baz") ++ u "></div>")
       (test_config_skipping [u "bar"])
     = Ok (u "<div className=" ++ dquoted (u "app-foo bar app-baz")
             ++ u "></div>")
  /\ addPrefixToClasses strict_host
       (u "<div className=" ++ dquoted (u "app-foo bar") ++ u "></div>")
       test_config
     = Ok (u "<div className=" ++ dquoted (u "app-foo app-bar") ++ u "></div>")
  /\ addPrefixToClasses strict_host
       (u "<div className={twMerge('header', cond && " ++ dquoted (u "hidden")
          ++ u ", 'footer')}></div>")
       (test_config_skipping [u "hidden"])
     = Ok (u "<div className={twMerge('app-header', cond && "
             ++ dquoted (u "hidden") ++ u ", 'app-footer')}></div>")
  /\ addPrefixToClasses strict_host
       (u "<div className={twMerge(`btn-${size}`, " ++ dquoted (u "primary")
          ++ u ")}></div>")
       test_config
     = Ok (u "<div className={twMerge(`btn-${size}`, "
             ++ dquoted (u "app-primary") ++ u ")}></div>")
  /\ removePrefixFromClasses strict_host
       (u "<div className={twMerge('app-a app-b', cond && "
          ++ dquoted (u "app-c") ++ u ")}></div>")
       test_config
     = Ok (u "<div className={twMerge('a b', cond && " ++ dquoted (u "c")
             ++ u ")}></div>").
Proof. repeat split; vm_compute; reflexivity. Qed.

(** ** Without [useRegex] a run always returns a text *)

Lemma findMatchingBrace_loop_bounds (n : nat) :
  forall (s : str) (i : nat) (d : Z) (a b c : bool),
    length s <= n ->
    findMatchingBrace_loop s i d a b c = (-1)%Z
    \/ (Z.of_nat i <= findMatchingBrace_loop s i d a b c
        < Z.of_nat (i + length s))%Z.
Proof.
  induction n as [|n IH]; intros s i d a b c Hn.
  - destruct s; [now left | simpl in Hn; lia].
  - destruct s as [|ch r]; [now left|]. simpl in Hn.
    assert (Step : forall d' a' b' c',
               findMatchingBrace_loop r (i + 1) d' a' b' c' = (-1)%Z
               \/ (Z.of_nat i <= findMatchingBrace_loop r (i + 1) d' a' b' c'
                   < Z.of_nat (i + length (ch :: r)))%Z).
    { intros d' a' b' c'.
      destruct (IH r (i + 1) d' a' b' c' ltac:(lia)) as [E|E]; [now left|].
      right. cbn [length]. lia. }
    assert (Step2 : forall a' b' c',
               match r with
               | [] => (-1)%Z
               | _ :: r' => findMatchingBrace_loop r' (i + 2) d a' b' c'
               end = (-1)%Z
               \/ (Z.of_nat i <= match r with
                                 | [] => (-1)%Z
                                 | _ :: r' =>
                                     findMatchingBrace_loop r' (i + 2) d a' b' c'
                                 end
                   < Z.of_nat (i + length (ch :: r)))%Z).
    { intros a' b' c'. destruct r as [|c2 r']; [now left|]. simpl in Hn.
      destruct (IH r' (i + 2) d a' b' c' ltac:(lia)) as [E|E]; [now left|].
      right. cbn [length]. lia. }
    cbn [findMatchingBrace_loop].
    destruct a.
    { destruct (ceq ch c_bsl); [apply Step2|].
      destruct (ceq ch c_sq); apply Step. }
    destruct b.
    { destruct (ceq ch c_bsl); [apply Step2|].
      destruct (ceq ch c_dq); apply Step. }
    destruct c.
    { destruct (ceq ch c_bsl); [apply Step2|].
      destruct (ceq ch c_bt); apply Step. }
    destruct (ceq ch c_sq); [apply Step|].
    destruct (ceq ch c_dq); [apply Step|].
    destruct (ceq ch c_bt); [apply Step|].
    destruct (ceq ch c_lbrace); [apply Step|].
    destruct (ceq ch c_rbrace); [|apply Step].
    destruct (d - 1 =? 0)%Z; [|apply Step].
    right. cbn [length]. lia.
Qed.

Lemma findMatchingBrace_bounds (source : str) (openIndex : nat) :
  findMatchingBrace source openIndex = (-1)%Z
  \/ (Z.of_nat openIndex <= findMatchingBrace source openIndex
      < Z.of_nat (length source))%Z.
Proof.
  unfold findMatchingBrace.
  destruct (findMatchingBrace_loop_bounds (length (skipn openIndex source))
              (skipn openIndex source) openIndex 0 false false false (le_n _))
    as [E|E]; [now left|].
  right. rewrite length_skipn in E. lia.
Qed.

Lemma drop_spaces_length (s : str) : length (drop_spaces s) <= length s.
Proof.
  induction s as [|c s IH]; simpl; [lia|].
  destruct (is_space c); simpl; lia.
Qed.

Lemma open_tail_shorter (r : str) (g : option str) (rest : str) :
  open_tail r = Some (g, rest) -> length rest < length r.
Proof.
  unfold open_tail. pose proof (drop_spaces_length r) as H1.
  destruct (drop_spaces r) as [|c s1]; [discriminate|].
  destruct (ceq c c_eq); [|discriminate].
  pose proof (drop_spaces_length s1) as H2.
  destruct (drop_spaces s1) as [|b s2]; [discriminate|].
  destruct (ceq b c_lbrace); [|discriminate].
  intros [= _ <-]. simpl in *. lia.
Qed.

Lemma take_value_shorter (s v rest : str) :
  take_value s = Some (v, rest) -> length rest < length s.
Proof.
  revert v rest; induction s as [|c s IH]; intros v rest; simpl; [discriminate|].
  destruct (is_quote c).
  - intros [= _ <-]. lia.
  - destruct (take_value s) as [[v' rest']|]; [|discriminate].
    intros [= _ <-]. specialize (IH v' rest' eq_refl). lia.
Qed.

Lemma direct_tail_group (r : str) (g : option str) (rest : str) :
  direct_tail r = Some (g, rest) ->
  (exists v, g = Some v) /\ length rest < length r.
Proof.
  unfold direct_tail. pose proof (drop_spaces_length r) as H1.
  destruct (drop_spaces r) as [|c s1]; [discriminate|].
  destruct (ceq c c_eq); [|discriminate].
  pose proof (drop_spaces_length s1) as H2.
  destruct (drop_spaces s1) as [|b s2]; [discriminate|].
  destruct (is_quote b); [|discriminate].
  destruct (take_value s2) as [[v rest']|] eqn:E; [|discriminate].
  intros [= <- <-]. apply take_value_shorter in E.
  split; [eauto|]. simpl in *. lia.
Qed.

(** A match of one of the program's own expressions is not empty, ends
    within the text, and has a group when it is a direct value. *)
Lemma match_here_result (re : RegExp) (s : str) (g : option str) (rest : str) :
  match_here re s = Some (g, rest) ->
  length rest < length s /\ (segs_of re <> None -> exists v, g = Some v).
Proof.
  destruct re as [|segs|alts|src]; cbn [match_here segs_of]; intros H.
  - apply match_segs_sound in H as (n & r & -> & _ & Hk).
    apply direct_tail_group in Hk as [Hg Hl]. rewrite length_app.
    split; [lia | auto].
  - apply match_segs_sound in H as (n & r & -> & _ & Hk).
    apply direct_tail_group in Hk as [Hg Hl]. rewrite length_app.
    split; [lia | auto].
  - apply match_alts_sound in H as (n & r & -> & Hk).
    apply open_tail_shorter in Hk. rewrite length_app.
    split; [lia | congruence].
  - discriminate.
Qed.

Lemma find_from_unfold (re : RegExp) (s : str) (i : nat) :
  find_from re s i
  = match match_here re s with
    | Some (g, rest) => Some (i, i + (length s - length rest), g)
    | None =>
        match s with
        | [] => None
        | _ :: r => find_from re r (S i)
        end
    end.
Proof. destruct s; reflexivity. Qed.

Lemma find_from_result (re : RegExp) (s : str) :
  forall i index e g,
    find_from re s i = Some (index, e, g) ->
    i <= index /\ index < e /\ e <= i + length s
    /\ (segs_of re <> None -> exists v, g = Some v).
Proof.
  induction s as [|c r IH]; intros i index e g; rewrite find_from_unfold.
  - destruct (match_here re []) as [[g' rest]|] eqn:E; [|discriminate].
    apply match_here_result in E as [Hl _]. simpl in Hl. lia.
  - destruct (match_here re (c :: r)) as [[g' rest]|] eqn:E.
    + apply match_here_result in E as [Hl Hg].
      remember (length (c :: r) - length rest) as k eqn:Ek.
      intros H. injection H as H1 H2 H3. subst index e g.
      split; [lia|]. split; [lia|]. split; [lia | exact Hg].
    + intros H. apply IH in H as (H1 & H2 & H3 & H4).
      change (length (c :: r)) with (S (length r)).
      split; [lia|]. split; [lia|]. split; [lia | exact H4].
Qed.

Lemma exec_result (host : RegExpHost) (re : RegExp) (text : str)
    (lastIndex index e : nat) (g : option str) :
  (forall src, re <> ReHost src) ->
  exec host re text lastIndex = Some (index, e, g) ->
  lastIndex <= index /\ index < e /\ e <= length text
  /\ (segs_of re <> None -> exists v, g = Some v).
Proof.
  intros Hre. unfold exec.
  destruct (Nat.ltb_spec (length text) lastIndex) as [|Hl]; [discriminate|].
  assert (F : find_from re (skipn lastIndex text) lastIndex = Some (index, e, g) ->
              lastIndex <= index /\ index < e /\ e <= length text
              /\ (segs_of re <> None -> exists v, g = Some v)).
  { intros H. apply find_from_result in H as (H1 & H2 & H3 & H4).
    rewrite length_skipn in H3. repeat split; try lia. exact H4. }
  destruct re; try exact F. now specialize (Hre source).
Qed.

Lemma replace_loop_returns (host : RegExpHost) (re : RegExp) (p : str)
    (skip : list str) (add : bool) (text : str) :
  segs_of re <> None ->
  forall fuel lastIndex next,
    replace_loop fuel host re (direct_replacer p skip add) text lastIndex next
    = Unfinished
    \/ exists r,
        replace_loop fuel host re (direct_replacer p skip add) text lastIndex next
        = Ok r.
Proof.
  intros Hre. induction fuel as [|fuel IH]; intros lastIndex next; [now left|].
  cbn [replace_loop].
  destruct (exec host re text lastIndex) as [[[index e] g]|] eqn:E; [|eauto].
  apply exec_result in E as (_ & _ & _ & Hg);
    [|intros src ->; now apply Hre].
  destruct (Hg Hre) as [v ->]. cbn [direct_replacer].
  destruct (IH (if (e =? index)%nat then e + 1 else e) e) as [->|[r ->]]; eauto.
Qed.

Lemma direct_pass_returns (host : RegExpHost) (p : str) (skip : list str)
    (add : bool) (patterns : list RegExp) :
  Forall (fun re => segs_of re <> None) patterns ->
  forall text,
    exists r, direct_pass host patterns (direct_replacer p skip add) text = Ok r.
Proof.
  unfold direct_pass. induction 1 as [|re patterns Hre _ IH]; intros text.
  - simpl. eauto.
  - cbn [fold_left].
    destruct (replace_loop_returns host re p skip add text Hre
                (length text + 2) 0 0) as [E|[r E]].
    + exfalso. revert E. apply String_replace_ends. apply direct_replacer_ends.
    + unfold String_replace. rewrite E. apply IH.
Qed.

Lemma expression_loop_returns (host : RegExpHost) (alts : list (list str))
    (transform : str -> str) (text : str) :
  forall fuel reIndex lastIndex,
    1 <= fuel -> length text + 2 <= fuel + reIndex ->
    exists r,
      expression_loop fuel host (ReOpen alts) transform text reIndex lastIndex
      = Ok r.
Proof.
  induction fuel as [|fuel IH]; intros reIndex lastIndex H1 H2; [lia|].
  cbn [expression_loop].
  destruct (exec host (ReOpen alts) text reIndex) as [[[index e] g]|] eqn:E;
    [|eauto].
  pose proof (exec_bounds host (ReOpen alts) text reIndex index e g E)
    as (Hl & _ & _).
  apply exec_result in E as (Hi & He & Hlen & _); [|discriminate].
  replace (Z.to_nat (Z.of_nat e - 1)) with (e - 1) by lia.
  destruct (findMatchingBrace_bounds text (e - 1)) as [Ec|Ec].
  - rewrite Ec. cbn [Z.eqb]. apply IH; lia.
  - destruct (Z.eqb_spec (findMatchingBrace text (e - 1)) (-1)) as [Ec'|_]; [lia|].
    destruct (IH (Z.to_nat (findMatchingBrace text (e - 1) + 1))
                (Z.to_nat (findMatchingBrace text (e - 1) + 1)))
      as [r ->]; [lia | lia | eauto].
Qed.

Lemma runs_return (host : RegExpHost) (config : ClassPrefixerConfig)
    (text : str) :
  useRegex config = false ->
  (exists r, addPrefixToClasses host text config = Ok r)
  /\ (exists r, removePrefixFromClasses host text config = Ok r).
Proof.
  intros Hre.
  pose proof (buildPatterns_direct host config Hre) as Hpats.
  assert (Hx : forall t add,
             exists r, processExpressionAttributeLiterals host t config add = Ok r).
  { intros t add. unfold processExpressionAttributeLiterals.
    unfold buildAttrNameAlternation. rewrite Hre. cbn [startRe].
    apply expression_loop_returns; lia. }
  split.
  - unfold addPrefixToClasses.
    destruct (direct_pass_returns host (prefix config) (skipClasses config) true
                _ Hpats text) as [r ->].
    apply Hx.
  - unfold removePrefixFromClasses.
    destruct (direct_pass_returns host (prefix config) [] false
                _ Hpats text) as [r ->].
    apply Hx.
Qed.

(** Without [useRegex], adding and removing return a text for every buffer:
    nothing throws and every loop ends within the turns allotted to it. *)
Theorem wildcard_run_returns (host : RegExpHost)
    (config : ClassPrefixerConfig) (text : str) :
  useRegex config = false ->
  (exists r, addPrefixToClasses host text config = Ok r)
  /\ (exists r, removePrefixFromClasses host text config = Ok r).
Proof. apply runs_return. Qed.

Lemma wildcard_run_returns_witness :
  (exists r, addPrefixToClasses strict_host
               (u "<div className={f('a', {b: 'c'})} />") test_config = Ok r)
  /\ (exists r, removePrefixFromClasses strict_host
                  (u "<div className={f('a', {b: 'c'})} />") test_config = Ok r).
Proof.
  apply (wildcard_run_returns strict_host test_config
           (u "<div className={f('a', {b: 'c'})} />")).
  reflexivity.
Defined.

(** ** More on the Token Processor *)

Lemma forallb_rev_eq (A : Type) (f : A -> bool) (l : list A) :
  forallb f (rev l) = forallb f l.
Proof.
  induction l as [|x l IH]; [reflexivity|].
  cbn [rev forallb]. rewrite forallb_app, IH. cbn [forallb].
  rewrite andb_true_r. apply andb_comm.
Qed.

Lemma tokens_go_wordlike (s : str) :
  forall cur, no_space cur = true -> Forall (fun t => wordlike t = true) (tokens_go cur s).
Proof.
  assert (R : forall cur, cur <> [] -> no_space cur = true -> wordlike (rev cur) = true).
  { intros cur Hne Hc. unfold wordlike, non_empty, no_space in *.
    rewrite length_rev, forallb_rev_eq, Hc.
    destruct cur; [congruence | reflexivity]. }
  induction s as [|c r IH]; intros cur Hc; cbn [tokens_go].
  - destruct cur as [|x cur]; constructor; [|constructor].
    apply R; [discriminate | assumption].
  - destruct (is_space c) eqn:Ec.
    + destruct cur as [|x cur]; [now apply IH|].
      constructor; [apply R; [discriminate | assumption] | now apply IH].
    + apply IH. unfold no_space in *. cbn [forallb]. now rewrite Ec, Hc.
Qed.

Lemma tokens_wordlike (s : str) : Forall (fun t => wordlike t = true) (tokens s).
Proof. now apply tokens_go_wordlike. Qed.

Lemma tokens_join_words (l : list str) :
  Forall (fun t => wordlike t = true) l -> tokens (join [c_sp] l) = l.
Proof.
  unfold tokens. induction 1 as [|t l Ht _ IH]; [reflexivity|].
  unfold wordlike in Ht. apply andb_true_iff in Ht as [Hne Hs].
  assert (Hrev : rev t <> []).
  { intros E. apply (f_equal (@rev char)) in E. rewrite rev_involutive in E.
    subst t. discriminate. }
  destruct l as [|t2 l].
  - cbn [join]. rewrite <- (app_nil_r t) at 1.
    rewrite tokens_go_app by assumption. rewrite app_nil_r. cbn [tokens_go].
    destruct (rev t) eqn:E; [congruence|]. rewrite <- E.
    now rewrite rev_involutive.
  - change (join [c_sp] (t :: t2 :: l))
      with (t ++ c_sp :: join [c_sp] (t2 :: l)).
    rewrite tokens_go_app by assumption. rewrite app_nil_r. cbn [tokens_go].
    change (is_space c_sp) with true. cbn iota.
    destruct (rev t) eqn:E; [congruence|]. rewrite <- E.
    rewrite rev_involutive. f_equal. exact IH.
Qed.

Lemma rewrite_token_add_wordlike (p : str) (skip : list str) (t : str) :
  no_space p = true -> wordlike t = true ->
  wordlike (rewrite_token p skip true t) = true.
Proof.
  intros Hp Ht. unfold rewrite_token.
  destruct (strip_prefix p t); [assumption|].
  destruct (in_dec (list_eq_dec N.eq_dec) t skip); [assumption|].
  unfold wordlike in *. apply andb_true_iff in Ht as [Hne Hs].
  unfold no_space in *. rewrite forallb_app, Hp, Hs.
  unfold non_empty in *. rewrite length_app.
  destruct t; [discriminate|]. simpl. now rewrite Nat.add_succ_r.
Qed.

Lemma added_words (p : str) (skip : list str) (l : list str) :
  no_space p = true ->
  Forall (fun t => wordlike t = true) l ->
  Forall (fun t => wordlike t = true) (map (rewrite_token p skip true) l).
Proof.
  intros Hp. induction 1 as [|t l Ht _ IH]; constructor; [|exact IH].
  now apply rewrite_token_add_wordlike.
Qed.

(** What adding returns is again a list of the same number of tokens, each
    the old one or the old one after the prefix. *)
Lemma tokens_of_added (s p : str) (skip : list str) :
  no_space p = true ->
  tokens (processClasses s p skip true)
  = map (rewrite_token p skip true) (tokens s).
Proof.
  intros Hp. rewrite processClasses_rewrite_spec. unfold rewrite_spec.
  apply tokens_join_words. apply added_words; [assumption|].
  apply tokens_wordlike.
Qed.

Lemma add_idempotent_any (s p : str) (skip : list str) :
  no_space p = true ->
  processClasses (processClasses s p skip true) p skip true
  = processClasses s p skip true.
Proof.
  intros Hp.
  rewrite (processClasses_rewrite_spec (processClasses _ _ _ _)).
  unfold rewrite_spec at 1. rewrite tokens_of_added by assumption.
  rewrite processClasses_rewrite_spec. unfold rewrite_spec.
  rewrite map_map. f_equal. apply map_ext. intros t.
  apply rewrite_token_add_twice.
Qed.

(** Adding twice is adding once, for every class string, when the prefix
    has no white space: the tokens that got the prefix start with it, and
    the others are members of the skip list still. *)
Theorem processClasses_add_idempotent (classString prefix : str)
    (skipClasses : list str) :
  no_space prefix = true ->
  processClasses (processClasses classString prefix skipClasses true)
    prefix skipClasses true
  = processClasses classString prefix skipClasses true.
Proof. apply add_idempotent_any. Qed.

Lemma processClasses_add_idempotent_witness :
  processClasses (processClasses (u "  foo app-bar   baz ") (u "app-") [u "baz"] true)
    (u "app-") [u "baz"] true
  = processClasses (u "  foo app-bar   baz ") (u "app-") [u "baz"] true.
Proof.
  apply (processClasses_add_idempotent (u "  foo app-bar   baz ") (u "app-")
           [u "baz"]).
  reflexivity.
Defined.

Lemma remove_added_any (s p : str) (skip : list str) :
  no_space p = true ->
  forallb (fun t => negb (startsWith t p)) (filter non_empty (split_ws s))
  = true ->
  processClasses (processClasses s p skip true) p [] false
  = join [c_sp] (filter non_empty (split_ws s)).
Proof.
  intros Hp Hfresh. rewrite split_tokens in *.
  rewrite (processClasses_rewrite_spec (processClasses _ _ _ _)).
  unfold rewrite_spec. rewrite tokens_of_added by assumption.
  rewrite map_map. f_equal.
  rewrite <- (map_id (tokens s)) at 2.
  apply map_ext_in. intros t Hin. apply rewrite_token_remove_added.
  rewrite forallb_forall in Hfresh. specialize (Hfresh t Hin).
  now destruct (startsWith t p).
Qed.

(** Removing after adding gives back the tokens of the class string, joined
    by single spaces, when the prefix has no white space and no token
    starts with it; the skip list of the adding plays no part. *)
Theorem processClasses_remove_added (classString prefix : str)
    (skipClasses : list str) :
  no_space prefix = true ->
  forallb (fun t => negb (startsWith t prefix))
    (filter non_empty (split_ws classString)) = true ->
  processClasses (processClasses classString prefix skipClasses true)
    prefix [] false
  = join [c_sp] (filter non_empty (split_ws classString)).
Proof. apply remove_added_any. Qed.

Lemma processClasses_remove_added_witness :
  processClasses (processClasses (u " foo  bar ") (u "app-") [u "bar"] true)
    (u "app-") [] false
  = join [c_sp] (filter non_empty (split_ws (u " foo  bar "))).
Proof.
  apply (processClasses_remove_added (u " foo  bar ") (u "app-") [u "bar"]);
    reflexivity.
Defined.

Lemma tokens_go_blank (s : str) :
  forallb is_space s = true -> tokens_go [] s = [].
Proof.
  induction s as [|c r IH]; [reflexivity|]. cbn [forallb tokens_go].
  intros H. apply andb_true_iff in H as [Hc H]. rewrite Hc. now apply IH.
Qed.

Lemma join_nil_iff (l : list str) :
  Forall (fun t => wordlike t = true) l -> join [c_sp] l = [] -> l = [].
Proof.
  intros H E. destruct H as [|t l Ht _]; [reflexivity|].
  unfold wordlike in Ht. apply andb_true_iff in Ht as [Hne _].
  destruct t; [discriminate|]. destruct l; discriminate.
Qed.

(** When adding, the result is empty exactly when the class string is
    white space from end to end (the empty string included), whatever the
    prefix and the skip list. *)
Theorem processClasses_add_empty_iff (classString prefix : str)
    (skipClasses : list str) :
  processClasses classString prefix skipClasses true = []
  <-> forallb is_space classString = true.
Proof.
  rewrite processClasses_rewrite_spec. unfold rewrite_spec, tokens. split.
  - intros E.
    assert (T : tokens_go [] classString = []).
    { destruct (tokens_go [] classString) as [|t l] eqn:Et; [reflexivity|].
      exfalso. pose proof (tokens_wordlike classString) as W.
      unfold tokens in W. rewrite Et in W. inversion W as [|? ? Ht _]; subst.
      unfold wordlike in Ht. apply andb_true_iff in Ht as [Hne _].
      cbn [map join] in E.
      assert (N : rewrite_token prefix skipClasses true t <> []).
      { unfold rewrite_token. destruct (strip_prefix prefix t);
          [destruct t; discriminate|].
        destruct (in_dec (list_eq_dec N.eq_dec) t skipClasses);
          [destruct t; discriminate|].
        destruct t; [discriminate|]. destruct prefix; discriminate. }
      destruct (rewrite_token prefix skipClasses true t); [congruence|].
      destruct (map (rewrite_token prefix skipClasses true) l); discriminate. }
    clear E. revert T. generalize (@nil char) at 1.
    assert (G : forall s cur, tokens_go cur s = [] -> forallb is_space s = true).
    { induction s as [|c r IH]; intros cur; cbn [tokens_go forallb]; [reflexivity|].
      destruct (is_space c).
      - destruct cur; [apply IH | discriminate].
      - intros H. exfalso.
        assert (K : forall s cur, cur <> [] -> tokens_go cur s <> []).
        { clear. induction s as [|c r IH]; intros cur Hc; cbn [tokens_go].
          - destruct cur; [congruence | discriminate].
          - destruct (is_space c); [destruct cur; [congruence | discriminate]|].
            apply IH. discriminate. }
        apply (K r (c :: cur)); [discriminate | assumption]. }
    intros cur. apply G.
  - intros H. now rewrite tokens_go_blank.
Qed.

(** ** More on the Brace Matcher *)

(** The index found is the index of a closing brace of the text scanned,
    and it is found again, shifted as the text is, whatever stands before
    the text and after it. *)
Lemma findMatchingBrace_loop_found (n : nat) :
  forall (s : str) (i : nat) (d : Z) (a b c : bool) (k : nat),
    length s <= n ->
    findMatchingBrace_loop s i d a b c = Z.of_nat k ->
    i <= k /\ nth_error s (k - i) = Some c_rbrace
    /\ forall (j : nat) (more : str),
         findMatchingBrace_loop (s ++ more) j d a b c = Z.of_nat (j + (k - i)).
Proof.
  induction n as [|n IH]; intros s i d a b c k Hn H.
  - destruct s; [simpl in H; lia | simpl in Hn; lia].
  - destruct s as [|ch r]; [simpl in H; lia|]. simpl in Hn.
    assert (Step : forall d' a' b' c',
               findMatchingBrace_loop r (i + 1) d' a' b' c' = Z.of_nat k ->
               i <= k /\ nth_error (ch :: r) (k - i) = Some c_rbrace
               /\ forall j more,
                    findMatchingBrace_loop (r ++ more) (j + 1) d' a' b' c'
                    = Z.of_nat (j + (k - i))).
    { intros d' a' b' c' E.
      destruct (IH r (i + 1) d' a' b' c' k ltac:(lia) E) as (Hle & Hc & Hm).
      split; [lia|]. split.
      - replace (k - i) with (S (k - (i + 1))) by lia. exact Hc.
      - intros j more. rewrite Hm. f_equal. lia. }
    assert (Step2 : forall a' b' c',
               match r with
               | [] => (-1)%Z
               | _ :: r' => findMatchingBrace_loop r' (i + 2) d a' b' c'
               end = Z.of_nat k ->
               i <= k /\ nth_error (ch :: r) (k - i) = Some c_rbrace
               /\ forall j more,
                    match r ++ more with
                    | [] => (-1)%Z
                    | _ :: r' => findMatchingBrace_loop r' (j + 2) d a' b' c'
                    end = Z.of_nat (j + (k - i))).
    { intros a' b' c' E. destruct r as [|c2 r']; [lia|]. simpl in Hn.
      destruct (IH r' (i + 2) d a' b' c' k ltac:(lia) E) as (Hle & Hc & Hm).
      split; [lia|]. split.
      - replace (k - i) with (S (S (k - (i + 2)))) by lia. exact Hc.
      - intros j more. cbn [app]. rewrite Hm. f_equal. lia. }
    cbn [findMatchingBrace_loop] in H.
    assert (Shape : forall more, (ch :: r) ++ more = ch :: (r ++ more))
      by reflexivity.
    destruct a.
    { destruct (ceq ch c_bsl) eqn:E1.
      - destruct (Step2 _ _ _ H) as (H1 & H2 & H3). repeat split; try assumption.
        intros j more. rewrite Shape. cbn [findMatchingBrace_loop].
        rewrite E1. apply H3.
      - destruct (ceq ch c_sq) eqn:E2;
          destruct (Step _ _ _ _ H) as (H1 & H2 & H3);
          repeat split; try assumption;
          intros j more; rewrite Shape; cbn [findMatchingBrace_loop];
          rewrite E1, E2; apply H3. }
    destruct b.
    { destruct (ceq ch c_bsl) eqn:E1.
      - destruct (Step2 _ _ _ H) as (H1 & H2 & H3). repeat split; try assumption.
        intros j more. rewrite Shape. cbn [findMatchingBrace_loop].
        rewrite E1. apply H3.
      - destruct (ceq ch c_dq) eqn:E2;
          destruct (Step _ _ _ _ H) as (H1 & H2 & H3);
          repeat split; try assumption;
          intros j more; rewrite Shape; cbn [findMatchingBrace_loop];
          rewrite E1, E2; apply H3. }
    destruct c.
    { destruct (ceq ch c_bsl) eqn:E1.
      - destruct (Step2 _ _ _ H) as (H1 & H2 & H3). repeat split; try assumption.
        intros j more. rewrite Shape. cbn [findMatchingBrace_loop].
        rewrite E1. apply H3.
      - destruct (ceq ch c_bt) eqn:E2;
          destruct (Step _ _ _ _ H) as (H1 & H2 & H3);
          repeat split; try assumption;
          intros j more; rewrite Shape; cbn [findMatchingBrace_loop];
          rewrite E1, E2; apply H3. }
    destruct (ceq ch c_sq) eqn:E1.
    { destruct (Step _ _ _ _ H) as (H1 & H2 & H3). repeat split; try assumption.
      intros j more. rewrite Shape. cbn [findMatchingBrace_loop].
      rewrite E1. apply H3. }
    destruct (ceq ch c_dq) eqn:E2.
    { destruct (Step _ _ _ _ H) as (H1 & H2 & H3). repeat split; try assumption.
      intros j more. rewrite Shape. cbn [findMatchingBrace_loop].
      rewrite E1, E2. apply H3. }
    destruct (ceq ch c_bt) eqn:E3.
    { destruct (Step _ _ _ _ H) as (H1 & H2 & H3). repeat split; try assumption.
      intros j more. rewrite Shape. cbn [findMatchingBrace_loop].
      rewrite E1, E2, E3. apply H3. }
    destruct (ceq ch c_lbrace) eqn:E4.
    { destruct (Step _ _ _ _ H) as (H1 & H2 & H3). repeat split; try assumption.
      intros j more. rewrite Shape. cbn [findMatchingBrace_loop].
      rewrite E1, E2, E3, E4. apply H3. }
    destruct (ceq ch c_rbrace) eqn:E5.
    { destruct (d - 1 =? 0)%Z eqn:E6.
      - assert (k = i) by lia. subst k. rewrite Nat.sub_diag.
        apply ceq_eq in E5. subst ch.
        split; [lia|]. split; [reflexivity|].
        intros j more. rewrite Shape. cbn [findMatchingBrace_loop].
        change (ceq c_rbrace c_sq) with false.
        change (ceq c_rbrace c_dq) with false.
        change (ceq c_rbrace c_bt) with false.
        change (ceq c_rbrace c_lbrace) with false.
        change (ceq c_rbrace c_rbrace) with true. cbn iota.
        rewrite E6. f_equal. lia.
      - destruct (Step _ _ _ _ H) as (H1 & H2 & H3). repeat split; try assumption.
        intros j more. rewrite Shape. cbn [findMatchingBrace_loop].
        rewrite E1, E2, E3, E4, E5, E6. apply H3. }
    destruct (Step _ _ _ _ H) as (H1 & H2 & H3). repeat split; try assumption.
    intros j more. rewrite Shape. cbn [findMatchingBrace_loop].
    rewrite E1, E2, E3, E4, E5. apply H3.
Qed.

(** What [findMatchingBrace] returns, for any text and any index, is [-1]
    or the index of a closing brace of the text, not before the index it
    started from. *)
Theorem findMatchingBrace_closing_brace (source : str) (openIndex : nat) :
  findMatchingBrace source openIndex = (-1)%Z
  \/ exists k,
       findMatchingBrace source openIndex = Z.of_nat k
       /\ openIndex <= k < length source
       /\ nth_error source k = Some c_rbrace.
Proof.
  destruct (findMatchingBrace_bounds source openIndex) as [E|E]; [now left|].
  right. exists (Z.to_nat (findMatchingBrace source openIndex)).
  assert (Ek : findMatchingBrace source openIndex
               = Z.of_nat (Z.to_nat (findMatchingBrace source openIndex))) by lia.
  split; [exact Ek|]. split; [lia|].
  unfold findMatchingBrace in Ek at 1.
  apply (findMatchingBrace_loop_found (length (skipn openIndex source))) in Ek
    as (Hle & Hc & _); [|reflexivity].
  rewrite nth_error_skipn in Hc.
  now replace (openIndex + (Z.to_nat (findMatchingBrace source openIndex) - openIndex))
    with (Z.to_nat (findMatchingBrace source openIndex)) in Hc by lia.
Qed.

(** A closing brace that is found does not depend on the text before the
    index the search starts from, nor on the text after the brace: in a
    longer text around the same one it is found at the same place. *)
Theorem findMatchingBrace_local (source : str) (openIndex k : nat)
    (before more : str) :
  findMatchingBrace source openIndex = Z.of_nat k ->
  findMatchingBrace (before ++ source ++ more) (length before + openIndex)
  = Z.of_nat (length before + k).
Proof.
  intros H.
  destruct (findMatchingBrace_bounds source openIndex) as [E|E]; [lia|].
  unfold findMatchingBrace in *.
  apply (findMatchingBrace_loop_found (length (skipn openIndex source))) in H
    as (Hle & _ & Hm); [|reflexivity].
  rewrite skipn_app.
  replace (skipn (length before + openIndex) before) with (@nil char)
    by (symmetry; apply skipn_all2; lia).
  replace (length before + openIndex - length before) with openIndex by lia.
  cbn [app]. rewrite skipn_app.
  replace (openIndex - length source) with 0 by lia. cbn [skipn].
  rewrite Hm. f_equal. lia.
Qed.

Lemma findMatchingBrace_local_witness :
  findMatchingBrace (u "<a b={c} d={e}/>" ++ u "{x '}' {y}} z" ++ u "}}")
    (length (u "<a b={c} d={e}/>") + 0)
  = Z.of_nat (length (u "<a b={c} d={e}/>") + 10).
Proof.
  apply (findMatchingBrace_local (u "{x '}' {y}} z") 0 10
           (u "<a b={c} d={e}/>") (u "}}")).
  reflexivity.
Defined.

(** ** More on the Quoted-String Scanner *)

Lemma rq_identity (n : nat) :
  forall (s : str) (b : bool),
    length s <= n -> rq (fun content _ => content) b s = s.
Proof.
  induction n as [|n IH]; intros s b Hn.
  - destruct s; [reflexivity | simpl in Hn; lia].
  - destruct s as [|ch r]; [reflexivity|]. simpl in Hn.
    destruct b.
    + rewrite rq_template. destruct (ceq ch c_bsl).
      * destruct r as [|c2 r']; [reflexivity|]. simpl in Hn.
        now rewrite IH by lia.
      * destruct (ceq ch c_bt); now rewrite IH by lia.
    + rewrite rq_normal. destruct (ceq ch c_bt); [now rewrite IH by lia|].
      destruct (ceq ch c_dq || ceq ch c_sq); [|now rewrite IH by lia].
      destruct (scan_quoted ch r) as [[content rest]|] eqn:E;
        [|now rewrite IH by lia].
      pose proof (scan_quoted_rest_shorter _ _ _ _ E) as Hl.
      apply (scan_quoted_split ch (length r)) in E; [|reflexivity].
      rewrite IH by lia. now rewrite E.
Qed.

(** With a replacer that returns the content it is given, the scanner
    returns its input, whatever the input: strings that are never closed,
    escapes and template spans included. *)
Theorem scanner_identity (input : str) :
  replaceQuotedStringsIgnoringTemplates input (fun content _ => content)
  = input.
Proof. apply (rq_identity (length input)). reflexivity. Qed.

Lemma rq_no_quotes (f : str -> char -> str) (n : nat) :
  forall (s : str) (b : bool),
    length s <= n ->
    forallb (fun c => negb (ceq c c_dq) && negb (ceq c c_sq)) s = true ->
    rq f b s = s.
Proof.
  induction n as [|n IH]; intros s b Hn Hs.
  - destruct s; [reflexivity | simpl in Hn; lia].
  - destruct s as [|ch r]; [reflexivity|]. simpl in Hn.
    cbn [forallb] in Hs. apply andb_true_iff in Hs as [Hc Hr].
    destruct b.
    + rewrite rq_template. destruct (ceq ch c_bsl).
      * destruct r as [|c2 r']; [reflexivity|]. simpl in Hn.
        cbn [forallb] in Hr. apply andb_true_iff in Hr as [_ Hr'].
        now rewrite IH by (lia || assumption).
      * destruct (ceq ch c_bt); now rewrite IH by (lia || assumption).
    + rewrite rq_normal.
      destruct (ceq ch c_bt); [now rewrite IH by (lia || assumption)|].
      destruct (ceq ch c_dq); [discriminate|].
      destruct (ceq ch c_sq); [discriminate|].
      cbn [orb]. now rewrite IH by (lia || assumption).
Qed.

(** A text with no single quote and no double quote comes back from the
    scanner as it is, whatever the replacer. *)
Theorem scanner_without_quotes (input : str) (replacer : str -> char -> str) :
  forallb (fun c => negb (ceq c c_dq) && negb (ceq c c_sq)) input = true ->
  replaceQuotedStringsIgnoringTemplates input replacer = input.
Proof. intros H. now apply (rq_no_quotes replacer (length input)). Qed.

Lemma scanner_without_quotes_witness :
  replaceQuotedStringsIgnoringTemplates (u "cn(a, `b-${c}`, d ? e : f\g)")
    (fun content _ => processClasses content (u "app-") [] true)
  = u "cn(a, `b-${c}`, d ? e : f\g)".
Proof.
  apply (scanner_without_quotes (u "cn(a, `b-${c}`, d ? e : f\g)")
           (fun content _ => processClasses content (u "app-") [] true)).
  reflexivity.
Defined.

Lemma closed_text_app (a b : str) :
  closed_text a -> closed_text b -> closed_text (a ++ b).
Proof.
  intros Ha Hb. induction Ha as [|c s H1 H2 H3 _ IH|q content s Hq Hscan _ IH
                               |t s Hspan _ IH].
  - exact Hb.
  - cbn [app]. now apply closed_plain.
  - cbn [app]. rewrite <- app_assoc. cbn [app]. now apply closed_quoted.
  - cbn [app]. rewrite <- app_assoc. cbn [app]. now apply closed_template.
Qed.

Lemma closed_braced (inner s : str) :
  closed_text inner -> closed_text s ->
  closed_text (c_lbrace :: inner ++ c_rbrace :: s).
Proof.
  intros Hi Hs. apply closed_plain; [reflexivity | reflexivity | reflexivity |].
  apply closed_text_app; [assumption|].
  apply closed_plain; [reflexivity | reflexivity | reflexivity | assumption].
Qed.

Lemma body_text_closed (plain : char -> bool) (P : str -> char -> Prop)
    (s : str) :
  body_text plain P s -> closed_text s.
Proof.
  induction 1; [apply closed_nil | now apply closed_plain
               | now apply closed_quoted | now apply closed_template
               | now apply closed_braced].
Qed.

(** From one description of the strings of a body to another. *)
Lemma body_text_map (plain plain' : char -> bool)
    (P P' : str -> char -> Prop) (s : str) :
  (forall c, plain c = true -> plain' c = true) ->
  (forall content q,
      q = c_dq \/ q = c_sq ->
      scan_quoted q (content ++ [q]) = Some (content, []) ->
      P content q -> P' content q) ->
  body_text plain P s -> body_text plain' P' s.
Proof.
  intros Hp HP. induction 1;
    [apply body_nil | apply body_plain | apply body_quoted
     | apply body_template | apply body_braced]; auto.
Qed.

(** The scanner on each kind of piece of an expression body. *)
Lemma rq_plain_cons (f : str -> char -> str) (c : char) (s : str) :
  ceq c c_bt = false -> ceq c c_dq = false -> ceq c c_sq = false ->
  rq f false (c :: s) = c :: rq f false s.
Proof. intros Hb Hd Hs. rewrite rq_normal, Hb, Hd, Hs. reflexivity. Qed.

Lemma rq_quoted_cons (f : str -> char -> str) (q : char) (content s : str) :
  q = c_dq \/ q = c_sq ->
  scan_quoted q (content ++ [q]) = Some (content, []) ->
  rq f false (q :: content ++ q :: s)
  = q :: f content q ++ q :: rq f false s.
Proof.
  intros Hq Hscan. rewrite rq_normal.
  assert (Eb : ceq q c_bt = false) by (destruct Hq; subst; reflexivity).
  assert (Eq : ceq q c_dq || ceq q c_sq = true) by (destruct Hq; subst; reflexivity).
  rewrite Eb, Eq.
  pose proof (scan_quoted_more q (length (content ++ [q])) _ _ _ s
                (le_n _) Hscan) as E.
  rewrite <- app_assoc in E. cbn [app] in E. now rewrite E.
Qed.

Lemma rq_template_cons (f : str -> char -> str) (t s : str) :
  template_span (t ++ [c_bt]) = Some (t, []) ->
  rq f false (c_bt :: t ++ c_bt :: s) = c_bt :: t ++ c_bt :: rq f false s.
Proof.
  intros Hspan. rewrite rq_normal. change (ceq c_bt c_bt) with true. cbn iota.
  pose proof (template_span_more (length (t ++ [c_bt])) _ _ _ s
                (le_n _) Hspan) as E.
  rewrite <- app_assoc in E. cbn [app] in E.
  now rewrite (rq_template_span f _ _ _ _ (le_n _) E).
Qed.

Lemma rq_braced_cons (f : str -> char -> str) (inner s : str) :
  closed_text inner ->
  rq f false (c_lbrace :: inner ++ c_rbrace :: s)
  = c_lbrace :: rq f false inner ++ c_rbrace :: rq f false s.
Proof.
  intros Hi. rewrite rq_plain_cons by reflexivity.
  rewrite rq_closed_app by assumption.
  now rewrite rq_plain_cons by reflexivity.
Qed.

(** What the scanner returns for a body is a body again, when what the
    replacer returns for each string can stand between the same quotes. *)
Lemma rq_body_text (plain : char -> bool) (P P' : str -> char -> Prop)
    (f : str -> char -> str) (s : str) :
  (forall content q,
      q = c_dq \/ q = c_sq -> P content q ->
      scan_quoted q (f content q ++ [q]) = Some (f content q, [])
      /\ P' (f content q) q) ->
  body_text plain P s -> body_text plain P' (rq f false s).
Proof.
  intros Hf. induction 1 as [|c s Hb Hd Hs Hc _ IH|q content s Hq Hscan HP _ IH
                            |t s Hspan _ IH|inner s Hi IHi _ IH].
  - apply body_nil.
  - rewrite rq_plain_cons by assumption. now apply body_plain.
  - rewrite rq_quoted_cons by assumption.
    destruct (Hf content q Hq HP) as [Hsafe HP'].
    now apply body_quoted.
  - rewrite rq_template_cons by assumption. now apply body_template.
  - rewrite rq_braced_cons by (eapply body_text_closed; eassumption).
    now apply body_braced.
Qed.

Lemma rq_compose (f g : str -> char -> str) (s : str) :
  body_text (fun _ => true)
    (fun content q => scan_quoted q (f content q ++ [q]) = Some (f content q, []))
    s ->
  rq g false (rq f false s) = rq (fun content q => g (f content q) q) false s.
Proof.
  induction 1 as [|c s Hb Hd Hs _ _ IH|q content s Hq Hscan Hsafe _ IH
                 |t s Hspan _ IH|inner s Hi IHi Hs IH].
  - reflexivity.
  - rewrite !(rq_plain_cons _ c) by assumption. now rewrite IH.
  - rewrite !(rq_quoted_cons _ q content) by assumption.
    rewrite (rq_quoted_cons g q (f content q)) by assumption. now rewrite IH.
  - rewrite !(rq_template_cons _ t) by assumption. now rewrite IH.
  - pose proof (body_text_closed _ _ _ Hi) as Hc.
    rewrite !(rq_braced_cons _ inner) by assumption.
    rewrite rq_braced_cons; [now rewrite IHi, IH|].
    apply (body_text_closed (fun _ => true) (fun _ _ => True)).
    apply (rq_body_text _ _ _ f inner (fun content q _ H => conj H I) Hi).
Qed.

(** Scanning twice is scanning once with the two replacers in a row, on a
    text whose strings and template spans are all closed, when what the
    first replacer returns for each string can stand between the same quotes
    (it has no such quote unescaped and no backslash left alone at its
    end). *)
Theorem scanner_compose (first second : str -> char -> str) (input : str) :
  body_text (fun _ => true)
    (fun content q =>
       scan_quoted q (first content q ++ [q]) = Some (first content q, []))
    input ->
  replaceQuotedStringsIgnoringTemplates
    (replaceQuotedStringsIgnoringTemplates input first) second
  = replaceQuotedStringsIgnoringTemplates input
      (fun content q => second (first content q) q).
Proof. apply rq_compose. Qed.

Lemma scanner_compose_witness :
  replaceQuotedStringsIgnoringTemplates
    (replaceQuotedStringsIgnoringTemplates (u "f('a b', `t`)")
       (fun content _ => processClasses content (u "x-") [] true))
    (fun content _ => processClasses content (u "y-") [] true)
  = replaceQuotedStringsIgnoringTemplates (u "f('a b', `t`)")
      (fun content q =>
         processClasses (processClasses content (u "x-") [] true)
           (u "y-") [] true).
Proof.
  apply (scanner_compose
           (fun content _ => processClasses content (u "x-") [] true)
           (fun content _ => processClasses content (u "y-") [] true)
           (u "f('a b', `t`)")).
  do 2 (apply body_plain; [reflexivity | reflexivity | reflexivity | reflexivity |]).
  apply (body_quoted _ _ c_sq (u "a b") (u ", `t`)"));
    [right; reflexivity | reflexivity | reflexivity |].
  do 2 (apply body_plain; [reflexivity | reflexivity | reflexivity | reflexivity |]).
  apply (body_template _ _ (u "t") (u ")")); [reflexivity|].
  apply body_plain; [reflexivity | reflexivity | reflexivity | reflexivity |].
  apply body_nil.
Defined.

(** ** Expression bodies: the scanner after the brace matcher *)

Lemma rq_fixed (f : str -> char -> str) (s : str) :
  body_text (fun _ => true) (fun content q => f content q = content) s ->
  rq f false s = s.
Proof.
  induction 1 as [|c s Hb Hd Hs _ _ IH|q content s Hq Hscan Hfix _ IH
                 |t s Hspan _ IH|inner s Hi IHi _ IH].
  - reflexivity.
  - rewrite rq_plain_cons by assumption. now rewrite IH.
  - rewrite rq_quoted_cons by assumption. now rewrite Hfix, IH.
  - rewrite rq_template_cons by assumption. now rewrite IH.
  - rewrite rq_braced_cons by (eapply body_text_closed; eassumption).
    now rewrite IHi, IH.
Qed.

Lemma string_char_scan (q : char) (s : str) :
  q = c_dq \/ q = c_sq ->
  forallb string_char s = true ->
  scan_quoted q (s ++ [q]) = Some (s, []).
Proof.
  intros Hq. induction s as [|c s IH]; intros H.
  - destruct Hq; subst; reflexivity.
  - cbn [forallb] in H. apply andb_true_iff in H as [Hc H].
    unfold string_char in Hc.
    destruct (ceq c c_dq) eqn:Ed; [discriminate|].
    destruct (ceq c c_sq) eqn:Es; [discriminate|].
    destruct (ceq c c_bsl) eqn:Eb; [discriminate|].
    cbn [app scan_quoted]. rewrite Eb.
    assert (Ec : ceq c q = false) by (destruct Hq; subst; assumption).
    rewrite Ec. now rewrite IH.
Qed.

Lemma tokens_go_chars (Q : char -> bool) (s : str) :
  forall cur, forallb Q cur = true -> forallb Q s = true ->
              Forall (fun t => forallb Q t = true) (tokens_go cur s).
Proof.
  induction s as [|c r IH]; intros cur Hcur Hs; cbn [tokens_go].
  - destruct cur as [|x cur]; constructor; [|constructor].
    now rewrite forallb_rev_eq.
  - cbn [forallb] in Hs. apply andb_true_iff in Hs as [Hc Hr].
    destruct (is_space c).
    + destruct cur as [|x cur]; [now apply IH|].
      constructor; [now rewrite forallb_rev_eq | now apply IH].
    + apply IH; [|assumption]. cbn [forallb]. now rewrite Hc, Hcur.
Qed.

Lemma join_chars (Q : char -> bool) (l : list str) :
  Q c_sp = true ->
  Forall (fun t => forallb Q t = true) l ->
  forallb Q (join [c_sp] l) = true.
Proof.
  intros Hsp. induction 1 as [|t l Ht Hl IH]; [reflexivity|].
  destruct l as [|t2 l]; [exact Ht|].
  change (join [c_sp] (t :: t2 :: l)) with (t ++ c_sp :: join [c_sp] (t2 :: l)).
  rewrite forallb_app, Ht. cbn [forallb andb]. now rewrite Hsp, IH.
Qed.

(** What adding returns is made of the characters of the class string, of
    the prefix, and of spaces. *)
Lemma processClasses_add_chars (Q : char -> bool) (s p : str)
    (skip : list str) :
  Q c_sp = true -> forallb Q p = true -> forallb Q s = true ->
  forallb Q (processClasses s p skip true) = true.
Proof.
  intros Hsp Hp Hs. rewrite processClasses_rewrite_spec. unfold rewrite_spec.
  apply join_chars; [assumption|].
  pose proof (tokens_go_chars Q s [] eq_refl Hs) as H. fold (tokens s) in H.
  induction H as [|t l Ht _ IH]; constructor; [|exact IH].
  unfold rewrite_token. destruct (strip_prefix p t); [assumption|].
  destruct (in_dec (list_eq_dec N.eq_dec) t skip); [assumption|].
  now rewrite forallb_app, Hp, Ht.
Qed.

Lemma body_round_trip_any (plain : char -> bool)
    (config : ClassPrefixerConfig) (body : str) :
  no_space (prefix config) = true ->
  forallb string_char (prefix config) = true ->
  body_text plain
    (fun content _ => plain_class_list (prefix config) content = true) body ->
  rq (expression_replacer config false) false
    (rq (expression_replacer config true) false body)
  = body.
Proof.
  intros Hns Hp Hbody. rewrite rq_compose.
  - apply rq_fixed. revert Hbody. apply body_text_map; [reflexivity|].
    intros content q _ _ HP. unfold plain_class_list in HP.
    apply andb_true_iff in HP as [HP Hfresh].
    apply andb_true_iff in HP as [_ Hnorm].
    apply str_eqb_eq in Hnorm. unfold expression_replacer.
    rewrite remove_added_any by assumption. now symmetry.
  - revert Hbody. apply body_text_map; [reflexivity|].
    intros content q Hq _ HP.
    apply string_char_scan; [assumption|].
    unfold plain_class_list in HP.
    apply andb_true_iff in HP as [HP _].
    apply andb_true_iff in HP as [Hchars _].
    unfold expression_replacer.
    now apply processClasses_add_chars.
Qed.

(** Removing after adding, in an expression body: every string of the body
    is as it was, and so is the body, when the strings and template spans of
    the body are closed and each string holds a class list in normal form
    (single spaces, no class name that starts with the prefix, no quote and
    no backslash), for a prefix with no white space, quote or backslash. *)
Theorem expression_body_round_trip (config : ClassPrefixerConfig)
    (body : str) :
  no_space (prefix config) = true ->
  forallb string_char (prefix config) = true ->
  body_text (fun _ => true)
    (fun content _ => plain_class_list (prefix config) content = true) body ->
  replaceQuotedStringsIgnoringTemplates
    (replaceQuotedStringsIgnoringTemplates body
       (expression_replacer config true))
    (expression_replacer config false)
  = body.
Proof. apply body_round_trip_any. Qed.

Lemma expression_body_round_trip_witness :
  replaceQuotedStringsIgnoringTemplates
    (replaceQuotedStringsIgnoringTemplates (u "c('a b', `t ${'x'}`)")
       (expression_replacer (test_config_skipping [u "b"]) true))
    (expression_replacer (test_config_skipping [u "b"]) false)
  = u "c('a b', `t ${'x'}`)".
Proof.
  apply (expression_body_round_trip (test_config_skipping [u "b"])
           (u "c('a b', `t ${'x'}`)")); [reflexivity | reflexivity |].
  do 2 (apply body_plain; [reflexivity | reflexivity | reflexivity | reflexivity |]).
  apply (body_quoted _ _ c_sq (u "a b") (u ", `t ${'x'}`)"));
    [right; reflexivity | reflexivity | reflexivity |].
  do 2 (apply body_plain; [reflexivity | reflexivity | reflexivity | reflexivity |]).
  apply (body_template _ _ (u "t ${'x'}") (u ")")); [reflexivity|].
  apply body_plain; [reflexivity | reflexivity | reflexivity | reflexivity |].
  apply body_nil.
Defined.

Lemma template_span_scan (n : nat) :
  forall s, length s <= n -> template_span s = scan_quoted c_bt s.
Proof.
  induction n as [|n IH]; intros s Hn.
  - destruct s; [reflexivity | simpl in Hn; lia].
  - destruct s as [|c r]; [reflexivity|]. simpl in Hn.
    cbn [template_span scan_quoted]. destruct (ceq c c_bsl).
    + destruct r as [|c2 r']; [reflexivity|]. simpl in Hn.
      now rewrite IH by lia.
    + destruct (ceq c c_bt); [reflexivity|]. now rewrite IH by lia.
Qed.

(** One turn of the brace matcher inside a string or a template span. *)
Lemma findMatchingBrace_loop_span (m : lex_mode) (ch : char) (r : str)
    (i : nat) (d : Z) :
  m <> Normal ->
  findMatchingBrace_loop (ch :: r) i d (in_single m) (in_double m)
    (in_backtick m)
  = if ceq ch c_bsl then
      match r with
      | [] => (-1)%Z
      | _ :: r' =>
          findMatchingBrace_loop r' (i + 2) d (in_single m) (in_double m)
            (in_backtick m)
      end
    else if ceq ch (closer m) then
      findMatchingBrace_loop r (i + 1) d false false false
    else
      findMatchingBrace_loop r (i + 1) d (in_single m) (in_double m)
        (in_backtick m).
Proof. destruct m; [congruence | reflexivity | reflexivity | reflexivity]. Qed.

(** When the brace matcher finds a brace from inside a span, the span is
    closed before it, and the search goes on after the span from normal
    mode. *)
Lemma findMatchingBrace_loop_in_span (m : lex_mode) (n : nat) :
  m <> Normal ->
  forall (s : str) (i : nat) (d : Z) (k : nat),
    length s <= n ->
    findMatchingBrace_loop s i d (in_single m) (in_double m) (in_backtick m)
    = Z.of_nat k ->
    exists content rest,
      s = content ++ closer m :: rest
      /\ scan_quoted (closer m) (content ++ [closer m]) = Some (content, [])
      /\ findMatchingBrace_loop rest (i + length content + 1) d
           false false false = Z.of_nat k.
Proof.
  intros Hm. induction n as [|n IH]; intros s i d k Hn H.
  - destruct s; [|simpl in Hn; lia].
    destruct m; simpl in H; lia.
  - destruct s as [|ch r]; [destruct m; simpl in H; lia|]. simpl in Hn.
    rewrite findMatchingBrace_loop_span in H by assumption.
    destruct (ceq ch c_bsl) eqn:Eb.
    + destruct r as [|c2 r']; [lia|]. simpl in Hn.
      apply IH in H as (content & rest & -> & Hscan & Hgo); [|lia].
      exists (ch :: c2 :: content), rest. split; [reflexivity|].
      split.
      * cbn [app scan_quoted]. rewrite Eb. now rewrite Hscan.
      * cbn [length].
        replace (i + S (S (length content)) + 1)
          with (i + 2 + length content + 1) by lia.
        exact Hgo.
    + destruct (ceq ch (closer m)) eqn:Ec.
      * apply ceq_eq in Ec. subst ch.
        exists [], r. split; [reflexivity|]. split.
        -- cbn [app scan_quoted]. rewrite Eb, ceq_refl. reflexivity.
        -- cbn [length]. now rewrite Nat.add_0_r.
      * apply IH in H as (content & rest & -> & Hscan & Hgo); [|lia].
        exists (ch :: content), rest. split; [reflexivity|]. split.
        -- cbn [app scan_quoted]. rewrite Eb, Ec. now rewrite Hscan.
        -- cbn [length].
           replace (i + S (length content) + 1)
             with (i + 1 + length content + 1) by lia.
           exact Hgo.
Qed.

Lemma firstn_span (k i : nat) (q : char) (content rest : str) :
  i + length content + 2 <= k ->
  firstn (k - i) (q :: content ++ q :: rest)
  = q :: content ++ q :: firstn (k - (i + 1 + length content + 1)) rest.
Proof.
  intros H.
  replace (k - i)
    with (S (length content + S (k - (i + 1 + length content + 1)))) by lia.
  cbn [firstn]. f_equal. rewrite firstn_app_2. reflexivity.
Qed.

Lemma findMatchingBrace_loop_closed (n : nat) :
  forall (s : str) (i : nat) (d : Z) (k : nat),
    length s <= n -> (1 <= d)%Z ->
    findMatchingBrace_loop s i d false false false = Z.of_nat k ->
    closed_text (firstn (k - i) s).
Proof.
  induction n as [|n IH]; intros s i d k Hn Hd H.
  - destruct s; [|simpl in Hn; lia]. rewrite firstn_nil. apply closed_nil.
  - destruct s as [|ch r]; [rewrite firstn_nil; apply closed_nil|].
    simpl in Hn.
    assert (Span : forall m, m <> Normal -> ch = closer m ->
              findMatchingBrace_loop r (i + 1) d (in_single m) (in_double m)
                (in_backtick m) = Z.of_nat k ->
              exists content rest,
                r = content ++ ch :: rest
                /\ scan_quoted ch (content ++ [ch]) = Some (content, [])
                /\ firstn (k - i) (ch :: r)
                   = ch :: content ++ ch
                        :: firstn (k - (i + 1 + length content + 1)) rest
                /\ closed_text
                     (firstn (k - (i + 1 + length content + 1)) rest)).
    { intros m Hm -> Hgo.
      apply (findMatchingBrace_loop_in_span m n Hm) in Hgo
        as (content & rest & -> & Hscan & Hgo); [|lia].
      exists content, rest. split; [reflexivity|]. split; [exact Hscan|].
      pose proof (findMatchingBrace_loop_found (length rest) _ _ _ _ _ _ _
                    (le_n _) Hgo) as (Hle & _).
      split; [apply firstn_span; lia|].
      apply (IH rest _ d); [|assumption|exact Hgo].
      rewrite length_app in Hn. simpl in Hn. lia. }
    assert (Plain : forall d', (1 <= d')%Z ->
              ceq ch c_bt = false -> ceq ch c_dq = false ->
              ceq ch c_sq = false ->
              findMatchingBrace_loop r (i + 1) d' false false false
              = Z.of_nat k ->
              closed_text (firstn (k - i) (ch :: r))).
    { intros d' Hd' Eb Edq Esq Hgo.
      pose proof (findMatchingBrace_loop_found (length r) _ _ _ _ _ _ _
                    (le_n _) Hgo) as (Hle & _).
      replace (k - i) with (S (k - (i + 1))) by lia. cbn [firstn].
      apply closed_plain; try assumption.
      apply (IH r _ d'); [lia | assumption | exact Hgo]. }
    cbn [findMatchingBrace_loop] in H.
    destruct (ceq ch c_sq) eqn:Esq.
    { apply ceq_eq in Esq.
      destruct (Span InSingle) as (content & rest & -> & Hscan & -> & Hcl);
        [discriminate | exact Esq | exact H |].
      apply closed_quoted; [right; exact Esq | exact Hscan | exact Hcl]. }
    destruct (ceq ch c_dq) eqn:Edq.
    { apply ceq_eq in Edq.
      destruct (Span InDouble) as (content & rest & -> & Hscan & -> & Hcl);
        [discriminate | exact Edq | exact H |].
      apply closed_quoted; [left; exact Edq | exact Hscan | exact Hcl]. }
    destruct (ceq ch c_bt) eqn:Ebt.
    { apply ceq_eq in Ebt.
      destruct (Span InTemplate) as (content & rest & -> & Hscan & -> & Hcl);
        [discriminate | exact Ebt | exact H |].
      subst ch. apply closed_template; [|exact Hcl].
      now rewrite (template_span_scan _ _ (le_n _)). }
    destruct (ceq ch c_lbrace).
    { apply (Plain (d + 1)%Z); first [assumption | reflexivity | lia]. }
    destruct (ceq ch c_rbrace).
    { destruct (d - 1 =? 0)%Z eqn:Ez.
      - apply Nat2Z.inj in H. subst k. rewrite Nat.sub_diag. apply closed_nil.
      - apply Z.eqb_neq in Ez.
        apply (Plain (d - 1)%Z); first [assumption | reflexivity | lia]. }
    apply (Plain d); first [assumption | reflexivity].
Qed.

(** The body that the brace matcher delimits is a text the scanner reads to
    its end from outside every span: when the search from an opening brace
    finds its closing brace, every string and every template span that opens
    between the two is closed between the two. *)
Theorem matched_body_closed (text : str) (openIndex closeIndex : nat) :
  nth_error text openIndex = Some c_lbrace ->
  findMatchingBrace text openIndex = Z.of_nat closeIndex ->
  closed_text (slice text (openIndex + 1) closeIndex).
Proof.
  intros Hopen H. unfold findMatchingBrace in H.
  rewrite (skipn_nth_error_cons _ _ _ _ Hopen) in H.
  cbn [findMatchingBrace_loop] in H.
  change (ceq c_lbrace c_sq) with false in H.
  change (ceq c_lbrace c_dq) with false in H.
  change (ceq c_lbrace c_bt) with false in H.
  change (ceq c_lbrace c_lbrace) with true in H. cbn iota in H.
  unfold slice.
  replace (openIndex + 1) with (S openIndex) in * by lia.
  apply (findMatchingBrace_loop_closed _ _ _ 1 _ (le_n _)); [lia | exact H].
Qed.

Lemma matched_body_closed_witness :
  closed_text (slice (u "<a b={f('}', `{`) + {c: 'd'}} e='") (5 + 1) 28).
Proof.
  apply (matched_body_closed (u "<a b={f('}', `{`) + {c: 'd'}} e='") 5 28);
    reflexivity.
Defined.

(** ** Buffers with a single expression value *)

Lemma not_brace_false (c : char) :
  not_brace c = true -> ceq c c_lbrace = false /\ ceq c c_rbrace = false.
Proof.
  unfold not_brace, is_brace.
  destruct (ceq c c_lbrace), (ceq c c_rbrace); try discriminate. auto.
Qed.

(** The brace matcher goes through a closed span to the character after
    it. *)
Lemma findMatchingBrace_loop_through_span (m : lex_mode) (n : nat) :
  m <> Normal ->
  forall content,
    length content <= n ->
    scan_quoted (closer m) (content ++ [closer m]) = Some (content, []) ->
    forall rest i d,
      findMatchingBrace_loop (content ++ closer m :: rest) i d
        (in_single m) (in_double m) (in_backtick m)
      = findMatchingBrace_loop rest (i + length content + 1) d
          false false false.
Proof.
  intros Hm.
  assert (Eq : ceq (closer m) c_bsl = false) by (now destruct m).
  assert (Base : forall rest i d,
             findMatchingBrace_loop ([] ++ closer m :: rest) i d
               (in_single m) (in_double m) (in_backtick m)
             = findMatchingBrace_loop rest (i + length (@nil char) + 1) d
                 false false false).
  { intros rest i d. cbn [app length].
    rewrite findMatchingBrace_loop_span by assumption.
    now rewrite Eq, ceq_refl, Nat.add_0_r. }
  induction n as [|n IH]; intros content Hn Hscan rest i d.
  - destruct content; [apply Base | simpl in Hn; lia].
  - destruct content as [|c r]; [apply Base|]. simpl in Hn.
    cbn [app] in *. rewrite findMatchingBrace_loop_span by assumption.
    cbn [scan_quoted] in Hscan.
    destruct (ceq c c_bsl) eqn:Eb.
    + destruct r as [|c2 r']; [cbn [app scan_quoted] in Hscan; discriminate|].
      cbn [app] in *. simpl in Hn.
      destruct (scan_quoted (closer m) (r' ++ [closer m])) as [[ct rs]|] eqn:E;
        [|discriminate].
      injection Hscan as E1 E2. subst ct rs.
      rewrite (IH r') by (lia || assumption).
      f_equal. cbn [length]. lia.
    + destruct (ceq c (closer m)) eqn:Ec; [discriminate|].
      destruct (scan_quoted (closer m) (r ++ [closer m])) as [[ct rs]|] eqn:E;
        [|discriminate].
      injection Hscan as E1 E2. subst ct rs.
      rewrite (IH r) by (lia || assumption).
      f_equal. cbn [length]. lia.
Qed.

(** The brace matcher goes through a body at the depth it entered it
    with. *)
Lemma findMatchingBrace_loop_through (P : str -> char -> Prop) (body : str) :
  body_text not_brace P body ->
  forall rest i d,
    (1 <= d)%Z ->
    findMatchingBrace_loop (body ++ rest) i d false false false
    = findMatchingBrace_loop rest (i + length body) d false false false.
Proof.
  induction 1 as [|c s Hb Hd Hs Hc _ IH|q content s Hq Hscan _ _ IH
                 |t s Hspan _ IH|inner s _ IHi _ IH]; intros rest i d Hdepth.
  - cbn [app length]. now rewrite Nat.add_0_r.
  - apply not_brace_false in Hc as [Hl Hr].
    cbn [app findMatchingBrace_loop]. rewrite Hs, Hd, Hb, Hl, Hr.
    rewrite IH by assumption. f_equal. cbn [length]. lia.
  - cbn [app]. rewrite <- app_assoc. cbn [app].
    destruct Hq as [-> | ->].
    + pose proof (findMatchingBrace_loop_through_span InDouble (length content)
                    ltac:(discriminate) content (le_n _) Hscan) as T.
      cbn [in_single in_double in_backtick closer] in T.
      cbn [findMatchingBrace_loop].
      change (ceq c_dq c_sq) with false. change (ceq c_dq c_dq) with true.
      cbn iota. rewrite T, IH by assumption.
      f_equal. cbn [length]. rewrite length_app. cbn [length]. lia.
    + pose proof (findMatchingBrace_loop_through_span InSingle (length content)
                    ltac:(discriminate) content (le_n _) Hscan) as T.
      cbn [in_single in_double in_backtick closer] in T.
      cbn [findMatchingBrace_loop].
      change (ceq c_sq c_sq) with true.
      cbn iota. rewrite T, IH by assumption.
      f_equal. cbn [length]. rewrite length_app. cbn [length]. lia.
  - cbn [app]. rewrite <- app_assoc. cbn [app].
    rewrite (template_span_scan _ _ (le_n _)) in Hspan.
    pose proof (findMatchingBrace_loop_through_span InTemplate (length t)
                  ltac:(discriminate) t (le_n _) Hspan) as T.
    cbn [in_single in_double in_backtick closer] in T.
    cbn [findMatchingBrace_loop].
    change (ceq c_bt c_sq) with false. change (ceq c_bt c_dq) with false.
    change (ceq c_bt c_bt) with true.
    cbn iota. rewrite T, IH by assumption.
    f_equal. cbn [length]. rewrite length_app. cbn [length]. lia.
  - cbn [app]. rewrite <- app_assoc. cbn [app].
    cbn [findMatchingBrace_loop].
    change (ceq c_lbrace c_sq) with false.
    change (ceq c_lbrace c_dq) with false.
    change (ceq c_lbrace c_bt) with false.
    change (ceq c_lbrace c_lbrace) with true. cbn iota.
    rewrite IHi by lia.
    cbn [findMatchingBrace_loop].
    change (ceq c_rbrace c_sq) with false.
    change (ceq c_rbrace c_dq) with false.
    change (ceq c_rbrace c_bt) with false.
    change (ceq c_rbrace c_lbrace) with false.
    change (ceq c_rbrace c_rbrace) with true. cbn iota.
    destruct (d + 1 - 1 =? 0)%Z eqn:Ez; [apply Z.eqb_eq in Ez; lia|].
    replace (d + 1 - 1)%Z with d by lia.
    rewrite IH by assumption.
    f_equal. cbn [length]. rewrite length_app. cbn [length]. lia.
Qed.

Lemma skipn_app_plus (A : Type) (a l : list A) (k : nat) :
  skipn (length a + k) (a ++ l) = skipn k l.
Proof. induction a as [|x a IH]; [reflexivity | exact IH]. Qed.

Lemma firstn_app_plus (A : Type) (a l : list A) (k : nat) :
  firstn (length a + k) (a ++ l) = a ++ firstn k l.
Proof. induction a as [|x a IH]; [reflexivity | cbn; now rewrite IH]. Qed.

Lemma findMatchingBrace_expression (P : str -> char -> Prop)
    (a body after : str) :
  body_text not_brace P body ->
  findMatchingBrace (expression_buffer a body after) (length a + 1)
  = Z.of_nat (length a + 2 + length body).
Proof.
  intros Hbody. unfold findMatchingBrace, expression_buffer.
  rewrite skipn_app_plus. cbn [skipn findMatchingBrace_loop].
  change (ceq c_lbrace c_sq) with false.
  change (ceq c_lbrace c_dq) with false.
  change (ceq c_lbrace c_bt) with false.
  change (ceq c_lbrace c_lbrace) with true. cbn iota.
  rewrite (findMatchingBrace_loop_through P body Hbody) by lia.
  cbn [findMatchingBrace_loop].
  change (ceq c_rbrace c_sq) with false.
  change (ceq c_rbrace c_dq) with false.
  change (ceq c_rbrace c_bt) with false.
  change (ceq c_rbrace c_lbrace) with false.
  change (ceq c_rbrace c_rbrace) with true. cbn.
  f_equal. lia.
Qed.

Lemma open_tail_expression (a rest : str) :
  no_equals a = true ->
  open_tail (a ++ c_eq :: c_lbrace :: rest)
  = if forallb is_space a then Some (None, rest) else None.
Proof.
  intros Ha. unfold open_tail.
  destruct (forallb is_space a) eqn:Ea.
  - rewrite drop_spaces_all by assumption. cbn [drop_spaces].
    change (is_space c_eq) with false. cbn iota. rewrite ceq_refl.
    cbn [drop_spaces]. change (is_space c_lbrace) with false. cbn iota.
    now rewrite ceq_refl.
  - destruct (drop_spaces_stops a (c_eq :: c_lbrace :: rest) Ha Ea)
      as (c & r' & -> & Hc).
    now rewrite Hc.
Qed.

Lemma direct_tail_expression (a rest : str) :
  no_equals a = true ->
  direct_tail (a ++ c_eq :: c_lbrace :: rest) = None.
Proof.
  intros Ha. unfold direct_tail.
  destruct (forallb is_space a) eqn:Ea.
  - rewrite drop_spaces_all by assumption. cbn [drop_spaces].
    change (is_space c_eq) with false. cbn iota. rewrite ceq_refl.
    cbn [drop_spaces]. change (is_space c_lbrace) with false. cbn iota.
    reflexivity.
  - destruct (drop_spaces_stops a (c_eq :: c_lbrace :: rest) Ha Ea)
      as (c & r' & -> & Hc).
    now rewrite Hc.
Qed.

Lemma no_equals_tail (r1 r : str) :
  no_equals (r1 ++ r) = true -> no_equals r = true.
Proof. rewrite no_equals_app. intros H. now apply andb_true_iff in H. Qed.

(** In a buffer with one equals sign, followed by an opening brace, a tail
    of the buffer is the opening of an expression value exactly when it is
    white space up to the equals sign, and the opening of a direct value
    never. *)
Lemma tails_expression (k : str -> found) (x : option str * str)
    (a rest n r : str) :
  (forall s, no_equals s = true -> k s = None) ->
  (forall l, no_equals l = true ->
             k (l ++ c_eq :: c_lbrace :: rest)
             = if forallb is_space l then Some x else None) ->
  no_equals a = true -> no_equals rest = true ->
  a ++ c_eq :: c_lbrace :: rest = n ++ r ->
  forall y, k r = Some y ->
            y = x /\ exists a3, a = n ++ a3 /\ forallb is_space a3 = true.
Proof.
  intros Hnone Hk Ha Hrest E y Hy.
  apply app_eq_app in E as [l [[E1 E2]|[E1 E2]]].
  - subst a r. apply no_equals_tail in Ha.
    rewrite Hk in Hy by assumption.
    destruct (forallb is_space l) eqn:El; [|discriminate].
    injection Hy as <-. split; [reflexivity|]. now exists l.
  - destruct l as [|c l].
    + simpl in E2. subst r. rewrite app_nil_r in E1. subst n.
      pose proof (Hk [] eq_refl) as Hk0. cbn [app forallb] in Hk0.
      rewrite Hk0 in Hy.
      injection Hy as <-. split; [reflexivity|].
      exists []. now rewrite app_nil_r.
    + injection E2 as _ E2.
      assert (Hr : no_equals r = true).
      { destruct l as [|c' l]; [simpl in E2; now subst r|].
        injection E2 as _ E2. rewrite E2 in Hrest.
        now apply no_equals_tail in Hrest. }
      rewrite (Hnone r Hr) in Hy. discriminate.
Qed.

Lemma match_segs_expression (segs : list str) (a rest : str) :
  no_equals a = true -> no_equals rest = true ->
  match_segs segs (a ++ c_eq :: c_lbrace :: rest) open_tail
  = if hits_here segs a then Some (None, rest) else None.
Proof.
  intros Ha Hrest.
  assert (Sound : forall y,
             match_segs segs (a ++ c_eq :: c_lbrace :: rest) open_tail = Some y ->
             y = (None, rest) /\ hits_here segs a = true).
  { intros y H. apply match_segs_sound in H as (n & r & E & Hn & Hk).
    destruct (tails_expression open_tail (None, rest) a rest n r
                open_tail_no_equals (fun l Hl => open_tail_expression l rest Hl)
                Ha Hrest E y Hk) as (-> & a3 & -> & Hs).
    split; [reflexivity|]. apply hits_here_iff. exists n, a3. auto. }
  destruct (hits_here segs a) eqn:Eh.
  - apply hits_here_iff in Eh as (n & a3 & -> & Hn & Hs).
    pose proof (no_equals_tail _ _ Ha) as Ha3.
    destruct (match_segs_complete segs n (a3 ++ c_eq :: c_lbrace :: rest)
                open_tail Hn) as [y Hy].
    { rewrite open_tail_expression by assumption. rewrite Hs. eauto. }
    rewrite <- app_assoc. rewrite Hy. f_equal.
    apply (Sound y). now rewrite <- app_assoc.
  - destruct (match_segs segs (a ++ c_eq :: c_lbrace :: rest) open_tail)
      as [y|] eqn:E; [|reflexivity].
    destruct (Sound y eq_refl) as [_ H]. discriminate.
Qed.

Lemma match_alts_expression (alts : list (list str)) (a rest : str) :
  no_equals a = true -> no_equals rest = true ->
  match_alts alts (a ++ c_eq :: c_lbrace :: rest) open_tail
  = if hits_any alts a then Some (None, rest) else None.
Proof.
  intros Ha Hrest. induction alts as [|segs alts IH]; [reflexivity|].
  cbn [match_alts hits_any existsb].
  rewrite match_segs_expression by assumption.
  destruct (hits_here segs a); [reflexivity | exact IH].
Qed.

Lemma find_from_open_no_equals (alts : list (list str)) (s : str) (i : nat) :
  no_equals s = true -> find_from (ReOpen alts) s i = None.
Proof.
  intros Hs. apply find_from_open_none. intros n r ->.
  apply open_tail_no_equals. now apply no_equals_tail in Hs.
Qed.

Lemma find_from_expression (alts : list (list str)) (rest : str) :
  no_equals rest = true ->
  forall a i,
    no_equals a = true ->
    find_from (ReOpen alts) (a ++ c_eq :: c_lbrace :: rest) i
    = match first_hit_any alts a with
      | Some j => Some (i + j, i + length a + 2, None)
      | None => None
      end.
Proof.
  intros Hrest. induction a as [|c a IH]; intros i Ha.
  - rewrite find_from_unfold. cbn [match_here first_hit_any].
    rewrite (match_alts_expression alts [] rest) by (assumption || reflexivity).
    destruct (hits_any alts []).
    + cbn [app length]. do 3 f_equal; lia.
    + cbn [app]. apply find_from_open_no_equals. exact Hrest.
  - rewrite find_from_unfold. cbn [match_here first_hit_any].
    rewrite match_alts_expression by assumption.
    destruct (hits_any alts (c :: a)).
    + rewrite !length_app. cbn [length]. do 3 f_equal; lia.
    + cbn [app]. simpl in Ha. apply andb_true_iff in Ha as [_ Ha].
      rewrite (IH (S i) Ha).
      destruct (first_hit_any alts a) as [j|]; [|reflexivity].
      cbn [length]. do 3 f_equal; lia.
Qed.

Lemma find_from_direct_none (re : RegExp) (segs : list str) (s : str) :
  segs_of re = Some segs ->
  (forall n r, s = n ++ r -> direct_tail r = None) ->
  forall i, find_from re s i = None.
Proof.
  intros Hre. induction s as [|c s IH]; intros Hs i; rewrite find_from_unfold;
    rewrite (match_here_segs re segs _ Hre).
  - destruct (match_segs segs [] direct_tail) as [x|] eqn:E; [|reflexivity].
    apply match_segs_sound in E as (n & r & E & _ & Hk).
    now rewrite (Hs n r E) in Hk.
  - destruct (match_segs segs (c :: s) direct_tail) as [x|] eqn:E.
    + apply match_segs_sound in E as (n & r & E & _ & Hk).
      now rewrite (Hs n r E) in Hk.
    + apply IH. intros n r E'. apply (Hs (c :: n) r). now rewrite E'.
Qed.

Lemma String_replace_none (host : RegExpHost) (re : RegExp) (segs : list str)
    (replacer : str -> option str -> outcome) (text : str) :
  segs_of re = Some segs ->
  (forall i, find_from re text i = None) ->
  String_replace host text re replacer = Ok text.
Proof.
  intros Hre Hnone. unfold String_replace.
  replace (length text + 2) with (S (S (length text))) by lia.
  cbn [replace_loop]. rewrite (exec_direct host re segs text 0 Hre).
  cbn [Nat.ltb Nat.leb skipn]. now rewrite Hnone.
Qed.

Lemma direct_pass_none (host : RegExpHost) (patterns : list RegExp)
    (replacer : str -> option str -> outcome) (text : str) :
  Forall (fun re => segs_of re <> None
                    /\ forall i, find_from re text i = None) patterns ->
  direct_pass host patterns replacer text = Ok text.
Proof.
  intros Hpats. unfold direct_pass.
  induction Hpats as [|re l [Hre Hnone] _ IH]; [reflexivity|].
  cbn [fold_left].
  destruct (segs_of re) as [segs|] eqn:E; [|congruence].
  now rewrite (String_replace_none host re segs replacer text E).
Qed.

Lemma expression_pass_none (host : RegExpHost) (config : ClassPrefixerConfig)
    (add : bool) (text : str) :
  useRegex config = false ->
  (forall alts i, find_from (ReOpen alts) text i = None) ->
  processExpressionAttributeLiterals host text config add = Ok text.
Proof.
  intros Hre Hnone. unfold processExpressionAttributeLiterals.
  unfold buildAttrNameAlternation. rewrite Hre. cbn [startRe].
  replace (length text + 2) with (S (S (length text))) by lia.
  cbn [expression_loop]. unfold exec. cbn [Nat.ltb Nat.leb skipn].
  now rewrite Hnone.
Qed.

(** A buffer with no equals sign comes back as it is from adding and from
    removing, when [useRegex] is off: no expression of the program matches
    without an equals sign after the name. *)
Theorem no_equals_unchanged (host : RegExpHost) (config : ClassPrefixerConfig)
    (text : str) :
  useRegex config = false ->
  no_equals text = true ->
  addPrefixToClasses host text config = Ok text
  /\ removePrefixFromClasses host text config = Ok text.
Proof.
  intros Hre Ht.
  pose proof (buildPatterns_direct host config Hre) as Hpats.
  assert (D : forall replacer,
             direct_pass host (fst (buildPatterns host config)) replacer text
             = Ok text).
  { intros replacer. apply direct_pass_none.
    apply Forall_impl with (2 := Hpats). intros re Hs. split; [exact Hs|].
    destruct (segs_of re) as [segs|] eqn:E; [|congruence].
    intros i. now apply (find_from_no_equals re segs). }
  assert (X : forall add,
             processExpressionAttributeLiterals host text config add = Ok text).
  { intros add. apply expression_pass_none; [exact Hre|].
    intros alts i. now apply find_from_open_no_equals. }
  unfold addPrefixToClasses, removePrefixFromClasses. cbn zeta.
  rewrite !D. now rewrite !X.
Qed.

Lemma no_equals_unchanged_witness :
  addPrefixToClasses strict_host (u "<div>{cn('a b')}</div>") test_config
  = Ok (u "<div>{cn('a b')}</div>")
  /\ removePrefixFromClasses strict_host (u "<div>{cn('a b')}</div>")
       test_config
     = Ok (u "<div>{cn('a b')}</div>").
Proof.
  apply (no_equals_unchanged strict_host test_config
           (u "<div>{cn('a b')}</div>")); reflexivity.
Defined.

(** ** The runs on a buffer with a single expression value *)

Lemma expression_buffer_length (a body after : str) :
  length (expression_buffer a body after)
  = length a + 2 + length body + 1 + length after.
Proof.
  unfold expression_buffer. rewrite length_app. cbn [length].
  rewrite length_app. cbn [length]. lia.
Qed.

Lemma firstn_expression_before (a body after : str) :
  firstn (length a + 2) (expression_buffer a body after)
  = a ++ [c_eq; c_lbrace].
Proof. unfold expression_buffer. now rewrite firstn_app_plus. Qed.

Lemma skipn_expression_body (a body after : str) :
  skipn (length a + 2) (expression_buffer a body after)
  = body ++ c_rbrace :: after.
Proof. unfold expression_buffer. now rewrite skipn_app_plus. Qed.

Lemma skipn_expression_after (a body after : str) :
  skipn (length a + 2 + length body + 1) (expression_buffer a body after)
  = after.
Proof.
  replace (length a + 2 + length body + 1)
    with (length a + S (S (length body + 1))) by lia.
  unfold expression_buffer. rewrite skipn_app_plus. cbn [skipn].
  now rewrite skipn_app_plus.
Qed.

Lemma no_equals_rest (body after : str) :
  no_equals body = true -> no_equals after = true ->
  no_equals (body ++ c_rbrace :: after) = true.
Proof.
  intros Hb Ha. rewrite no_equals_app, Hb. unfold no_equals in *.
  cbn [forallb]. now rewrite Ha.
Qed.

(** A tail of such a buffer either holds the equals sign, or has none. *)
Lemma suffix_cases (a rest n r : str) :
  no_equals rest = true ->
  a ++ c_eq :: c_lbrace :: rest = n ++ r ->
  (exists l, a = n ++ l /\ r = l ++ c_eq :: c_lbrace :: rest)
  \/ no_equals r = true.
Proof.
  intros Hrest E. apply app_eq_app in E as [l [[E1 E2]|[E1 E2]]].
  - left. now exists l.
  - destruct l as [|c l].
    + left. exists []. simpl in E2. subst r. rewrite app_nil_r in *.
      now subst n.
    + right. injection E2 as _ E2.
      destruct l as [|c' l]; [simpl in E2; now subst r|].
      injection E2 as _ E2. rewrite E2 in Hrest.
      now apply no_equals_tail in Hrest.
Qed.

Lemma find_from_direct_expression (re : RegExp) (segs : list str)
    (a body after : str) (i : nat) :
  segs_of re = Some segs ->
  no_equals a = true -> no_equals body = true -> no_equals after = true ->
  find_from re (expression_buffer a body after) i = None.
Proof.
  intros Hre Ha Hb Hafter. apply (find_from_direct_none re segs); [exact Hre|].
  intros n r E. unfold expression_buffer in E.
  apply suffix_cases in E as [(l & -> & ->)|Hr];
    [| now apply direct_tail_no_equals | now apply no_equals_rest].
  apply direct_tail_expression. now apply no_equals_tail in Ha.
Qed.

(** One turn of the loop of the expression pass. *)
Lemma expression_loop_found (fuel : nat) (host : RegExpHost) (re : RegExp)
    (transform : str -> str) (text : str) (reIndex lastIndex : nat)
    (s e close : nat) (g : option str) :
  exec host re text reIndex = Some (s, e, g) ->
  1 <= e ->
  findMatchingBrace text (e - 1) = Z.of_nat close ->
  expression_loop (S fuel) host re transform text reIndex lastIndex
  = match expression_loop fuel host re transform text (close + 1) (close + 1)
    with
    | Ok rest =>
        Ok (slice text lastIndex e ++ transform (slice text e close)
              ++ [c_rbrace] ++ rest)
    | o => o
    end.
Proof.
  intros Hexec He Hclose. cbn [expression_loop]. rewrite Hexec. cbv zeta.
  replace (Z.to_nat (Z.of_nat e - 1)) with (e - 1) by lia.
  rewrite Hclose.
  destruct (Z.eqb_spec (Z.of_nat close) (-1)) as [E|_]; [lia|].
  replace (Z.to_nat (Z.of_nat e - 1 + 1)) with e by lia.
  rewrite Nat2Z.id.
  replace (Z.to_nat (Z.of_nat close + 1)) with (close + 1) by lia.
  reflexivity.
Qed.

Lemma expression_loop_done (fuel : nat) (host : RegExpHost) (re : RegExp)
    (transform : str -> str) (text : str) (reIndex lastIndex : nat) :
  exec host re text reIndex = None ->
  expression_loop (S fuel) host re transform text reIndex lastIndex
  = Ok (skipn lastIndex text).
Proof. intros H. cbn [expression_loop]. now rewrite H. Qed.

Lemma expression_loop_buffer (host : RegExpHost) (alts : list (list str))
    (transform : str -> str) (P : str -> char -> Prop) (a body after : str)
    (fuel : nat) :
  no_equals a = true -> no_equals body = true -> no_equals after = true ->
  body_text not_brace P body ->
  expression_loop (S (S fuel)) host (ReOpen alts) transform
    (expression_buffer a body after) 0 0
  = Ok (expression_buffer a
          (if name_found alts a then transform body else body) after).
Proof.
  intros Ha Hb Hafter Hbody.
  pose proof (no_equals_rest body after Hb Hafter) as Hrest.
  pose proof (expression_buffer_length a body after) as Hlen.
  assert (Hexec : exec host (ReOpen alts) (expression_buffer a body after) 0
                  = match first_hit_any alts a with
                    | Some j => Some (0 + j, 0 + length a + 2, None)
                    | None => None
                    end).
  { unfold exec. cbn [Nat.ltb Nat.leb skipn].
    unfold expression_buffer. now apply find_from_expression. }
  unfold name_found. destruct (first_hit_any alts a) as [j|].
  - rewrite (expression_loop_found _ _ _ _ _ _ _ _ _
               (length a + 2 + length body) _ Hexec); [|lia|].
    + rewrite expression_loop_done.
      * unfold slice.
        replace (0 + length a + 2 - 0) with (length a + 2) by lia.
        replace (0 + length a + 2) with (length a + 2) by lia.
        replace (length a + 2 + length body - (length a + 2))
          with (length body + 0) by lia.
        cbn [skipn]. rewrite firstn_expression_before, skipn_expression_body.
        rewrite firstn_app_plus. cbn [firstn]. rewrite app_nil_r.
        rewrite skipn_expression_after.
        unfold expression_buffer. rewrite <- app_assoc. reflexivity.
      * unfold exec.
        destruct (Nat.ltb_spec (length (expression_buffer a body after))
                    (length a + 2 + length body + 1)) as [Hlt|_]; [lia|].
        rewrite skipn_expression_after.
        now apply find_from_open_no_equals.
    + replace (0 + length a + 2 - 1) with (length a + 1) by lia.
      now apply (findMatchingBrace_expression P).
  - now rewrite expression_loop_done.
Qed.

Lemma expression_pass_buffer (host : RegExpHost) (config : ClassPrefixerConfig)
    (add : bool) (P : str -> char -> Prop) (a body after : str) :
  useRegex config = false ->
  no_equals a = true -> no_equals body = true -> no_equals after = true ->
  body_text not_brace P body ->
  processExpressionAttributeLiterals host (expression_buffer a body after)
    config add
  = Ok (expression_buffer a
          (if name_found (expression_names config) a
           then rq (expression_replacer config add) false body
           else body) after).
Proof.
  intros Hre Ha Hb Hafter Hbody.
  unfold processExpressionAttributeLiterals, expression_names.
  destruct (buildAttrNameAlternation config) as [alts|source] eqn:E;
    [|unfold buildAttrNameAlternation in E; rewrite Hre in E; discriminate].
  cbn [startRe].
  replace (length (expression_buffer a body after) + 2)
    with (S (S (length (expression_buffer a body after)))) by lia.
  now rewrite (expression_loop_buffer host alts _ P a body after _ Ha Hb Hafter).
Qed.

(** Both runs on a buffer with a single expression value: the direct-value
    pass finds nothing, and the expression pass hands the body to the
    scanner when one of its names stands before the equals sign. *)
Lemma run_expression_buffer (host : RegExpHost) (config : ClassPrefixerConfig)
    (add : bool) (P : str -> char -> Prop) (a body after : str) :
  useRegex config = false ->
  no_equals a = true -> no_equals body = true -> no_equals after = true ->
  body_text not_brace P body ->
  (if add then addPrefixToClasses host (expression_buffer a body after) config
   else removePrefixFromClasses host (expression_buffer a body after) config)
  = Ok (expression_buffer a
          (if name_found (expression_names config) a
           then rq (expression_replacer config add) false body
           else body) after).
Proof.
  intros Hre Ha Hb Hafter Hbody.
  pose proof (buildPatterns_direct host config Hre) as Hpats.
  assert (D : forall replacer,
             direct_pass host (fst (buildPatterns host config)) replacer
               (expression_buffer a body after)
             = Ok (expression_buffer a body after)).
  { intros replacer. apply direct_pass_none.
    apply Forall_impl with (2 := Hpats). intros re Hs. split; [exact Hs|].
    destruct (segs_of re) as [segs|] eqn:E; [|congruence].
    intros i. now apply (find_from_direct_expression re segs). }
  destruct add; unfold addPrefixToClasses, removePrefixFromClasses; cbn zeta;
    rewrite D; now apply (expression_pass_buffer host config _ P).
Qed.

(** On a buffer with one equals sign, followed by an expression value whose
    braces outside strings and template spans are paired, adding and
    removing return the buffer with the scanner's result for the body in
    place of the body when one of the names of the configuration stands
    before the equals sign, and the buffer as it is when none does. Here
    [useRegex] is off and the equals sign is the only one of the buffer. *)
Theorem expression_value_run (host : RegExpHost)
    (config : ClassPrefixerConfig) (addPrefix : bool)
    (before body after : str) :
  useRegex config = false ->
  no_equals before = true -> no_equals body = true ->
  no_equals after = true ->
  body_text not_brace (fun _ _ => True) body ->
  (if addPrefix
   then addPrefixToClasses host (expression_buffer before body after) config
   else removePrefixFromClasses host (expression_buffer before body after)
          config)
  = Ok (expression_buffer before
          (if name_found (expression_names config) before
           then replaceQuotedStringsIgnoringTemplates body
                  (expression_replacer config addPrefix)
           else body) after).
Proof. apply run_expression_buffer. Qed.

Lemma expression_value_run_witness :
  (if true
   then addPrefixToClasses strict_host
          (expression_buffer (u "<a className") (u "cn('x', {y: 0})") (u "/>"))
          test_config
   else removePrefixFromClasses strict_host
          (expression_buffer (u "<a className") (u "cn('x', {y: 0})") (u "/>"))
          test_config)
  = Ok (expression_buffer (u "<a className")
          (if name_found (expression_names test_config) (u "<a className")
           then replaceQuotedStringsIgnoringTemplates (u "cn('x', {y: 0})")
                  (expression_replacer test_config true)
           else u "cn('x', {y: 0})") (u "/>")).
Proof.
  apply (expression_value_run strict_host test_config true (u "<a className")
           (u "cn('x', {y: 0})") (u "/>")); try reflexivity.
  do 3 (apply body_plain; [reflexivity | reflexivity | reflexivity | reflexivity |]).
  apply (body_quoted _ _ c_sq (u "x") (u ", {y: 0})"));
    [right; reflexivity | reflexivity | exact I |].
  do 2 (apply body_plain; [reflexivity | reflexivity | reflexivity | reflexivity |]).
  apply (body_braced _ _ (u "y: 0") (u ")")).
  - do 4 (apply body_plain; [reflexivity | reflexivity | reflexivity | reflexivity |]).
    apply body_nil.
  - apply body_plain; [reflexivity | reflexivity | reflexivity | reflexivity |].
    apply body_nil.
Defined.

Lemma rq_ext (f g : str -> char -> str) :
  (forall content q, f content q = g content q) ->
  forall fuel b s, rq_loop fuel f b s = rq_loop fuel g b s.
Proof.
  intros H. induction fuel as [|fuel IH]; intros b s; [reflexivity|].
  cbn [rq_loop]. destruct s as [|ch r]; [reflexivity|].
  destruct b.
  - destruct (ceq ch c_bsl); [destruct r; now rewrite IH|].
    destruct (ceq ch c_bt); now rewrite IH.
  - destruct (ceq ch c_bt); [now rewrite IH|].
    destruct (ceq ch c_dq || ceq ch c_sq); [|now rewrite IH].
    destruct (scan_quoted ch r) as [[content rest]|]; [|now rewrite IH].
    now rewrite H, IH.
Qed.

Lemma rq_body_chars (Q : char -> bool) (plain : char -> bool)
    (P : str -> char -> Prop) (f : str -> char -> str) (s : str) :
  (forall content q,
      P content q -> forallb Q content = true ->
      forallb Q (f content q) = true) ->
  body_text plain P s ->
  forallb Q s = true -> forallb Q (rq f false s) = true.
Proof.
  intros Hf. induction 1 as [|c s Hb Hd Hs Hc _ IH|q content s Hq Hscan HP _ IH
                            |t s Hspan _ IH|inner s Hi IHi _ IH]; intros HQ.
  - reflexivity.
  - rewrite rq_plain_cons by assumption. cbn [forallb] in *.
    apply andb_true_iff in HQ as [H1 H2]. now rewrite H1, IH.
  - rewrite rq_quoted_cons by assumption. cbn [forallb] in *.
    apply andb_true_iff in HQ as [H1 H2]. rewrite forallb_app in H2.
    apply andb_true_iff in H2 as [H2 H3]. cbn [forallb] in H3.
    apply andb_true_iff in H3 as [_ H3].
    rewrite H1, forallb_app, (Hf content q HP H2). cbn [forallb].
    now rewrite H1, IH.
  - rewrite rq_template_cons by assumption. cbn [forallb] in *.
    apply andb_true_iff in HQ as [H1 H2]. rewrite forallb_app in H2.
    apply andb_true_iff in H2 as [H2 H3]. cbn [forallb] in H3.
    apply andb_true_iff in H3 as [_ H3].
    rewrite H1, forallb_app, H2. cbn [forallb]. now rewrite H1, IH.
  - rewrite rq_braced_cons by (eapply body_text_closed; eassumption).
    cbn [forallb] in *.
    apply andb_true_iff in HQ as [H1 H2]. rewrite forallb_app in H2.
    apply andb_true_iff in H2 as [H2 H3]. cbn [forallb] in H3.
    apply andb_true_iff in H3 as [H3 H4].
    rewrite H1, forallb_app, (IHi H2). cbn [forallb]. now rewrite H3, IH.
Qed.

(** A run after an adding run, on a buffer with a single expression value
    whose strings have no quote and no backslash in them. *)
Lemma run_after_add (host : RegExpHost) (config : ClassPrefixerConfig)
    (add : bool) (a body after : str) :
  useRegex config = false ->
  forallb string_char (prefix config) = true ->
  no_equals (prefix config) = true ->
  no_equals a = true -> no_equals body = true -> no_equals after = true ->
  body_text not_brace (fun content _ => forallb string_char content = true)
    body ->
  exists added,
    addPrefixToClasses host (expression_buffer a body after) config = Ok added
    /\ (if add then addPrefixToClasses host added config
        else removePrefixFromClasses host added config)
       = Ok (expression_buffer a
               (if name_found (expression_names config) a
                then rq (fun content q =>
                           expression_replacer config add
                             (expression_replacer config true content q) q)
                       false body
                else body) after).
Proof.
  intros Hre Hp Hpe Ha Hb Hafter Hbody.
  pose proof (run_expression_buffer host config true _ a body after
                Hre Ha Hb Hafter Hbody) as Hadd.
  cbv iota in Hadd. rewrite Hadd. eexists. split; [reflexivity|].
  destruct (name_found (expression_names config) a) eqn:Ef.
  - assert (Hsafe : forall content,
               forallb string_char content = true ->
               forallb string_char (expression_replacer config true content c_sp)
               = true).
    { intros content Hc. unfold expression_replacer.
      now apply processClasses_add_chars. }
    rewrite (run_expression_buffer host config add
               (fun content _ => forallb string_char content = true));
      try assumption.
    + rewrite Ef. do 2 f_equal. apply rq_compose.
      revert Hbody. apply body_text_map; [reflexivity|].
      intros content q Hq _ Hc. apply string_char_scan; [assumption|].
      exact (Hsafe content Hc).
    + apply (rq_body_chars (fun c => negb (ceq c c_eq)) not_brace
               (fun content _ => forallb string_char content = true));
        [|exact Hbody|exact Hb].
      intros content q _ Hc. unfold expression_replacer.
      now apply processClasses_add_chars.
    + revert Hbody. apply rq_body_text. intros content q Hq Hc.
      split; [|exact (Hsafe content Hc)].
      apply string_char_scan; [assumption | exact (Hsafe content Hc)].
  - rewrite (run_expression_buffer host config add _ a body after
               Hre Ha Hb Hafter Hbody).
    now rewrite Ef.
Qed.

(** Adding twice is adding once on a buffer with a single expression value:
    the expression pass puts each processed class list between the quotes
    where it found the old one. Here [useRegex] is off, the equals sign is
    the only one of the buffer, the braces of the body outside strings and
    template spans are paired, and neither the prefix nor a string of the
    body has a quote or a backslash in it; the prefix has no white space
    and no equals sign. *)
Theorem expression_value_add_idempotent (host : RegExpHost)
    (config : ClassPrefixerConfig) (before body after : str) :
  useRegex config = false ->
  no_space (prefix config) = true ->
  forallb string_char (prefix config) = true ->
  no_equals (prefix config) = true ->
  no_equals before = true -> no_equals body = true ->
  no_equals after = true ->
  body_text not_brace (fun content _ => forallb string_char content = true)
    body ->
  exists added,
    addPrefixToClasses host (expression_buffer before body after) config
    = Ok added
    /\ addPrefixToClasses host added config = Ok added.
Proof.
  intros Hre Hns Hp Hpe Ha Hb Hafter Hbody.
  destruct (run_after_add host config true before body after
              Hre Hp Hpe Ha Hb Hafter Hbody) as (added & Hadd & Htwice).
  exists added. split; [exact Hadd|]. cbv iota in Htwice. rewrite Htwice.
  pose proof (run_expression_buffer host config true _ before body after
                Hre Ha Hb Hafter Hbody) as Hadd'.
  cbv iota in Hadd'. rewrite Hadd' in Hadd. rewrite <- Hadd.
  destruct (name_found (expression_names config) before); [|reflexivity].
  do 2 f_equal. apply rq_ext. intros content q. unfold expression_replacer.
  now apply add_idempotent_any.
Qed.

Lemma expression_value_add_idempotent_witness :
  exists added,
    addPrefixToClasses strict_host
      (expression_buffer (u "<a className") (u "cn('x app-y', {'z': `w`})")
         (u "/>"))
      (test_config_skipping [u "z"])
    = Ok added
    /\ addPrefixToClasses strict_host added (test_config_skipping [u "z"])
       = Ok added.
Proof.
  apply (expression_value_add_idempotent strict_host
           (test_config_skipping [u "z"]) (u "<a className")
           (u "cn('x app-y', {'z': `w`})") (u "/>"));
    try reflexivity.
  do 3 (apply body_plain; [reflexivity | reflexivity | reflexivity | reflexivity |]).
  apply (body_quoted _ _ c_sq (u "x app-y") (u ", {'z': `w`})"));
    [right; reflexivity | reflexivity | reflexivity |].
  do 2 (apply body_plain; [reflexivity | reflexivity | reflexivity | reflexivity |]).
  apply (body_braced _ _ (u "'z': `w`") (u ")")).
  - apply (body_quoted _ _ c_sq (u "z") (u ": `w`"));
      [right; reflexivity | reflexivity | reflexivity |].
    do 2 (apply body_plain; [reflexivity | reflexivity | reflexivity | reflexivity |]).
    apply (body_template _ _ (u "w") []); [reflexivity | apply body_nil].
  - apply body_plain; [reflexivity | reflexivity | reflexivity | reflexivity |].
    apply body_nil.
Defined.

(** Removing after adding gives back a buffer with a single expression
    value: [useRegex] is off, the equals sign is the only one of the buffer,
    the braces of the body outside strings and template spans are paired,
    and each string of the body holds a class list in normal form (single
    spaces, no class name that starts with the prefix, no quote and no
    backslash); the prefix has no white space, quote, backslash or equals
    sign. *)
Theorem expression_value_round_trip (host : RegExpHost)
    (config : ClassPrefixerConfig) (before body after : str) :
  useRegex config = false ->
  no_space (prefix config) = true ->
  forallb string_char (prefix config) = true ->
  no_equals (prefix config) = true ->
  no_equals before = true -> no_equals body = true ->
  no_equals after = true ->
  body_text not_brace
    (fun content _ => plain_class_list (prefix config) content = true) body ->
  exists added,
    addPrefixToClasses host (expression_buffer before body after) config
    = Ok added
    /\ removePrefixFromClasses host added config
       = Ok (expression_buffer before body after).
Proof.
  intros Hre Hns Hp Hpe Ha Hb Hafter Hbody.
  assert (Hbody' : body_text not_brace
                     (fun content _ => forallb string_char content = true)
                     body).
  { revert Hbody. apply body_text_map; [auto|].
    intros content q _ _ H. unfold plain_class_list in H.
    apply andb_true_iff in H as [H _]. now apply andb_true_iff in H as [H _]. }
  destruct (run_after_add host config false before body after
              Hre Hp Hpe Ha Hb Hafter Hbody') as (added & Hadd & Hback).
  exists added. split; [exact Hadd|]. cbv iota in Hback. rewrite Hback.
  destruct (name_found (expression_names config) before); [|reflexivity].
  do 2 f_equal.
  rewrite <- (body_round_trip_any not_brace config body Hns Hp Hbody) at 2.
  symmetry. apply rq_compose.
  revert Hbody'. apply body_text_map; [reflexivity|].
  intros content q Hq _ Hc. apply string_char_scan; [assumption|].
  unfold expression_replacer. now apply processClasses_add_chars.
Qed.

Lemma expression_value_round_trip_witness :
  exists added,
    addPrefixToClasses strict_host
      (expression_buffer (u "<a className") (u "cn('x y', {'z': `w`})")
         (u "/>"))
      (test_config_skipping [u "z"])
    = Ok added
    /\ removePrefixFromClasses strict_host added (test_config_skipping [u "z"])
       = Ok (expression_buffer (u "<a className")
               (u "cn('x y', {'z': `w`})") (u "/>")).
Proof.
  apply (expression_value_round_trip strict_host
           (test_config_skipping [u "z"]) (u "<a className")
           (u "cn('x y', {'z': `w`})") (u "/>"));
    try reflexivity.
  do 3 (apply body_plain; [reflexivity | reflexivity | reflexivity | reflexivity |]).
  apply (body_quoted _ _ c_sq (u "x y") (u ", {'z': `w`})"));
    [right; reflexivity | reflexivity | reflexivity |].
  do 2 (apply body_plain; [reflexivity | reflexivity | reflexivity | reflexivity |]).
  apply (body_braced _ _ (u "'z': `w`") (u ")")).
  - apply (body_quoted _ _ c_sq (u "z") (u ": `w`"));
      [right; reflexivity | reflexivity | reflexivity |].
    do 2 (apply body_plain; [reflexivity | reflexivity | reflexivity | reflexivity |]).
    apply (body_template _ _ (u "w") []); [reflexivity | apply body_nil].
  - apply body_plain; [reflexivity | reflexivity | reflexivity | reflexivity |].
    apply body_nil.
Defined.

(** ** More on the scanner, the token processor and the pattern builder *)

(** After a text whose strings and template spans are all closed, the
    scanner goes on as from the start: its result for the two texts in a
    row is its results for each, in a row. *)
Theorem scanner_after_closed_text (replacer : str -> char -> str)
    (first second : str) :
  closed_text first ->
  replaceQuotedStringsIgnoringTemplates (first ++ second) replacer
  = replaceQuotedStringsIgnoringTemplates first replacer
    ++ replaceQuotedStringsIgnoringTemplates second replacer.
Proof. apply rq_closed_app. Qed.

Lemma scanner_after_closed_text_witness :
  replaceQuotedStringsIgnoringTemplates (u "f('a', `b`) + " ++ u "'c")
    (fun content _ => processClasses content (u "x-") [] true)
  = replaceQuotedStringsIgnoringTemplates (u "f('a', `b`) + ")
      (fun content _ => processClasses content (u "x-") [] true)
    ++ replaceQuotedStringsIgnoringTemplates (u "'c")
         (fun content _ => processClasses content (u "x-") [] true).
Proof.
  apply (scanner_after_closed_text
           (fun content _ => processClasses content (u "x-") [] true)
           (u "f('a', `b`) + ") (u "'c")).
  do 2 (apply closed_plain; [reflexivity | reflexivity | reflexivity |]).
  apply (closed_quoted c_sq (u "a") (u ", `b`) + "));
    [right; reflexivity | reflexivity |].
  do 2 (apply closed_plain; [reflexivity | reflexivity | reflexivity |]).
  apply (closed_template (u "b") (u ") + ")); [reflexivity|].
  do 4 (apply closed_plain; [reflexivity | reflexivity | reflexivity |]).
  apply closed_nil.
Defined.

Lemma map_process_token (p : str) (skip : list str) (l : list str) :
  Forall (fun t => t <> []) l ->
  map (rewrite_token p skip true) l
  = map (fun className =>
           if startsWith className p then className
           else if includes skip className then className
           else p ++ className) l.
Proof.
  induction 1 as [|t l Ht _ IH]; [reflexivity|]. cbn [map]. rewrite IH.
  f_equal. rewrite <- (process_token_rewrite p skip true t Ht).
  destruct t; [congruence | reflexivity].
Qed.

(** Adding keeps the class names apart and in order: split again, the
    result gives one class name for each class name of the class string,
    the class name itself when it starts with the prefix or is in the skip
    list and the class name after the prefix otherwise. The prefix has no
    white space. *)
Theorem processClasses_add_tokens (classString prefix : str)
    (skipClasses : list str) :
  no_space prefix = true ->
  filter non_empty
    (split_ws (processClasses classString prefix skipClasses true))
  = map (fun className =>
           if startsWith className prefix then className
           else if includes skipClasses className then className
           else prefix ++ className)
        (filter non_empty (split_ws classString)).
Proof.
  intros Hp. rewrite !split_tokens. rewrite tokens_of_added by assumption.
  apply map_process_token. apply tokens_go_non_empty.
Qed.

Lemma processClasses_add_tokens_witness :
  filter non_empty
    (split_ws (processClasses (u " a  app-b c ") (u "app-") [u "c"] true))
  = map (fun className =>
           if startsWith className (u "app-") then className
           else if includes [u "c"] className then className
           else u "app-" ++ className)
        (filter non_empty (split_ws (u " a  app-b c "))).
Proof.
  apply (processClasses_add_tokens (u " a  app-b c ") (u "app-") [u "c"]).
  reflexivity.
Defined.

Lemma buildPatterns_fold (host : RegExpHost) (l : list str) :
  forall acc : list RegExp * list str,
    fold_left
      (fun (acc : list RegExp * list str) (pattern : str) =>
         if host_compiles host (direct_source pattern)
         then (fst acc ++ [ReHost (direct_source pattern)], snd acc)
         else (fst acc, snd acc ++ [pattern]))
      l acc
    = (fst acc
       ++ map (fun pattern => ReHost (direct_source pattern))
            (filter (fun pattern => host_compiles host (direct_source pattern))
               l),
       snd acc
       ++ filter (fun pattern =>
                    negb (host_compiles host (direct_source pattern))) l).
Proof.
  induction l as [|pattern l IH]; intros [pats warns].
  - cbn. now rewrite !app_nil_r.
  - cbn [fold_left filter]. rewrite IH.
    destruct (host_compiles host (direct_source pattern)); cbn [fst snd negb map];
      now rewrite <- app_assoc.
Qed.

(** With [useRegex], [buildPatterns] never throws: the expressions are that
    of [className] and then one for each fragment that the constructor
    accepts, in the order of the fragments, and one warning is shown for
    each fragment that it refuses, in that order too. *)
Theorem buildPatterns_regex_partition (host : RegExpHost)
    (config : ClassPrefixerConfig) :
  useRegex config = true ->
  buildPatterns host config
  = (ReDefault
     :: map (fun pattern => ReHost (direct_source pattern))
          (filter (fun pattern => host_compiles host (direct_source pattern))
             (customRegexPatterns config)),
     filter (fun pattern => negb (host_compiles host (direct_source pattern)))
       (customRegexPatterns config)).
Proof.
  intros H. unfold buildPatterns. rewrite H. now rewrite buildPatterns_fold.
Qed.

Lemma buildPatterns_regex_partition_witness :
  buildPatterns strict_host bad_regex_config
  = (ReDefault
     :: map (fun pattern => ReHost (direct_source pattern))
          (filter (fun pattern =>
                     host_compiles strict_host (direct_source pattern))
             (customRegexPatterns bad_regex_config)),
     filter (fun pattern =>
               negb (host_compiles strict_host (direct_source pattern)))
       (customRegexPatterns bad_regex_config)).
Proof.
  apply (buildPatterns_regex_partition strict_host bad_regex_config).
  reflexivity.
Defined.

(** ** Attributes that no pattern names *)

(** On a buffer with one equals sign, followed by a quoted value, adding
    and removing return the buffer as it is when none of the names of the
    configuration stands before the equals sign: an attribute that the
    configuration does not name keeps its value. Here [useRegex] is off and
    the value has no quote, equals sign or dollar sign. *)
Theorem unmatched_attribute_unchanged (host : RegExpHost)
    (config : ClassPrefixerConfig) (before : str) (q : char) (value : str)
    (q2 : char) (after : str) :
  useRegex config = false ->
  is_quote q = true -> is_quote q2 = true ->
  no_equals before = true -> no_equals after = true ->
  forallb value_char value = true ->
  existsb (pattern_hits before) (fst (buildPatterns host config)) = false ->
  addPrefixToClasses host (attribute_buffer before q value q2 after) config
  = Ok (attribute_buffer before q value q2 after)
  /\ removePrefixFromClasses host (attribute_buffer before q value q2 after)
       config
     = Ok (attribute_buffer before q value q2 after).
Proof.
  intros Hre Hq Hq2 Hb Ha Hv Hhit.
  pose proof (buildPatterns_direct host config Hre) as Hpats.
  assert (D : forall replacer,
             direct_pass host (fst (buildPatterns host config)) replacer
               (attribute_buffer before q value q2 after)
             = Ok (attribute_buffer before q value q2 after)).
  { intros replacer. apply direct_pass_none.
    apply Forall_forall. intros re Hin.
    rewrite Forall_forall in Hpats. specialize (Hpats re Hin).
    split; [exact Hpats|].
    destruct (segs_of re) as [segs|] eqn:E; [|congruence].
    intros i.
    rewrite (find_from_attribute q q2 after Hq Hq2 Ha re segs value E Hv)
      by assumption.
    assert (Hn : pattern_hits before re = false).
    { destruct (pattern_hits before re) eqn:Ep; [|reflexivity].
      assert (existsb (pattern_hits before) (fst (buildPatterns host config))
              = true) by (apply existsb_exists; eauto).
      congruence. }
    unfold pattern_hits in Hn. rewrite E in Hn.
    now destruct (first_hit segs before). }
  unfold addPrefixToClasses, removePrefixFromClasses. cbn zeta.
  rewrite !D. split; now apply processExpression_attribute.
Qed.

Lemma unmatched_attribute_unchanged_witness :
  addPrefixToClasses strict_host
    (attribute_buffer (u "<div class") c_sq (u "a b") c_sq (u " />"))
    test_config
  = Ok (attribute_buffer (u "<div class") c_sq (u "a b") c_sq (u " />"))
  /\ removePrefixFromClasses strict_host
       (attribute_buffer (u "<div class") c_sq (u "a b") c_sq (u " />"))
       test_config
     = Ok (attribute_buffer (u "<div class") c_sq (u "a b") c_sq (u " />")).
Proof.
  apply (unmatched_attribute_unchanged strict_host test_config
           (u "<div class") c_sq (u "a b") c_sq (u " />")); reflexivity.
Defined.

(** ** The command *)

Lemma getConfig_autoFormat (settings : Settings) :
  autoFormat (getConfig settings) = true.
Proof.
  unfold getConfig, or_boolean. cbn [autoFormat].
  now destruct (setting_autoFormat settings) as [[|]|].
Qed.

(** Whatever the settings, the configuration of a run has a prefix that is
    not empty, and has [autoFormat] on: an empty prefix gives way to
    [app-], and a setting of [autoFormat] to [false] gives way to
    [true]. *)
Theorem getConfig_invariants (settings : Settings) :
  non_empty (prefix (getConfig settings)) = true
  /\ autoFormat (getConfig settings) = true.
Proof.
  split.
  - unfold getConfig, or_string. cbn [prefix].
    destruct (setting_prefix settings) as [p|]; [|reflexivity].
    destruct (non_empty p) eqn:E; [exact E | reflexivity].
  - apply getConfig_autoFormat.
Qed.

Lemma getConfig_no_regex (settings : Settings) :
  setting_useRegex settings <> Some true ->
  useRegex (getConfig settings) = false.
Proof.
  intros H. unfold getConfig, or_boolean. cbn [useRegex].
  destruct (setting_useRegex settings) as [[|]|]; congruence.
Qed.

(** The command on a supported file, when the [useRegex] setting is not
    on: the run returns a text; when it is the text of the document, one
    message is shown and nothing else happens; otherwise the text of the
    document is replaced, the format command runs, whatever the setting of
    [autoFormat], and one message is shown. No warning and no error is
    shown. *)
Theorem processDocument_wildcard (editorHost : EditorHost)
    (host : RegExpHost) (fileName fullText : str) (settings : Settings)
    (addPrefix : bool) :
  isFileSupported editorHost fileName = true ->
  setting_useRegex settings <> Some true ->
  exists processedText,
    (if addPrefix
     then addPrefixToClasses host fullText (getConfig settings)
     else removePrefixFromClasses host fullText (getConfig settings))
    = Ok processedText
    /\ processDocument editorHost host (Some (fileName, fullText)) settings
         addPrefix
       = Some
           (if str_eqb fullText processedText then
              [ShowInformationMessage
                 (if addPrefix
                  then u "ClassPrefixer: Did not find any classes to prefix"
                  else u "ClassPrefixer: Did not find any prefixes to remove")]
            else
              [ReplaceDocument processedText; FormatDocument;
               ShowInformationMessage
                 (if addPrefix
                  then u "ClassPrefixer: Prefix "
                       ++ c_dq :: prefix (getConfig settings)
                       ++ c_dq :: u " added"
                  else u "ClassPrefixer: Prefix "
                       ++ c_dq :: prefix (getConfig settings)
                       ++ c_dq :: u " removed")]).
Proof.
  intros Hfile Hre. apply getConfig_no_regex in Hre.
  destruct (runs_return host (getConfig settings) fullText Hre)
    as [[ra Ha] [rr Hr]].
  pose proof (getConfig_autoFormat settings) as Hformat.
  assert (Hw : snd (buildPatterns host (getConfig settings)) = []).
  { unfold buildPatterns. now rewrite Hre. }
  exists (if addPrefix then ra else rr). split; [now destruct addPrefix|].
  unfold processDocument. rewrite Hfile. cbn [negb]. cbv zeta.
  rewrite Hw, Hformat. cbn [map app].
  destruct addPrefix; [rewrite Ha | rewrite Hr];
    now destruct (str_eqb fullText _).
Qed.

Lemma processDocument_wildcard_witness :
  exists processedText,
    (if true
     then addPrefixToClasses strict_host (u "<a className='x'/>")
            (getConfig quiet_settings)
     else removePrefixFromClasses strict_host (u "<a className='x'/>")
            (getConfig quiet_settings))
    = Ok processedText
    /\ processDocument plain_editor_host strict_host
         (Some (u "a.tsx", u "<a className='x'/>")) quiet_settings true
       = Some
           (if str_eqb (u "<a className='x'/>") processedText then
              [ShowInformationMessage
                 (if true
                  then u "ClassPrefixer: Did not find any classes to prefix"
                  else u "ClassPrefixer: Did not find any prefixes to remove")]
            else
              [ReplaceDocument processedText; FormatDocument;
               ShowInformationMessage
                 (if true
                  then u "ClassPrefixer: Prefix "
                       ++ c_dq :: prefix (getConfig quiet_settings)
                       ++ c_dq :: u " added"
                  else u "ClassPrefixer: Prefix "
                       ++ c_dq :: prefix (getConfig quiet_settings)
                       ++ c_dq :: u " removed")]).
Proof.
  apply (processDocument_wildcard plain_editor_host strict_host (u "a.tsx")
           (u "<a className='x'/>") quiet_settings true);
    [reflexivity | discriminate].
Defined.

(** ** The names of the two passes *)

Lemma source_segments_escape (seg : str) :
  forall cur rest,
    source_segments cur (escapeRegExp seg ++ rest)
    = source_segments (rev seg ++ cur) rest.
Proof.
  induction seg as [|c seg IH]; intros cur rest; [reflexivity|].
  unfold escapeRegExp. cbn [flat_map]. fold (escapeRegExp seg).
  cbn [rev]. rewrite <- !app_assoc. cbn [app].
  destruct (is_escaped_meta c) eqn:Em.
  - cbn [app source_segments]. change (ceq c_bsl c_bsl) with true. cbn iota.
    apply IH.
  - cbn [app source_segments].
    assert (Eb : ceq c c_bsl = false).
    { destruct (ceq c c_bsl) eqn:E; [|reflexivity].
      apply ceq_eq in E. subst c. discriminate. }
    assert (El : ceq c c_lbracket = false).
    { destruct (ceq c c_lbracket) eqn:E; [|reflexivity].
      apply ceq_eq in E. subst c. discriminate. }
    rewrite Eb, El. apply IH.
Qed.

Lemma source_segments_join (segs : list str) :
  segs <> [] ->
  source_segments [] (join (u "[\w$-]*") (map escapeRegExp segs)) = segs.
Proof.
  induction segs as [|x segs IH]; [congruence|]. intros _.
  destruct segs as [|y segs].
  - cbn [map join]. rewrite <- (app_nil_r (escapeRegExp x)).
    rewrite source_segments_escape. cbn [source_segments].
    now rewrite app_nil_r, rev_involutive.
  - change (join (u "[\w$-]*") (map escapeRegExp (x :: y :: segs)))
      with (escapeRegExp x
            ++ u "[\w$-]*" ++ join (u "[\w$-]*") (map escapeRegExp (y :: segs))).
    rewrite source_segments_escape. rewrite app_nil_r.
    change (u "[\w$-]*" ++ join (u "[\w$-]*") (map escapeRegExp (y :: segs)))
      with (c_lbracket :: 92%N :: 119%N :: 36%N :: 45%N :: 93%N :: 42%N
            :: join (u "[\w$-]*") (map escapeRegExp (y :: segs))).
    cbn [source_segments]. change (ceq c_lbracket c_bsl) with false.
    change (ceq c_lbracket c_lbracket) with true. cbn iota.
    rewrite rev_involutive. f_equal. apply IH. discriminate.
Qed.

Lemma split_star_go_cons (s cur : str) : split_star_go cur s <> [].
Proof.
  revert cur; induction s as [|c s IH]; intros cur; cbn [split_star_go].
  - discriminate.
  - destruct (ceq c c_star); [discriminate | apply IH].
Qed.

(** The source text of a name expression tells its segments. *)
Lemma source_segments_toNameRegex (wild : str) :
  source_segments [] (toNameRegex wild) = split_star wild.
Proof. apply source_segments_join. apply split_star_go_cons. Qed.

Lemma unique_go_sub (x : str) (l seen : list str) :
  In x (unique_go seen l) -> In x l.
Proof.
  revert seen; induction l as [|y l IH]; intros seen H; [contradiction|].
  cbn [unique_go] in H. destruct (includes seen y).
  - right. now apply (IH seen).
  - destruct H as [->|H]; [now left | right; now apply (IH (y :: seen))].
Qed.

Lemma unique_by_source_sub (e : str * list str) (l : list (str * list str))
    (seen : list str) :
  In e (unique_by_source seen l) -> In e l.
Proof.
  revert seen; induction l as [|[src segs] l IH]; intros seen H; [contradiction|].
  cbn [unique_by_source] in H. destruct (includes seen src).
  - right. now apply (IH seen).
  - destruct H as [->|H]; [now left | right; now apply (IH ((src :: seen)))].
Qed.

Lemma unique_by_source_In (l : list (str * list str)) :
  (forall e, In e l -> snd e = source_segments [] (fst e)) ->
  forall seen e,
    In e l -> includes seen (fst e) = false ->
    In (snd e) (map snd (unique_by_source seen l)).
Proof.
  induction l as [|[src segs] l IH]; intros Hl seen e Hin Hs; [contradiction|].
  cbn [unique_by_source].
  assert (Hl' : forall e, In e l -> snd e = source_segments [] (fst e))
    by (intros e' He'; apply Hl; now right).
  destruct (includes seen src) eqn:Ey.
  - destruct Hin as [<-|Hin]; [cbn [fst] in Hs; congruence | now apply IH].
  - destruct Hin as [<-|Hin]; [now left|].
    destruct (list_eq_dec N.eq_dec (fst e) src) as [E|Hne].
    + left. cbn [snd]. rewrite (Hl e (or_intror Hin)), E.
      exact (Hl (src, segs) (or_introl eq_refl)).
    + right. apply IH; [assumption | assumption |].
      cbn [includes existsb]. fold (includes seen (fst e)).
      rewrite Hs, orb_false_r.
      destruct (str_eqb (fst e) src) eqn:E; [|reflexivity].
      apply str_eqb_eq in E. contradiction.
Qed.

(** The names of the expression pass are those of the direct-value pass. *)
Lemma expression_names_direct (host : RegExpHost)
    (config : ClassPrefixerConfig) (segs : list str) :
  useRegex config = false ->
  In segs (expression_names config) <-> In segs (direct_names host config).
Proof.
  intros Hre. unfold expression_names, direct_names.
  rewrite buildPatterns_wild by assumption.
  unfold buildAttrNameAlternation. rewrite Hre.
  cbn [flat_map segs_of app]. unfold buildPatternsFromCustom.
  set (names := custom_names (customPatterns config)).
  assert (Hd : forall l,
             In segs (flat_map
                        (fun re => match segs_of re with
                                   | Some s => [s]
                                   | None => []
                                   end)
                        (map (fun wild => ReWild (split_star wild)) l))
             <-> exists w, In w l /\ segs = split_star w).
  { intros l. rewrite in_flat_map. split.
    - intros (re & Hin & Hs). apply in_map_iff in Hin as (w & <- & Hw).
      cbn [segs_of] in Hs. destruct Hs as [<-|[]]. eauto.
    - intros (w & Hw & ->). exists (ReWild (split_star w)). split.
      + now apply (in_map (fun wild => ReWild (split_star wild))).
      + now left. }
  assert (Hall : forall e,
             In e ((u "className", [u "className"])
                   :: map (fun wild => (toNameRegex wild, split_star wild)) names) ->
             snd e = source_segments [] (fst e)).
  { intros e [<-|He]; [reflexivity|].
    apply in_map_iff in He as (w & <- & _). cbn [fst snd].
    symmetry. apply source_segments_toNameRegex. }
  split.
  - intros H. apply in_map_iff in H as (e & <- & He).
    apply unique_by_source_sub in He. destruct He as [<-|He]; [now left|].
    right. apply Hd. apply in_map_iff in He as (w & <- & Hw).
    exists w. split; [now apply unique_In | reflexivity].
  - intros [<-|H].
    + apply (unique_by_source_In _ Hall [] (u "className", [u "className"]));
        [now left | reflexivity].
    + apply Hd in H as (w & Hw & ->). apply unique_go_sub in Hw.
      apply (unique_by_source_In _ Hall [] (toNameRegex w, split_star w));
        [|reflexivity].
      right. now apply (in_map (fun wild => (toNameRegex wild, split_star wild))).
Qed.

Lemma first_hit_any_none (alts : list (list str)) (a : str) :
  first_hit_any alts a = None
  <-> forall segs, In segs alts -> first_hit segs a = None.
Proof.
  assert (Hany : forall a', hits_any alts a' = false
                            <-> forall segs, In segs alts ->
                                             hits_here segs a' = false).
  { intros a'. unfold hits_any. split.
    - intros H segs Hin. destruct (hits_here segs a') eqn:E; [|reflexivity].
      assert (existsb (fun s => hits_here s a') alts = true)
        by (apply existsb_exists; eauto).
      congruence.
    - intros H. destruct (existsb _ alts) eqn:E; [|reflexivity].
      apply existsb_exists in E as (segs & Hin & Hh).
      rewrite (H segs Hin) in Hh. discriminate. }
  induction a as [|c a IH]; cbn [first_hit_any first_hit].
  - destruct (hits_any alts []) eqn:E.
    + split; [discriminate|]. intros H. exfalso.
      unfold hits_any in E. apply existsb_exists in E as (segs & Hin & Hh).
      specialize (H segs Hin). cbn [first_hit] in H. rewrite Hh in H.
      discriminate.
    + split; [|reflexivity]. intros _ segs Hin.
      now rewrite (proj1 (Hany []) E segs Hin).
  - destruct (hits_any alts (c :: a)) eqn:E.
    + split; [discriminate|]. intros H. exfalso.
      unfold hits_any in E. apply existsb_exists in E as (segs & Hin & Hh).
      specialize (H segs Hin). rewrite Hh in H. discriminate.
    + pose proof (proj1 (Hany (c :: a)) E) as E'. split.
      * intros H segs Hin. rewrite (E' segs Hin).
        destruct (first_hit_any alts a) eqn:Ef; [discriminate|].
        now rewrite (proj1 IH eq_refl segs Hin).
      * intros H.
        assert (Hn : first_hit_any alts a = None).
        { apply IH. intros segs Hin. specialize (H segs Hin).
          rewrite (E' segs Hin) in H.
          now destruct (first_hit segs a). }
        now rewrite Hn.
Qed.

(** The two passes know the same names: on every text, a name of the
    expression pass stands before the equals sign exactly when a name of the
    direct-value pass does, although the first pass removes the duplicates
    among the wildcards and the second among the expressions made from
    them. Here [useRegex] is off. *)
Theorem passes_share_names (host : RegExpHost) (config : ClassPrefixerConfig)
    (before : str) :
  useRegex config = false ->
  name_found (expression_names config) before
  = existsb (pattern_hits before) (fst (buildPatterns host config)).
Proof.
  intros Hre.
  pose proof (buildPatterns_direct host config Hre) as Hpats.
  rewrite Forall_forall in Hpats.
  destruct (existsb (pattern_hits before) (fst (buildPatterns host config)))
    eqn:E.
  - apply existsb_exists in E as (re & Hin & Hh).
    unfold pattern_hits in Hh.
    destruct (segs_of re) as [segs|] eqn:Es; [|discriminate].
    assert (Hs : In segs (expression_names config)).
    { apply (expression_names_direct host config segs Hre).
      unfold direct_names. apply in_flat_map. exists re.
      split; [exact Hin|]. rewrite Es. now left. }
    unfold name_found.
    destruct (first_hit_any (expression_names config) before) eqn:Ef;
      [reflexivity|].
    rewrite first_hit_any_none in Ef. rewrite (Ef segs Hs) in Hh.
    discriminate.
  - unfold name_found.
    destruct (first_hit_any (expression_names config) before) eqn:Ef;
      [|reflexivity].
    exfalso.
    assert (Hnone : first_hit_any (expression_names config) before = None).
    { apply first_hit_any_none. intros segs Hs.
      apply (expression_names_direct host config segs Hre) in Hs.
      unfold direct_names in Hs. apply in_flat_map in Hs as (re & Hin & Hs).
      destruct (segs_of re) as [s|] eqn:Es; [|contradiction].
      destruct Hs as [<-|[]].
      destruct (first_hit s before) eqn:Eh; [|reflexivity].
      assert (existsb (pattern_hits before) (fst (buildPatterns host config))
              = true).
      { apply existsb_exists. exists re. split; [exact Hin|].
        unfold pattern_hits. now rewrite Es, Eh. }
      congruence. }
    congruence.
Qed.

Lemma passes_share_names_witness :
  name_found (expression_names (test_config_skipping [])) (u "<a fooClassName ")
  = existsb (pattern_hits (u "<a fooClassName "))
      (fst (buildPatterns strict_host (test_config_skipping []))).
Proof.
  apply (passes_share_names strict_host (test_config_skipping [])
           (u "<a fooClassName ")).
  reflexivity.
Defined.

(** ** The command with raw fragments *)

(** With the [useRegex] setting on, when the constructor refuses the
    expression made of all the fragments, the command on a supported file
    changes nothing in the document: it shows one warning for each fragment
    refused on its own, and then one error. *)
Theorem processDocument_invalid_regex (editorHost : EditorHost)
    (host : RegExpHost) (fileName fullText : str) (settings : Settings)
    (addPrefix : bool) :
  isFileSupported editorHost fileName = true ->
  setting_useRegex settings = Some true ->
  host_compiles host (expression_source (getConfig settings)) = false ->
  exists e,
    processDocument editorHost host (Some (fileName, fullText)) settings
      addPrefix
    = Some
        (map (fun pattern =>
                ShowWarningMessage
                  (u "ClassPrefixer: Invalid regex pattern: " ++ pattern))
           (filter (fun pattern =>
                      negb (host_compiles host (direct_source pattern)))
              (customRegexPatterns (getConfig settings)))
         ++ [ShowErrorMessage
               (u "ClassPrefixer Error: " ++ error_text editorHost e)]).
Proof.
  intros Hfile Hset Hbad.
  assert (Hre : useRegex (getConfig settings) = true).
  { unfold getConfig, or_boolean. cbn [useRegex]. now rewrite Hset. }
  assert (Hx : forall r add,
             processExpressionAttributeLiterals host r (getConfig settings) add
             = Throw SyntaxError).
  { intros r add. unfold processExpressionAttributeLiterals.
    unfold expression_source in Hbad.
    unfold buildAttrNameAlternation in *. rewrite Hre in *.
    cbn [startRe]. now rewrite Hbad. }
  assert (Hrun : exists e,
             (if addPrefix
              then addPrefixToClasses host fullText (getConfig settings)
              else removePrefixFromClasses host fullText (getConfig settings))
             = Throw e).
  { destruct addPrefix.
    - unfold addPrefixToClasses.
      pose proof (direct_pass_ends host
                    (fst (buildPatterns host (getConfig settings)))
                    (direct_replacer (prefix (getConfig settings))
                       (skipClasses (getConfig settings)) true)
                    (direct_replacer_ends _ _ _)
                    (Ok fullText) ltac:(discriminate)) as Hd.
      unfold direct_pass. cbn zeta.
      destruct (fold_left _ _ _) as [r|e|]; [|eauto|contradiction].
      rewrite Hx. eauto.
    - unfold removePrefixFromClasses.
      pose proof (direct_pass_ends host
                    (fst (buildPatterns host (getConfig settings)))
                    (direct_replacer (prefix (getConfig settings)) [] false)
                    (direct_replacer_ends _ _ _)
                    (Ok fullText) ltac:(discriminate)) as Hd.
      unfold direct_pass. cbn zeta.
      destruct (fold_left _ _ _) as [r|e|]; [|eauto|contradiction].
      rewrite Hx. eauto. }
  destruct Hrun as [e He]. exists e.
  unfold processDocument. rewrite Hfile. cbn [negb]. cbv zeta.
  rewrite He.
  unfold buildPatterns at 1. rewrite Hre, buildPatterns_fold. cbn [snd app].
  reflexivity.
Qed.

Lemma processDocument_invalid_regex_witness :
  exists e,
    processDocument plain_editor_host strict_host
      (Some (u "a.tsx", u "<a className='x'/>")) regex_settings true
    = Some
        (map (fun pattern =>
                ShowWarningMessage
                  (u "ClassPrefixer: Invalid regex pattern: " ++ pattern))
           (filter (fun pattern =>
                      negb (host_compiles strict_host (direct_source pattern)))
              (customRegexPatterns (getConfig regex_settings)))
         ++ [ShowErrorMessage
               (u "ClassPrefixer Error: " ++ error_text plain_editor_host e)]).
Proof.
  apply (processDocument_invalid_regex plain_editor_host strict_host
           (u "a.tsx") (u "<a className='x'/>") regex_settings true);
    reflexivity.
Defined.

(** ** An expression value that is never closed *)

Lemma expression_loop_skip (fuel : nat) (host : RegExpHost) (re : RegExp)
    (transform : str -> str) (text : str) (reIndex lastIndex : nat)
    (s e : nat) (g : option str) :
  exec host re text reIndex = Some (s, e, g) ->
  findMatchingBrace text (e - 1) = (-1)%Z ->
  expression_loop (S fuel) host re transform text reIndex lastIndex
  = expression_loop fuel host re transform text e lastIndex.
Proof.
  intros Hexec Hclose. cbn [expression_loop]. rewrite Hexec. cbv zeta.
  replace (Z.to_nat (Z.of_nat e - 1)) with (e - 1) by lia.
  now rewrite Hclose.
Qed.

Lemma find_from_direct_open (re : RegExp) (segs : list str)
    (a rest : str) (i : nat) :
  segs_of re = Some segs ->
  no_equals a = true -> no_equals rest = true ->
  find_from re (a ++ c_eq :: c_lbrace :: rest) i = None.
Proof.
  intros Hre Ha Hrest. apply (find_from_direct_none re segs); [exact Hre|].
  intros n r E.
  apply suffix_cases in E as [(l & -> & ->)|Hr];
    [| now apply direct_tail_no_equals | assumption].
  apply direct_tail_expression. now apply no_equals_tail in Ha.
Qed.

(** The source skips an opening brace that is never closed: on a buffer
    with a single equals sign, followed by an opening brace for which the
    brace matcher finds no closing brace, adding and removing return the
    buffer as it is, whether or not a name of the configuration stands
    before the equals sign. Here [useRegex] is off. *)
Theorem unbalanced_expression_unchanged (host : RegExpHost)
    (config : ClassPrefixerConfig) (before rest : str) :
  useRegex config = false ->
  no_equals before = true -> no_equals rest = true ->
  findMatchingBrace (before ++ c_eq :: c_lbrace :: rest) (length before + 1)
  = (-1)%Z ->
  addPrefixToClasses host (before ++ c_eq :: c_lbrace :: rest) config
  = Ok (before ++ c_eq :: c_lbrace :: rest)
  /\ removePrefixFromClasses host (before ++ c_eq :: c_lbrace :: rest) config
     = Ok (before ++ c_eq :: c_lbrace :: rest).
Proof.
  intros Hre Ha Hrest Hopen.
  set (text := before ++ c_eq :: c_lbrace :: rest) in *.
  pose proof (buildPatterns_direct host config Hre) as Hpats.
  assert (D : forall replacer,
             direct_pass host (fst (buildPatterns host config)) replacer text
             = Ok text).
  { intros replacer. apply direct_pass_none.
    apply Forall_impl with (2 := Hpats). intros re Hs. split; [exact Hs|].
    destruct (segs_of re) as [segs|] eqn:E; [|congruence].
    intros i. now apply (find_from_direct_open re segs). }
  assert (X : forall add,
             processExpressionAttributeLiterals host text config add = Ok text).
  { intros add. unfold processExpressionAttributeLiterals.
    unfold buildAttrNameAlternation. rewrite Hre. cbn [startRe].
    set (alts := map snd _).
    replace (length text + 2) with (S (S (length text))) by lia.
    assert (Hexec : exec host (ReOpen alts) text 0
                    = match first_hit_any alts before with
                      | Some j => Some (0 + j, 0 + length before + 2, None)
                      | None => None
                      end).
    { unfold exec. cbn [Nat.ltb Nat.leb skipn].
      unfold text. now apply find_from_expression. }
    destruct (first_hit_any alts before) as [j|].
    - rewrite (expression_loop_skip _ _ _ _ _ _ _ _ _ _ Hexec).
      + apply expression_loop_done. unfold exec.
        assert (Hlen : length text = length before + 2 + length rest).
        { unfold text. rewrite length_app. cbn [length]. lia. }
        destruct (Nat.ltb_spec (length text) (0 + length before + 2))
          as [Hlt|_]; [lia|].
        replace (0 + length before + 2) with (length before + 2) by lia.
        unfold text. rewrite skipn_app_plus. cbn [skipn].
        now apply find_from_open_no_equals.
      + replace (0 + length before + 2 - 1) with (length before + 1) by lia.
        exact Hopen.
    - now apply expression_loop_done. }
  unfold addPrefixToClasses, removePrefixFromClasses. cbn zeta.
  rewrite !D. now rewrite !X.
Qed.

Lemma unbalanced_expression_unchanged_witness :
  addPrefixToClasses strict_host
    (u "<a className" ++ c_eq :: c_lbrace :: u "cn('x', {y: '}'") test_config
  = Ok (u "<a className" ++ c_eq :: c_lbrace :: u "cn('x', {y: '}'")
  /\ removePrefixFromClasses strict_host
       (u "<a className" ++ c_eq :: c_lbrace :: u "cn('x', {y: '}'")
       test_config
     = Ok (u "<a className" ++ c_eq :: c_lbrace :: u "cn('x', {y: '}'").
Proof.
  apply (unbalanced_expression_unchanged strict_host test_config
           (u "<a className") (u "cn('x', {y: '}'")); reflexivity.
Defined.
